(** * ZenUI: theme store, style engine, element builder and modal lifecycle

    A shallow embedding of [src/index.js].  The module keeps three pieces of
    mutable state (the active theme, the style cache with its counter and
    stylesheet, and the document it builds nodes in); they are threaded
    explicitly through a state monad in which a JavaScript exception is the
    result [None] together with the state reached when it was thrown.

    The library runs on a render surface which rejects some of what it is
    handed: a rule text that does not parse, a name that is no element
    name, a key [dataset] does not take.  These verdicts are the
    surface's, not the library's; the state carries them as functions
    ([platform]), and what the library does after either verdict is
    modelled.

    Strings are strings of code units below 256.  A text with a code unit
    above 255, at which [btoa] throws, is outside the model. *)

From Stdlib Require Import Ascii String.
From stdpp Require Import base option list gmap sets strings pretty.

Local Open Scope string_scope.

(** ** JavaScript string primitives used by the source *)

Module Js.

(** [Array.prototype.join] on an array of strings. *)
Fixpoint join (sep : string) (l : list string) : string :=
  match l with
  | [] => ""
  | x :: r =>
      match r with
      | [] => x
      | _ :: _ => x +:+ sep +:+ join sep r
      end
  end.

Definition b64_alphabet : list ascii :=
  list_ascii_of_string
    "ABCDEFGHIJKLMNOPQRSTUVWXYZabcdefghijklmnopqrstuvwxyz0123456789+/".

Definition b64_char (n : N) : ascii :=
  default "="%char (b64_alphabet !! N.to_nat n).

(** Base-64 encoding of a byte sequence, three bytes to four characters,
    padded with [=]. *)
Fixpoint btoa_bytes (l : list N) : string :=
  match l with
  | [] => ""
  | [a] =>
      String (b64_char (a / 4))
        (String (b64_char ((a mod 4) * 16)) "==")
  | [a; b] =>
      String (b64_char (a / 4))
        (String (b64_char ((a mod 4) * 16 + b / 16))
           (String (b64_char ((b mod 16) * 4)) "="))
  | a :: b :: c :: r =>
      String (b64_char (a / 4))
        (String (b64_char ((a mod 4) * 16 + b / 16))
           (String (b64_char ((b mod 16) * 4 + c / 64))
              (String (b64_char (c mod 64)) (btoa_bytes r))))
  end%N.

(** [btoa] is defined on strings whose code units are below 256, which
    is what a Rocq [string] is. *)
Definition btoa (s : string) : string :=
  btoa_bytes (N_of_ascii <$> list_ascii_of_string s).

(** [s.replace(/[+/=]/g, '')] *)
Definition strip_b64_punct (s : string) : string :=
  string_of_list_ascii
    (filter (λ c, c ∉ ["+"%char; "/"%char; "="%char])
       (list_ascii_of_string s)).

(** [s.startsWith(p)] *)
Definition startsWith (p s : string) : bool := String.prefix p s.

(** [s.toLowerCase()] on code units below 256: A-Z, and the Latin-1
    capitals 0xC0-0xDE except the multiplication sign 0xD7. *)
Definition lower_char (c : ascii) : ascii :=
  let n := N_of_ascii c in
  if ((65 <=? n) && (n <=? 90)
      || (192 <=? n) && (n <=? 222) && negb (n =? 215))%N
  then ascii_of_N (n + 32) else c.

Definition toLowerCase (s : string) : string :=
  string_of_list_ascii (lower_char <$> list_ascii_of_string s).

(** ASCII lower case, which the render surface applies to the name of
    an element: A-Z only. *)
Definition ascii_lower_char (c : ascii) : ascii :=
  let n := N_of_ascii c in
  if ((65 <=? n) && (n <=? 90))%N then ascii_of_N (n + 32) else c.

Definition asciiLowerCase (s : string) : string :=
  string_of_list_ascii (ascii_lower_char <$> list_ascii_of_string s).

End Js.

(** ** Data model *)

Definition loc := positive.
Definition nid := positive.

(** A token of the theme: a literal.  The library stores numbers, tests
    them for truthiness and interpolates them into text, and never computes
    with them, so a number is carried by its rendering. *)
Inductive token :=
| TUndefined
| TNull
| TBool (b : bool)
| TNum (rendering : string)
| TStr (s : string).

(** [`${v}`] *)
Definition token_text (v : token) : string :=
  match v with
  | TUndefined => "undefined"
  | TNull => "null"
  | TBool true => "true"
  | TBool false => "false"
  | TNum r => r
  | TStr s => s
  end.

(** A category object ([colors], [spacing], ...) and a theme object, which
    maps category names to references to category objects.  Both kinds of
    object live in a store, because the source shares them:
    [{ ...defaultTheme }] and [{ ...activeTheme }] copy the references. *)
Abbreviation category := (gmap string token).
Abbreviation theme := (gmap string loc).

(** A style mapping, in [Object.entries] order.  A value that is not an
    object is carried by the text the template literal renders for it; a
    nested object by its entries, rendered likewise. *)
Inductive style_value :=
| Leaf (text : string)
| Block (entries : list (string * string)).

Definition mapping := list (string * style_value).

(** What a style function can see of the theme it is called with:
    [theme.c.k].  [None] is the [TypeError] of reading a token of a
    category the theme does not have. *)
Definition theme_reader := string → string → option token.

(** A style description: a mapping, or a function of the theme ([None]
    when the function throws). *)
Inductive styles :=
| Static (m : mapping)
| Dynamic (f : theme_reader → option mapping).

(** Function values.  [Host] is a callback of the embedding page, opaque to
    the library; the others are the closures [Modal] creates, with the
    variables they capture. *)
Inductive jsval :=
| VUndefined
| VNull
| VBool (b : bool)
| VNum (rendering : string)
| VStr (s : string)
| VFun (f : fn)
| VNode (n : nid)
| VArr (items : list jsval)
with fn :=
| Host (tag : nat)
| HandleOverlayClick (onClose : jsval)
| Cleanup (overlay modalElement : nid)
| OnFinish (overlay : nid).

(** [Boolean(v)] *)
Definition truthy (v : jsval) : bool :=
  match v with
  | VUndefined | VNull => false
  | VBool b => b
  | VNum r => negb (bool_decide (r = "0" ∨ r = "NaN"))
  | VStr s => negb (bool_decide (s = ""))
  | VFun _ | VNode _ | VArr _ => true
  end.

(** [a || b] *)
Definition or_else (a b : jsval) : jsval := if truthy a then a else b.

(** A child in the tree: a text node or an element of the store. *)
Inductive child :=
| CText (s : string)
| CElem (n : nid).

Record element := Element {
  localName : string;                    (* the tag, in ASCII lower case *)
  className : string;                    (* the class attribute *)
  inlineStyle : gmap string string;      (* element.style *)
  dataset : gmap string string;
  listeners : list (string * fn);        (* in registration order *)
  properties : gmap string jsval;        (* the values assigned by
                                            element[key] = value *)
  childNodes : list child;
  parentNode : option nid
}.

Definition keyframes := list (list (string * string)).

Record animation := Animation {
  target : nid;
  frames : keyframes;
  timing : gmap string token;
  onfinish : option fn;
  finished : bool
}.

(** What a function is called with: nothing, an event with its [target]
    and [currentTarget], or a node (a [ref] callback). *)
Inductive call_arg :=
| NoArgs
| WithEvent (target currentTarget : nid)
| WithNode (n : nid).

(** What the host page observed: its callbacks being invoked. *)
Inductive host_call :=
| Called (tag : nat) (a : call_arg).

(** An optional property of a props object: not there, there with a falsy
    value, or there with a value of the expected shape. *)
Inductive given (A : Type) :=
| Absent
| Falsy
| Truthy (a : A).
Arguments Absent {A}.
Arguments Falsy {A}.
Arguments Truthy {A} a.

(** [{ ...base, key: over }] for one key. *)
Definition override {A} (base over : given A) : given A :=
  match over with
  | Absent => base
  | _ => over
  end.

(** A literal [className]: a string, or an array of strings in which
    [None] stands for a [null], [undefined] or [false] entry. *)
Inductive class_prop :=
| ClassString (s : string)
| ClassArray (l : list (option string)).

(** The props of [createElement], as its destructuring sorts them. *)
Module Props.
Record t := Make {
  className : given class_prop;
  style : given (list (string * string));
  children : jsval;
  dataset : given (list (string * string));
  cssStyles : given styles;
  rest : list (string * jsval)
}.
Definition empty : t := Make Absent Absent VUndefined Absent Absent [].
End Props.

(** The props of [Modal].  [size] is [None] when it is not given; [rest]
    is everything [Modal] does not name, sorted as [createElement] will
    sort it (its [children] field is unused: [Modal] names [children]). *)
Module ModalProps.
Record t := Make {
  title : jsval;
  content : jsval;
  footer : jsval;
  isOpen : jsval;
  onClose : jsval;
  size : option string;
  children : jsval;
  rest : Props.t
}.
End ModalProps.

Record theme_store := ThemeStore {
  objects : gmap loc category;
  themes : gmap loc theme;
  activeTheme : loc
}.

Record style_engine := StyleEngine {
  styleSheet : option (list string);     (* cssRules; null before initStyles *)
  styleCache : gmap string string;
  uniqueId : N
}.

Record document := Document {
  nodes : gmap nid element;
  animations : list animation;
  hostLog : list host_call
}.

(** The verdicts of the render surface: whether [insertRule] takes a rule
    text (it throws a [SyntaxError] for one that does not parse), whether
    [document.createElement] takes a name (an [InvalidCharacterError]
    otherwise), and whether [dataset] takes a key (a [SyntaxError]
    otherwise). *)
Record platform := Platform {
  parsesRule : string → bool;
  validName : string → bool;
  validDataKey : string → bool
}.

Record runtime := Runtime {
  store : theme_store;
  engine : style_engine;
  doc : document;
  surface : platform
}.

Definition with_store (f : theme_store → theme_store) (s : runtime) :=
  Runtime (f (store s)) (engine s) (doc s) (surface s).
Definition with_engine (f : style_engine → style_engine) (s : runtime) :=
  Runtime (store s) (f (engine s)) (doc s) (surface s).
Definition with_doc (f : document → document) (s : runtime) :=
  Runtime (store s) (engine s) (f (doc s)) (surface s).

(** ** The monad: state, and exceptions that keep the state *)

Definition M (A : Type) : Type := runtime → option A * runtime.

Definition throw {A} : M A := λ s, (None, s).

#[global] Instance M_ret : MRet M := λ A a s, (Some a, s).
#[global] Instance M_bind : MBind M := λ A B f m s,
  match m s with
  | (Some a, s') => f a s'
  | (None, s') => (None, s')
  end.

Definition get_state : M runtime := λ s, (Some s, s).
Definition modify (f : runtime → runtime) : M () := λ s, (Some (), f s).

(** [l.forEach(f)] *)
Fixpoint forEach {A} (f : A → M ()) (l : list A) : M () :=
  match l with
  | [] => mret ()
  | x :: r => f x;; forEach f r
  end.

(** ** Theme store *)

Definition category_at (st : theme_store) (l : loc) : category :=
  default ∅ (objects st !! l).

Definition theme_at (st : theme_store) (l : loc) : theme :=
  default ∅ (themes st !! l).

(** [{ ...o }] for an optional reference to a category object:
    [...undefined] spreads nothing. *)
Definition spread (st : theme_store) (r : option loc) : category :=
  match r with
  | Some l => category_at st l
  | None => ∅
  end.

(** [theme.c.k] as a token, [None] when there is no such token. *)
Definition token_at (st : theme_store) (t : loc) (c k : string)
  : option token :=
  theme_at st t !! c ≫= λ l, category_at st l !! k.

Definition defaultColors : category :=
  list_to_map
    [("primary", TStr "#4a6cf7"); ("secondary", TStr "#6c757d");
     ("success", TStr "#28a745"); ("danger", TStr "#dc3545");
     ("warning", TStr "#ffc107"); ("info", TStr "#17a2b8");
     ("light", TStr "#f8f9fa"); ("dark", TStr "#343a40");
     ("background", TStr "#ffffff"); ("text", TStr "#212529");
     ("border", TStr "#dee2e6")].

Definition defaultSpacing : category :=
  list_to_map
    [("xs", TStr "0.25rem"); ("sm", TStr "0.5rem"); ("md", TStr "1rem");
     ("lg", TStr "1.5rem"); ("xl", TStr "2rem")].

Definition defaultTypography : category :=
  list_to_map
    [("fontFamily",
      TStr ("-apple-system, BlinkMacSystemFont, " +:+
            String (ascii_of_nat 34) "Segoe UI" +:+
            String (ascii_of_nat 34)
              ", Roboto, Helvetica, Arial, sans-serif"));
     ("fontSize", TStr "16px");
     ("lineHeight", TNum "1.5")].

Definition defaultBorderRadius : category :=
  list_to_map
    [("sm", TStr "0.25rem"); ("md", TStr "0.375rem"); ("lg", TStr "0.5rem");
     ("pill", TStr "50rem")].

Definition defaultShadows : category :=
  list_to_map
    [("sm", TStr "0 1px 2px rgba(0, 0, 0, 0.05)");
     ("md", TStr "0 4px 6px rgba(0, 0, 0, 0.1)");
     ("lg", TStr "0 10px 15px rgba(0, 0, 0, 0.1)")].

Definition defaultTransitions : category :=
  list_to_map
    [("default", TStr "all 0.2s ease-in-out");
     ("fast", TStr "all 0.1s ease-in-out");
     ("slow", TStr "all 0.3s ease-in-out")].

(** The category objects of [defaultTheme] sit at fixed addresses of the
    store; [defaultTheme] itself is never handed out, so it is a constant. *)
Definition defaultTheme : theme :=
  list_to_map
    [("colors", 1%positive); ("spacing", 2%positive);
     ("typography", 3%positive); ("borderRadius", 4%positive);
     ("shadows", 5%positive); ("transitions", 6%positive)].

Definition defaultObjects : gmap loc category :=
  list_to_map
    [(1%positive, defaultColors); (2%positive, defaultSpacing);
     (3%positive, defaultTypography); (4%positive, defaultBorderRadius);
     (5%positive, defaultShadows); (6%positive, defaultTransitions)].

(** [new_theme o]: evaluate an object literal whose value is [o]. *)
Definition new_theme (o : theme) (st : theme_store) : loc * theme_store :=
  let t := fresh (dom (themes st)) in
  (t, ThemeStore (objects st) (<[t := o]> (themes st)) (activeTheme st)).

Definition new_category (o : category) (st : theme_store)
  : loc * theme_store :=
  let l := fresh (dom (objects st)) in
  (l, ThemeStore (<[l := o]> (objects st)) (themes st) (activeTheme st)).

Definition set_active (t : loc) (st : theme_store) : theme_store :=
  ThemeStore (objects st) (themes st) t.

Definition themeCategories : list string :=
  ["colors"; "spacing"; "typography"; "borderRadius"; "shadows";
   "transitions"].

(** One line of [setTheme]'s object literal:
    [c: { ...activeTheme.c, ...(newTheme.c || {}) }], evaluated against
    the themes [a] and [n] read before the literal. *)
Definition merge_category (a n : theme) (c : string)
    (acc : theme * theme_store) : theme * theme_store :=
  let '(top, st) := acc in
  let '(l, st') := new_category (spread st (n !! c) ∪ spread st (a !! c)) st in
  (<[c := l]> top, st').

Definition clear_cache (e : style_engine) : style_engine :=
  StyleEngine (styleSheet e) ∅ (uniqueId e).

(** [setTheme(newTheme)], [newTheme] being a reference to a theme object
    of the host. *)
Definition setTheme (newTheme : loc) : M loc := λ s,
  let st := store s in
  let a := theme_at st (activeTheme st) in
  let n := theme_at st newTheme in
  let '(top, st1) := foldl (λ acc c, merge_category a n c acc)
                       (n ∪ a, st) themeCategories in
  let '(t, st2) := new_theme top st1 in
  (Some t,
   Runtime (set_active t st2) (clear_cache (engine s)) (doc s) (surface s)).

(** [getTheme()] *)
Definition getTheme : M loc := λ s,
  let st := store s in
  let '(t, st1) := new_theme (theme_at st (activeTheme st)) st in
  (Some t, Runtime st1 (engine s) (doc s) (surface s)).

(** [resetTheme()] *)
Definition resetTheme : M loc := λ s,
  let '(t, st1) := new_theme defaultTheme (store s) in
  (Some t,
   Runtime (set_active t st1) (clear_cache (engine s)) (doc s) (surface s)).

(** What the host can do to a theme object it holds a reference to. *)
Definition host_set_token (l : loc) (k : string) (v : token) : M () :=
  modify (with_store (λ st,
    ThemeStore (<[l := <[k := v]> (category_at st l)]> (objects st))
      (themes st) (activeTheme st))).

Definition host_set_category (t : loc) (c : string) (l : loc) : M () :=
  modify (with_store (λ st,
    ThemeStore (objects st) (<[t := <[c := l]> (theme_at st t)]> (themes st))
      (activeTheme st))).

(** [t.c], for the host that holds the theme [t]. *)
Definition host_get_category (t : loc) (c : string) : M loc := λ s,
  (theme_at (store s) t !! c, s).

(** ** Style engine *)

Definition initStyles : M () :=
  modify (with_engine (λ e,
    match styleSheet e with
    | None => StyleEngine (Some []) (styleCache e) (uniqueId e)
    | Some _ => e
    end)).

Definition createUniqueId (prefix : string) : M string := λ s,
  let e := engine s in
  (Some (prefix +:+ "-" +:+ pretty (uniqueId e)),
   with_engine (λ _, StyleEngine (styleSheet e) (styleCache e)
                       (uniqueId e + 1)%N) s).

(** The theme as the style functions read it. *)
Definition reader (st : theme_store) : theme_reader := λ c k,
  match theme_at st (activeTheme st) !! c with
  | None => None
  | Some l => Some (default TUndefined (category_at st l !! k))
  end.

(** [processedStyles] *)
Definition processedStyles (d : styles) (s : runtime) : option mapping :=
  match d with
  | Static m => Some m
  | Dynamic f => f (reader (store s))
  end.

Definition nestedRule (e : string * string) : string :=
  e.1 +:+ ": " +:+ e.2 +:+ ";".

Definition entryRule (e : string * style_value) : string :=
  match e.2 with
  | Block entries =>
      e.1 +:+ " { " +:+ Js.join " " (nestedRule <$> entries) +:+ " }"
  | Leaf value => e.1 +:+ ": " +:+ value +:+ ";"
  end.

Definition cssString (m : mapping) : string :=
  Js.join " " (entryRule <$> m).

(** [btoa(cssString).replace(/[+/=]/g, '').substring(0, 8)] *)
Definition hash (text : string) : string :=
  substring 0 8 (Js.strip_b64_punct (Js.btoa text)).

Definition ruleText (className text : string) : string :=
  "." +:+ className +:+ " { " +:+ text +:+ " }".

(** [styleSheet.insertRule(rule, index)]: an index past the end and a
    rule the surface does not parse are exceptions, which leave the
    stylesheet as it is. *)
Definition insertRule (rule : string) (index : nat) : M () := λ s,
  let e := engine s in
  match styleSheet e with
  | Some rules =>
      if decide (index ≤ length rules)%nat then
        if parsesRule (surface s) rule then
          (Some (),
           with_engine (λ _, StyleEngine
                          (Some (take index rules ++ rule :: drop index rules)%list)
                          (styleCache e) (uniqueId e)) s)
        else (None, s)
      else (None, s)
  | None => (None, s)
  end.

Definition cache_set (h className : string) : M () :=
  modify (with_engine (λ e,
    StyleEngine (styleSheet e) (<[h := className]> (styleCache e))
      (uniqueId e))).

Definition cssRules (s : runtime) : list string :=
  default [] (styleSheet (engine s)).

(** [css(styles)].  The two branches return [styleCache.get(hash)]: the
    entry found, or the one just set.  The class is cached before the rule
    is inserted: when [insertRule] throws, the counter has advanced and
    the cache holds a class without a rule. *)
Definition css (d : styles) : M string :=
  initStyles;;
  s ← get_state;
  match processedStyles d s with
  | None => throw
  | Some m =>
      let text := cssString m in
      let h := hash text in
      match styleCache (engine s) !! h with
      | Some className => mret className
      | None =>
          className ← createUniqueId "zen-style";
          cache_set h className;;
          insertRule (ruleText className text) (length (cssRules s));;
          mret className
      end
  end.

(** The class a rule is registered for: its selector, the text between the
    leading dot and the first space. *)
Fixpoint upto_space (s : string) : string :=
  match s with
  | "" => ""
  | String c r => if decide (c = " "%char) then "" else String c (upto_space r)
  end.

Definition rule_class (rule : string) : string :=
  match rule with
  | String "." r => upto_space r
  | _ => ""
  end.

(** The body of a rule: the text between [" { "] and the final [" }"]. *)
Fixpoint after_space (s : string) : string :=
  match s with
  | "" => ""
  | String c r => if decide (c = " "%char) then r else after_space r
  end.

Definition rule_body (rule : string) : string :=
  let b := after_space rule in
  substring 2 (String.length b - 4) b.

(** ** The render surface *)

(** [document.body], which stays the body element of the document. *)
Definition body : nid := 1%positive.

Definition blank (tag : string) : element :=
  Element tag "" ∅ ∅ [] ∅ [] None.

Definition set_nodes (f : gmap nid element → gmap nid element) : M () :=
  modify (with_doc (λ d, Document (f (nodes d)) (animations d) (hostLog d))).

Definition update_node (n : nid) (f : element → element) : M () :=
  set_nodes (alter f n).

Definition node_at (s : runtime) (n : nid) : option element :=
  nodes (doc s) !! n.

(** [n.parentNode] *)
Definition parent_of (s : runtime) (n : nid) : option nid :=
  node_at s n ≫= parentNode.

(** [document.createElement(tag)], in an HTML document: a name the
    surface does not take is an exception; the element is named by the
    tag in ASCII lower case. *)
Definition document_createElement (tag : string) : M nid := λ s,
  if validName (surface s) tag then
    let n := fresh (dom (nodes (doc s))) in
    (Some n,
     with_doc (λ d, Document (<[n := blank (Js.asciiLowerCase tag)]> (nodes d))
                      (animations d) (hostLog d)) s)
  else (None, s).

Definition is_space (c : ascii) : bool :=
  bool_decide (c ∈ [" "%char; ascii_of_nat 9; ascii_of_nat 10;
                    ascii_of_nat 12; ascii_of_nat 13]).

(** The tokens of a class attribute: split on white space. *)
Fixpoint split_tokens (cur : string) (s : string) : list string :=
  match s with
  | "" => if bool_decide (cur = "") then [] else [cur]
  | String c r =>
      if is_space c
      then (if bool_decide (cur = "") then [] else [cur]) ++ split_tokens "" r
      else split_tokens (cur +:+ String c "") r
  end%list.

(** [element.classList]: the tokens, each once. *)
Definition classList (e : element) : list string :=
  remove_dups (split_tokens "" (className e)).

Definition with_className (c : string) (e : element) : element :=
  Element (localName e) c (inlineStyle e) (dataset e) (listeners e)
    (properties e) (childNodes e) (parentNode e).

(** [element.classList.add(c)] *)
Definition classList_add (n : nid) (c : string) : M () :=
  update_node n (λ e,
    with_className
      (Js.join " " (if bool_decide (c ∈ classList e) then classList e
                    else classList e ++ [c])%list) e).

(** [element.className = c] *)
Definition set_className (n : nid) (c : string) : M () :=
  update_node n (with_className c).

(** [Object.assign(element.style, style)]: the pairs assigned, in the
    order of the assignments. *)
Definition assign_style (n : nid) (style : list (string * string)) : M () :=
  update_node n (λ e,
    Element (localName e) (className e)
      (foldl (λ m kv, <[kv.1 := kv.2]> m) (inlineStyle e) style)
      (dataset e) (listeners e) (properties e) (childNodes e) (parentNode e)).

(** [element.dataset[key] = value]: a key the surface does not take is an
    exception. *)
Definition set_data (n : nid) (kv : string * string) : M () :=
  s ← get_state;
  if validDataKey (surface s) kv.1 then
    update_node n (λ e,
      Element (localName e) (className e) (inlineStyle e)
        (<[kv.1 := kv.2]> (dataset e))
        (listeners e) (properties e) (childNodes e) (parentNode e))
  else throw.

(** [Object.entries(dataset).forEach(...)] *)
Definition assign_dataset (n : nid) (data : list (string * string)) : M () :=
  forEach (set_data n) data.

(** [element.addEventListener(name, f)], for a function that does not
    listen to this event of the element yet (the surface keeps a function
    once per event). *)
Definition addEventListener (n : nid) (name : string) (f : fn) : M () :=
  update_node n (λ e,
    Element (localName e) (className e) (inlineStyle e) (dataset e)
      (listeners e ++ [(name, f)])%list (properties e) (childNodes e)
      (parentNode e)).

(** [element[key] = value], for a key the surface gives no meaning of its
    own: the value is kept as it is assigned.  (A key such as
    [textContent], [innerHTML] or [classList], whose assignment the
    surface turns into children or into the class attribute, and one
    whose value it converts, is outside the model; the statements below
    that depend on it say so.) *)
Definition set_property (n : nid) (key : string) (value : jsval) : M () :=
  update_node n (λ e,
    Element (localName e) (className e) (inlineStyle e) (dataset e)
      (listeners e) (<[key := value]> (properties e)) (childNodes e)
      (parentNode e)).

Definition with_children (f : list child → list child) (e : element)
  : element :=
  Element (localName e) (className e) (inlineStyle e) (dataset e)
    (listeners e) (properties e) (f (childNodes e)) (parentNode e).

Definition with_parent (p : option nid) (e : element) : element :=
  Element (localName e) (className e) (inlineStyle e) (dataset e)
    (listeners e) (properties e) (childNodes e) p.

#[global] Instance child_eq_dec : EqDecision child.
Proof. solve_decision. Defined.

(** [p.removeChild(c)] *)
Definition removeChild (p c : nid) : M () :=
  update_node p (with_children (filter (λ x, x ≠ CElem c)));;
  update_node c (with_parent None).

(** [p.appendChild(c)]: a node that has a parent is moved. *)
Definition appendChild (p : nid) (c : child) : M () :=
  match c with
  | CText _ => update_node p (with_children (λ l, l ++ [c])%list)
  | CElem n =>
      s ← get_state;
      match parent_of s n with
      | Some q => removeChild q n
      | None => mret ()
      end;;
      update_node p (with_children (λ l, l ++ [c])%list);;
      update_node n (with_parent (Some p))
  end.

(** [element.textContent = text] *)
Definition set_textContent (n : nid) (text : string) : M () :=
  s ← get_state;
  forEach (λ x, match x with
                | CElem c => update_node c (with_parent None)
                | CText _ => mret ()
                end)
    (default [] (childNodes <$> node_at s n));;
  update_node n
    (with_children (λ _, if bool_decide (text = "") then [] else [CText text])).

(** [node.animate(keyframes, options)], for keyframes and options the
    surface takes, as those of the library are. *)
Definition element_animate (n : nid) (k : keyframes)
    (options : gmap string token) : M nat := λ s,
  let d := doc s in
  (Some (length (animations d)),
   with_doc (λ _, Document (nodes d)
                    (animations d ++ [Animation n k options None false])%list
                    (hostLog d)) s).

(** [animation.onfinish = f] *)
Definition set_onfinish (a : nat) (f : fn) : M () :=
  modify (with_doc (λ d,
    Document (nodes d)
      (alter (λ x, Animation (target x) (frames x) (timing x) (Some f)
                     (finished x)) a (animations d))
      (hostLog d))).

Definition log_host (c : host_call) : M () :=
  modify (with_doc (λ d,
    Document (nodes d) (animations d) (hostLog d ++ [c])%list)).

(** ** Element builder *)

(** [animate(element, keyframes, options)]; [None] is [null]. *)
Definition animate (element : option nid) (k : option keyframes)
    (options : gmap string token) : M (option nat) :=
  match element, k with
  | Some el, Some frames =>
      a ← element_animate el frames
             (options ∪ list_to_map [("duration", TNum "200");
                                     ("easing", TStr "ease-in-out");
                                     ("fill", TStr "forwards")]);
      mret (Some a)
  | _, _ => mret None
  end.

Definition duration200 : gmap string token := {[ "duration" := TNum "200" ]}.

Definition fadeIn : keyframes := [[("opacity", "0")]; [("opacity", "1")]].
Definition fadeOut : keyframes := [[("opacity", "1")]; [("opacity", "0")]].
Definition scaleIn : keyframes :=
  [[("transform", "scale(0.9)"); ("opacity", "0")];
   [("transform", "scale(1)"); ("opacity", "1")]].
Definition scaleOut : keyframes :=
  [[("transform", "scale(1)"); ("opacity", "1")];
   [("transform", "scale(0.9)"); ("opacity", "0")]].

(** The body of [Modal]'s [cleanup]. *)
Definition cleanup (overlay modalElement : nid) : M () :=
  s ← get_state;
  match parent_of s overlay with
  | Some _ =>
      overlayAnim ← animate (Some overlay) (Some fadeOut) duration200;
      modalAnim ← animate (Some modalElement) (Some scaleOut) duration200;
      match overlayAnim with
      | Some a => set_onfinish a (OnFinish overlay)
      | None => throw
      end
  | None => mret ()
  end.

(** The body of the [onfinish] handler [cleanup] installs. *)
Definition on_finish (overlay : nid) : M () :=
  s ← get_state;
  match parent_of s overlay with
  | Some p => removeChild p overlay
  | None => mret ()
  end.

(** Calling a function value.  A host callback is recorded; the
    overlay-click closure is only ever registered as a listener, so it
    reads [e.target] of an event (of nothing, a [TypeError]). *)
Fixpoint call (f : fn) (a : call_arg) : M () :=
  match f with
  | Host tag => log_host (Called tag a)
  | HandleOverlayClick onClose =>
      match a with
      | WithEvent t c =>
          if bool_decide (t = c) && truthy onClose then
            match onClose with
            | VFun g => call g NoArgs
            | _ => throw
            end
          else mret ()
      | _ => throw
      end
  | Cleanup overlay modalElement => cleanup overlay modalElement
  | OnFinish overlay => on_finish overlay
  end.

Definition is_function (v : jsval) : option fn :=
  match v with
  | VFun f => Some f
  | _ => None
  end.

(** One round of [Object.entries(rest).forEach(...)]. *)
Definition apply_rest (element : nid) (kv : string * jsval) : M () :=
  let '(key, value) := kv in
  match is_function value with
  | Some f =>
      if Js.startsWith "on" key then
        addEventListener element
          (Js.toLowerCase (substring 2 (String.length key - 2) key)) f
      else if bool_decide (key = "ref") then call f (WithNode element)
      else set_property element key value
  | None => set_property element key value
  end.

(** One round of [children.forEach(...)]; appending what is neither a
    string nor a node is a [TypeError] of the render surface. *)
Definition append_entry (element : nid) (c : jsval) : M () :=
  if truthy c then
    match c with
    | VStr s => appendChild element (CText s)
    | VNode n => appendChild element (CElem n)
    | _ => throw
    end
  else mret ().

Definition nonempty (o : option string) : list string :=
  match o with
  | Some s => if bool_decide (s = "") then [] else [s]
  | None => []
  end.

(** [createElement(tag, props)] *)
Definition createElement (tag : string) (props : Props.t) : M nid :=
  element ← document_createElement tag;
  match Props.cssStyles props with
  | Truthy d =>
      generatedClass ← css d;
      classList_add element generatedClass
  | _ => mret ()
  end;;
  match Props.className props with
  | Truthy (ClassArray l) =>
      set_className element (Js.join " " (l ≫= nonempty))
  | Truthy (ClassString c) =>
      if bool_decide (c = "") then mret () else set_className element c
  | _ => mret ()
  end;;
  match Props.style props with
  | Truthy st => assign_style element st
  | _ => mret ()
  end;;
  match Props.dataset props with
  | Truthy data => assign_dataset element data
  | _ => mret ()
  end;;
  forEach (apply_rest element) (Props.rest props);;
  (let children := Props.children props in
   if truthy children then
     match children with
     | VArr items => forEach (append_entry element) items
     | VStr text => set_textContent element text
     | VNode n => appendChild element (CElem n)
     | _ => throw
     end
   else mret ());;
  mret element.

(** ** The modal component *)

(** A token used as a style value.  [css] renders it with a template
    literal, except [null], of which it takes [Object.entries], a
    [TypeError]. *)
Definition raw (v : token) : option style_value :=
  match v with
  | TNull => None
  | _ => Some (Leaf (token_text v))
  end.

Definition overlayStyles : styles :=
  Dynamic (λ theme,
    Some [("position", Leaf "fixed"); ("top", Leaf "0"); ("left", Leaf "0");
          ("right", Leaf "0"); ("bottom", Leaf "0");
          ("backgroundColor", Leaf "rgba(0, 0, 0, 0.5)");
          ("display", Leaf "flex"); ("alignItems", Leaf "center");
          ("justifyContent", Leaf "center"); ("zIndex", Leaf "1000")]).

Definition sizeMap (size : string) : mapping :=
  if bool_decide (size = "small") then [("width", Leaf "300px")]
  else if bool_decide (size = "medium") then [("width", Leaf "500px")]
  else if bool_decide (size = "large") then [("width", Leaf "800px")]
  else if bool_decide (size = "fullscreen")
       then [("width", Leaf "95vw"); ("height", Leaf "95vh")]
  else [].

Definition getModalStyles (size : string) : styles :=
  Dynamic (λ theme,
    background ← theme "colors" "background" ≫= raw;
    radius ← theme "borderRadius" "md" ≫= raw;
    shadow ← theme "shadows" "lg" ≫= raw;
    Some ([("backgroundColor", background); ("borderRadius", radius);
           ("boxShadow", shadow); ("display", Leaf "flex");
           ("flexDirection", Leaf "column"); ("maxHeight", Leaf "90vh");
           ("overflow", Leaf "hidden"); ("position", Leaf "relative");
           ("zIndex", Leaf "1001")] ++ sizeMap size)%list).

Definition modalHeaderStyles : styles :=
  Dynamic (λ theme,
    padding ← theme "spacing" "md" ≫= raw;
    border ← theme "colors" "border";
    Some [("display", Leaf "flex"); ("justifyContent", Leaf "space-between");
          ("alignItems", Leaf "center"); ("padding", padding);
          ("borderBottom", Leaf ("1px solid " +:+ token_text border))]).

Definition modalTitleStyles : styles :=
  Dynamic (λ _,
    Some [("margin", Leaf "0"); ("fontWeight", Leaf "bold");
          ("fontSize", Leaf "1.25rem")]).

Definition closeButtonStyles : styles :=
  Dynamic (λ theme,
    secondary ← theme "colors" "secondary" ≫= raw;
    dark ← theme "colors" "dark";
    Some [("background", Leaf "none"); ("border", Leaf "none");
          ("cursor", Leaf "pointer"); ("fontSize", Leaf "1.5rem");
          ("lineHeight", Leaf "1"); ("padding", Leaf "0");
          ("color", secondary);
          ("&:hover", Block [("color", token_text dark)])]).

Definition modalContentStyles : styles :=
  Dynamic (λ theme,
    padding ← theme "spacing" "md" ≫= raw;
    Some [("flex", Leaf "1 1 auto"); ("padding", padding);
          ("overflowY", Leaf "auto")]).

Definition modalFooterStyles : styles :=
  Dynamic (λ theme,
    padding ← theme "spacing" "md" ≫= raw;
    border ← theme "colors" "border";
    gap ← theme "spacing" "sm" ≫= raw;
    Some [("padding", padding);
          ("borderTop", Leaf ("1px solid " +:+ token_text border));
          ("display", Leaf "flex"); ("justifyContent", Leaf "flex-end");
          ("gap", gap)]).

Definition styled (d : styles) (children : jsval) (rest : list (string * jsval))
  : Props.t :=
  Props.Make Absent Absent children Absent (Truthy d) rest.

(** The label of the dismiss button, as the source file spells it. *)
Definition closeLabel : string := "Ã—".

(** [Modal(props)]: [VNull] when not open, else the modal element. *)
Definition Modal (props : ModalProps.t) : M jsval :=
  let title := ModalProps.title props in
  let footer := ModalProps.footer props in
  let onClose := ModalProps.onClose props in
  let rest := ModalProps.rest props in
  if negb (truthy (ModalProps.isOpen props)) then mret VNull else
  closeButton ← createElement "button"
    (styled closeButtonStyles (VStr closeLabel)
       [("onClick", onClose); ("ariaLabel", VStr "Close")]);
  modalTitle ← createElement "h3" (styled modalTitleStyles title []);
  modalHeader ←
    (if truthy title then
       h ← createElement "div"
         (styled modalHeaderStyles
            (VArr [VNode modalTitle; VNode closeButton]) []);
       mret (VNode h)
     else mret VNull);
  modalContent ← createElement "div"
    (styled modalContentStyles
       (or_else (ModalProps.content props) (ModalProps.children props)) []);
  modalFooter ←
    (if truthy footer then
       f ← createElement "div" (styled modalFooterStyles footer []);
       mret (VNode f)
     else mret VNull);
  modalElement ← createElement "div"
    (Props.Make (Props.className rest) (Props.style rest)
       (VArr (filter (λ v, truthy v = true)
                [modalHeader; VNode modalContent; modalFooter]))
       (Props.dataset rest)
       (override
          (Truthy (getModalStyles (default "medium" (ModalProps.size props))))
          (Props.cssStyles rest))
       (Props.rest rest));
  overlay ← createElement "div"
    (styled overlayStyles (VNode modalElement)
       [("onClick", VFun (HandleOverlayClick onClose))]);
  appendChild body (CElem overlay);;
  animate (Some overlay) (Some fadeIn) duration200;;
  animate (Some modalElement) (Some scaleIn) duration200;;
  set_property modalElement "cleanup" (VFun (Cleanup overlay modalElement));;
  addEventListener closeButton "click" (Cleanup overlay modalElement);;
  mret (VNode modalElement).

(** ** What happens around the library *)

(** The completion notification of animation [a]: it fires once, and runs
    the [onfinish] handler if there is one. *)
Definition finish (a : nat) : M () :=
  s ← get_state;
  match animations (doc s) !! a with
  | Some x =>
      if finished x then mret ()
      else
        modify (with_doc (λ d,
          Document (nodes d)
            (alter (λ x, Animation (target x) (frames x) (timing x)
                           (onfinish x) true) a (animations d))
            (hostLog d)));;
        match onfinish x with
        | Some f => call f NoArgs
        | None => mret ()
        end
  | None => mret ()
  end.

(** The node [n] and its ancestors, nearest first. *)
Fixpoint path (fuel : nat) (s : runtime) (n : nid) : list nid :=
  match fuel with
  | 0 => []
  | S fuel' =>
      n :: match parent_of s n with
           | Some p => path fuel' s p
           | None => []
           end
  end.

Definition event_path (s : runtime) (n : nid) : list nid :=
  path (size (nodes (doc s))) s n.

(** A node is in the document when its ancestors lead to [body]. *)
Definition connected (s : runtime) (n : nid) : Prop :=
  last (event_path s n) = Some body.

(** An exception in a listener does not stop the dispatch. *)
Definition attempt (m : M ()) : M () := λ s, (Some (), (m s).2).

(** The listeners of [current] for a click, as registered when the
    dispatch reaches it. *)
Definition deliver_click (t current : nid) : M () :=
  s ← get_state;
  forEach (λ l, if bool_decide (l.1 = "click")
                then attempt (call l.2 (WithEvent t current))
                else mret ())
    (default [] (listeners <$> node_at s current)).

(** A click on the node [t]: the event bubbles along the path computed
    when it is dispatched. *)
Definition click (t : nid) : M () :=
  s ← get_state;
  forEach (deliver_click t) (event_path s t).

(** The host calls the function it finds at [node[key]]. *)
Definition call_property (n : nid) (key : string) : M () :=
  s ← get_state;
  match node_at s n ≫= λ e, properties e !! key with
  | Some (VFun f) => call f NoArgs
  | _ => throw
  end.

(** ** The state of the library once the module is loaded *)

Definition boot_on (p : platform) : runtime :=
  Runtime
    (ThemeStore defaultObjects {[ 1%positive := defaultTheme ]} 1%positive)
    (StyleEngine None ∅ 0)
    (Document {[ body := blank "body" ]} [] [])
    p.

Definition initial_on (p : platform) : runtime := (initStyles (boot_on p)).2.

(** A surface for the examples.  It takes a rule whose block closes at
    the end of the text and not before (quoted text and comments being
    read like any other), a name that starts with a letter and holds no
    white space, [/] or [>], and a key without a hyphen before a small
    letter. *)
Fixpoint closes_at_end (depth : nat) (s : string) : bool :=
  match s with
  | "" => negb (bool_decide (depth = 0%nat))
  | String c r =>
      if bool_decide (c = "{"%char) then closes_at_end (S depth) r
      else if bool_decide (c = "}"%char) then
        match depth with
        | 0%nat => false
        | 1%nat => forallb is_space (list_ascii_of_string r)
        | S d => closes_at_end d r
        end
      else closes_at_end depth r
  end.

Definition is_letter (c : ascii) : bool :=
  let n := N_of_ascii c in
  ((65 <=? n) && (n <=? 90) || (97 <=? n) && (n <=? 122))%N.

Definition name_like (tag : string) : bool :=
  match tag with
  | "" => false
  | String c r =>
      is_letter c
      && forallb (λ x, negb (is_space x)
                       && negb (bool_decide (x ∈ ["/"%char; ">"%char;
                                                  ascii_of_nat 0])))
           (list_ascii_of_string r)
  end.

Fixpoint data_key_like (key : string) : bool :=
  match key with
  | "" => true
  | String c r =>
      match r with
      | String d _ =>
          negb (bool_decide (c = "-"%char)
                && (97 <=? N_of_ascii d)%N && (N_of_ascii d <=? 122)%N)
          && data_key_like r
      | "" => true
      end
  end.

Definition reference : platform :=
  Platform (λ rule, closes_at_end 0 (after_space rule)) name_like
    data_key_like.

Definition boot : runtime := boot_on reference.

Definition initial : runtime := initial_on reference.

(** ** Runs of the library *)

(** The host evaluates an object literal. *)
Definition host_object (o : category) : M loc := λ s,
  let '(l, st) := new_category o (store s) in
  (Some l, Runtime st (engine s) (doc s) (surface s)).

Definition host_theme (o : theme) : M loc := λ s,
  let '(t, st) := new_theme o (store s) in
  (Some t, Runtime st (engine s) (doc s) (surface s)).

(** What can happen to a loaded library: the host calls its public
    functions, changes the theme objects it holds, and the render surface
    delivers clicks and completion notifications. *)
Inductive action :=
| DoCss (d : styles)
| DoCreateElement (tag : string) (props : Props.t)
| DoAnimate (element : option nid) (k : option keyframes)
    (options : gmap string token)
| DoModal (props : ModalProps.t)
| DoSetTheme (newTheme : loc)
| DoGetTheme
| DoResetTheme
| HostObject (o : category)
| HostTheme (o : theme)
| HostSetToken (l : loc) (k : string) (v : token)
| HostSetCategory (t : loc) (c : string) (l : loc)
| Click (t : nid)
| Finish (a : nat)
| CallProperty (n : nid) (key : string).

Definition perform (a : action) : M () :=
  match a with
  | DoCss d => css d;; mret ()
  | DoCreateElement tag props => createElement tag props;; mret ()
  | DoAnimate element k options => animate element k options;; mret ()
  | DoModal props => Modal props;; mret ()
  | DoSetTheme newTheme => setTheme newTheme;; mret ()
  | DoGetTheme => getTheme;; mret ()
  | DoResetTheme => resetTheme;; mret ()
  | HostObject o => host_object o;; mret ()
  | HostTheme o => host_theme o;; mret ()
  | HostSetToken l k v => host_set_token l k v
  | HostSetCategory t c l => host_set_category t c l
  | Click t => click t
  | Finish a => finish a
  | CallProperty n key => call_property n key
  end.

(** The state after a run; an exception ends the action it occurs in, not
    the run. *)
Definition run (l : list action) (s : runtime) : runtime :=
  foldl (λ s a, (perform a s).2) s l.

(** The states of a run, on any surface. *)
Inductive reachable : runtime → Prop :=
| reachable_initial p : reachable (initial_on p)
| reachable_perform s a : reachable s → reachable (perform a s).2.

(** The class names [css] mints. *)
Definition zenStyle (k : N) : string := "zen-style-" +:+ pretty k.

(** Several [css] calls in a row. *)
Fixpoint css_all (ds : list styles) : M (list string) :=
  match ds with
  | [] => mret []
  | d :: r => c ← css d; cs ← css_all r; mret (c :: cs)
  end.

(** The rules of the stylesheet whose body is [text]. *)
Definition rules_for (text : string) (s : runtime) : list string :=
  filter (λ r, rule_body r = text) (cssRules s).

(** ** The life of one modal *)

(** What can happen to an attached modal: a close request (a call of its
    [cleanup], by the dismiss button or by the host), or the completion
    notification of an animation. *)
Inductive modal_event :=
| CloseRequest
| Completion (a : nat).

Definition modal_step (overlay modalElement : nid) (e : modal_event)
  : M () :=
  match e with
  | CloseRequest => call (Cleanup overlay modalElement) NoArgs
  | Completion a => finish a
  end.

Definition attached (s : runtime) (overlay : nid) : bool :=
  bool_decide (is_Some (parent_of s overlay)).

(** The events of a run at which the overlay goes from attached to
    detached. *)
Fixpoint detachments (overlay modalElement : nid) (l : list modal_event)
    (s : runtime) : list modal_event :=
  match l with
  | [] => []
  | e :: r =>
      let s' := (modal_step overlay modalElement e s).2 in
      (if attached s overlay && negb (attached s' overlay) then [e] else [])
      ++ detachments overlay modalElement r s'
  end%list.

Definition modal_run (overlay modalElement : nid) (l : list modal_event)
    (s : runtime) : runtime :=
  foldl (λ s e, (modal_step overlay modalElement e s).2) s l.

(** The exit animations running on [overlay]. *)
Definition exit_animations (s : runtime) (overlay : nid) : list animation :=
  filter (λ x, target x = overlay ∧ frames x = fadeOut)
    (animations (doc s)).

(** ** Well-formed documents and host values *)

(** A function that does nothing to the document but being recorded: a
    host callback, or an overlay-click closure around one. *)
Fixpoint quiet (f : fn) : Prop :=
  match f with
  | Host _ => True
  | HandleOverlayClick v =>
      match v with
      | VFun g => quiet g
      | _ => True
      end
  | Cleanup _ _ => False
  | OnFinish _ => False
  end.

(** A value the host can pass in a state whose nodes are [D]: its
    functions are host callbacks and its nodes exist. *)
Inductive host_value (D : gset nid) : jsval → Prop :=
| host_undefined : host_value D VUndefined
| host_null : host_value D VNull
| host_bool b : host_value D (VBool b)
| host_num r : host_value D (VNum r)
| host_str s : host_value D (VStr s)
| host_fun tag : host_value D (VFun (Host tag))
| host_node n : n ∈ D → host_value D (VNode n)
| host_arr l : Forall (host_value D) l → host_value D (VArr l).

Definition host_props (D : gset nid) (p : ModalProps.t) : Prop :=
  host_value D (ModalProps.title p) ∧
  host_value D (ModalProps.content p) ∧
  host_value D (ModalProps.footer p) ∧
  host_value D (ModalProps.onClose p) ∧
  host_value D (ModalProps.children p) ∧
  Forall (λ kv, host_value D kv.2) (Props.rest (ModalProps.rest p)).

(** A document in which no library closure is registered: [body] exists,
    every listener is quiet, and parents are nodes of the document. *)
Definition plain_document (s : runtime) : Prop :=
  body ∈ dom (nodes (doc s)) ∧
  ∀ x e, nodes (doc s) !! x = Some e →
    Forall (λ l, quiet l.2) (listeners e) ∧
    ∀ q, parentNode e = Some q → q ∈ dom (nodes (doc s)).

(** ** Inputs used below *)

Definition displayFlex : styles := Static [("display", Leaf "flex")].
Definition displayBlock : styles := Static [("display", Leaf "block")].
Definition colorRed : styles := Static [("color", Leaf "red")].

Definition styledAndNamed : Props.t :=
  Props.Make (Truthy (ClassString "foo")) Absent VUndefined Absent
    (Truthy colorRed) [].

Definition openModal (onClose : jsval) : ModalProps.t :=
  ModalProps.Make VUndefined (VStr "hello") VUndefined (VBool true) onClose
    None VUndefined Props.empty.

Definition titledModal (onClose : jsval) : ModalProps.t :=
  ModalProps.Make (VStr "Title") (VStr "hello") VUndefined (VBool true) onClose
    None VUndefined Props.empty.

(** ** Notions used in the statements and in the proofs *)

(** The state in which [css] leaves the engine when it mints a class for
    [text]. *)
Definition minted (text : string) (s : runtime) : runtime :=
  Runtime (store s)
    (StyleEngine
       (Some (cssRules s ++ [ruleText (zenStyle (uniqueId (engine s))) text])%list)
       (<[hash text := zenStyle (uniqueId (engine s))]> (styleCache (engine s)))
       (uniqueId (engine s) + 1)%N)
    (doc s) (surface s).

(** The state in which [css] leaves the engine when the surface rejects
    the rule of the class it has minted for [text]: the class is cached
    and the counter has advanced, and there is no rule. *)
Definition rejected (text : string) (s : runtime) : runtime :=
  Runtime (store s)
    (StyleEngine (Some (cssRules s))
       (<[hash text := zenStyle (uniqueId (engine s))]> (styleCache (engine s)))
       (uniqueId (engine s) + 1)%N)
    (doc s) (surface s).

(** The state in which [initStyles] leaves the engine. *)
Definition started (s : runtime) : runtime :=
  Runtime (store s)
    (StyleEngine (Some (cssRules s)) (styleCache (engine s))
       (uniqueId (engine s)))
    (doc s) (surface s).

(** Whether the surface takes the rule [css] would make for [text] in the
    state [s]. *)
Definition accepts (s : runtime) (text : string) : bool :=
  parsesRule (surface s) (ruleText (zenStyle (uniqueId (engine s))) text).

(** From a state in [P], [m] returns [a] in a state in [Q a], or throws in
    a state in [R]. *)
Definition ensures {A} (P : runtime → Prop) (m : M A)
    (Q : A → runtime → Prop) (R : runtime → Prop) : Prop :=
  ∀ s, P s →
    match m s with
    | (Some a, s') => Q a s'
    | (None, s') => R s'
    end.

(** [m] keeps the invariant [P], whether it returns or throws. *)
Definition keeps {A} (P : runtime → Prop) (m : M A) : Prop :=
  ensures P m (λ _, P) P.

(** Every cached class was minted by the counter, no class is cached for
    two hashes, and the rules of the stylesheet are for distinct classes
    minted by the counter. *)
Definition engine_ok (e : style_engine) : Prop :=
  (∀ h c, styleCache e !! h = Some c →
     ∃ k, (k < uniqueId e)%N ∧ c = zenStyle k) ∧
  (∀ h1 h2 c, styleCache e !! h1 = Some c → styleCache e !! h2 = Some c →
     h1 = h2) ∧
  ∃ ks, rule_class <$> default [] (styleSheet e) = zenStyle <$> ks ∧
        NoDup ks ∧ Forall (λ k, (k < uniqueId e)%N) ks.

Definition set_children (v : jsval) (p : Props.t) : Props.t :=
  Props.Make (Props.className p) (Props.style p) v (Props.dataset p)
    (Props.cssStyles p) (Props.rest p).

(** The builder, up to its last step. *)
Definition build (tag : string) (props : Props.t) : M nid :=
  createElement tag (set_children VUndefined props).

Definition exitTiming : gmap string token :=
  duration200 ∪ list_to_map [("duration", TNum "200");
                             ("easing", TStr "ease-in-out");
                             ("fill", TStr "forwards")].

(** The state after a close request that found the overlay attached. *)
Definition closing (overlay modalElement : nid) (s : runtime) : runtime :=
  with_doc (λ d,
    Document (nodes d)
      (animations d ++
         [Animation overlay fadeOut exitTiming (Some (OnFinish overlay)) false;
          Animation modalElement scaleOut exitTiming None false])%list
      (hostLog d)) s.

(** The overlay has no parent. *)
Definition detached (overlay : nid) (s : runtime) : Prop :=
  parent_of s overlay = None.

(** The exit animation [a] of the overlay has not completed. *)
Definition pending (overlay : nid) (a : nat) (s : runtime) : Prop :=
  ∃ x, animations (doc s) !! a = Some x ∧
       onfinish x = Some (OnFinish overlay) ∧ finished x = false.

(** The nodes [B] are sealed off: they have no parent and are nobody's
    parent, and every listener registered on another node is quiet. *)
Definition sealed (B : gset nid) (s : runtime) : Prop :=
  body ∈ dom (nodes (doc s)) ∧ body ∉ B ∧
  (∀ x e, nodes (doc s) !! x = Some e → x ∉ B →
     Forall (λ l, quiet l.2) (listeners e)) ∧
  (∀ x e q, nodes (doc s) !! x = Some e → parentNode e = Some q → q ∉ B) ∧
  (∀ b e, b ∈ B → nodes (doc s) !! b = Some e → parentNode e = None).

(** A sealed document with the nodes [D] and the animations [X]. *)
Definition sealed_doc (B : gset nid) (D : gset nid) (X : list animation)
    (s : runtime) : Prop :=
  sealed B s ∧ dom (nodes (doc s)) = D ∧ animations (doc s) = X.

Definition tame (v : jsval) : Prop :=
  match v with
  | VFun f => quiet f
  | _ => True
  end.

Definition avoids (B : gset nid) (v : jsval) : Prop :=
  match v with
  | VNode n => n ∉ B
  | _ => True
  end.

Definition children_avoid (B : gset nid) (v : jsval) : Prop :=
  match v with
  | VNode n => n ∉ B
  | VArr items => Forall (avoids B) items
  | _ => True
  end.

Definition appends (v : jsval) : bool :=
  match v with
  | VNode _ | VArr _ => true
  | _ => false
  end.

(** Nothing but the host log differs between the two states. *)
Definition only_logged (s s' : runtime) : Prop :=
  store s' = store s ∧ engine s' = engine s ∧
  nodes (doc s') = nodes (doc s) ∧ animations (doc s') = animations (doc s).

(** The host changes a token of the category object it finds in the
    theme [getTheme()] returned, then asks for the theme again, and for
    the default theme. *)
Definition mutate_returned_theme : M (loc * loc) :=
  t ← getTheme;
  colors ← host_get_category t "colors";
  host_set_token colors "primary" (TStr "red");;
  t' ← getTheme;
  t'' ← resetTheme;
  mret (t', t'').

Definition hostPartial : M loc :=
  colors ← host_object {[ "primary" := TStr "#000000" ]};
  host_theme {[ "colors" := colors ]}.

(** The props of a node with a style description and a literal class. *)
Definition styledWithClass (d : styles) (c : string) : Props.t :=
  Props.Make (Truthy (ClassString c)) Absent VUndefined Absent (Truthy d) [].

(** Other props that are event handlers only: functions under keys that
    start with [on].  Nothing is assigned to the element, and no function
    is called. *)
Definition only_handlers (rest : list (string * jsval)) : Prop :=
  Forall (λ kv, match kv.2 with
                | VFun _ => Js.startsWith "on" kv.1 = true
                | _ => False
                end) rest.

(** ** Class names *)

(** [Boolean(v)] for a literal. *)
Definition token_truthy (v : token) : bool :=
  match v with
  | TUndefined | TNull => false
  | TBool b => b
  | TNum r => negb (bool_decide (r = "0" ∨ r = "NaN"))
  | TStr s => negb (bool_decide (s = ""))
  end.

(** [mergeClasses(...classes)], the arguments being literals:
    [classes.filter(Boolean).join(' ')]. *)
Definition mergeClasses (classes : list token) : string :=
  Js.join " " (token_text <$> filter (λ v, token_truthy v = true) classes).

(** A string without white space. *)
Definition spaceless (x : string) : Prop :=
  Forall (λ c, is_space c = false) (list_ascii_of_string x).

(** ** Invariants of the stylesheet *)

(** The rules are in the order in which their classes were minted: the
    numbers of their classes go up, stay below the counter, and there are
    no more rules than the counter counts. *)
Definition ascending (ks : list N) : Prop :=
  ∀ i j x y, ks !! i = Some x → ks !! j = Some y → (i < j)%nat → (x < y)%N.

Definition numbered (e : style_engine) : Prop :=
  (N.of_nat (length (default [] (styleSheet e))) ≤ uniqueId e)%N ∧
  ∃ ks, rule_class <$> default [] (styleSheet e) = zenStyle <$> ks ∧
        ascending ks ∧ Forall (λ k, (k < uniqueId e)%N) ks.

(** ** Theme store *)

(** Every theme object and category object of [s] is an object of [s'],
    with the same content. *)
Definition extends (s s' : runtime) : Prop :=
  objects (store s) ⊆ objects (store s') ∧
  themes (store s) ⊆ themes (store s').

(** ** Element builder *)

(** A computation that returns from every state. *)
Definition total {A} (m : M A) : Prop := ∀ s, is_Some (m s).1.

(** Children [createElement] can append: a string, a node, a falsy value,
    or an array of these. *)
Definition renderable (v : jsval) : Prop :=
  match v with
  | VArr items =>
      Forall (λ c, truthy c = true →
                   match c with
                   | VStr _ | VNode _ => True
                   | _ => False
                   end) items
  | VStr _ | VNode _ => True
  | _ => truthy v = false
  end.

(** The style description of the props, if it has one, resolves. *)
Definition resolves (props : Props.t) (s : runtime) : Prop :=
  match Props.cssStyles props with
  | Truthy d => is_Some (processedStyles d s)
  | _ => True
  end.

(** Props the host can pass in the state [s]: the style function returns,
    the functions among the other props are callbacks of the host, the
    nodes are nodes of the document, and the children can be appended. *)
Definition host_element_props (props : Props.t) (s : runtime) : Prop :=
  resolves props s ∧
  Forall (λ kv, host_value (dom (nodes (doc s))) kv.2) (Props.rest props) ∧
  host_value (dom (nodes (doc s))) (Props.children props) ∧
  renderable (Props.children props).

(** The surface takes what [createElement] hands it for the tag and the
    props in the state [s]: the name of the element, the keys of the
    [dataset], and the rule of the class [css] mints when the hash of the
    rule text is not cached. *)
Definition surface_takes (tag : string) (props : Props.t) (s : runtime)
  : Prop :=
  validName (surface s) tag = true ∧
  match Props.dataset props with
  | Truthy data => Forall (λ kv, validDataKey (surface s) kv.1 = true) data
  | _ => True
  end ∧
  match Props.cssStyles props with
  | Truthy d =>
      ∀ m, processedStyles d s = Some m →
           styleCache (engine s) !! hash (cssString m) = None →
           accepts s (cssString m) = true
  | _ => True
  end.

(** Props without inline styles: [Object.assign(element.style, style)]
    is not reached. *)
Definition unstyled (props : Props.t) : Prop :=
  match Props.style props with
  | Truthy _ => False
  | _ => True
  end.

(** The event a handler prop is registered for:
    [key.substring(2).toLowerCase()]. *)
Definition eventName (key : string) : string :=
  Js.toLowerCase (substring 2 (String.length key - 2) key).

(** The listener an entry of the other props stands for: a function under
    a key that starts with [on]. *)
Definition handler (kv : string * jsval) : option (string * fn) :=
  match kv.2 with
  | VFun f => if Js.startsWith "on" kv.1 then Some (eventName kv.1, f) else None
  | _ => None
  end.

(** Whether an entry of the other props is assigned to the element: it is
    unless it is a handler or a [ref] callback. *)
Definition assigned (kv : string * jsval) : bool :=
  match kv.2 with
  | VFun _ => negb (Js.startsWith "on" kv.1) && negb (bool_decide (kv.1 = "ref"))
  | _ => true
  end.

(** The listeners and the properties of an element, and what one entry of
    the other props adds to them. *)
Definition wiring (e : element) : list (string * fn) * gmap string jsval :=
  (listeners e, properties e).

Definition wire (kv : string * jsval)
    (w : list (string * fn) * gmap string jsval)
  : list (string * fn) * gmap string jsval :=
  (w.1 ++ option_list (handler kv),
   if assigned kv then <[kv.1 := kv.2]> w.2 else w.2)%list.

(** The class [css] returns for the style description of the props, the
    empty string when there is none. *)
Definition generatedClass (props : Props.t) (s : runtime) : string :=
  match Props.cssStyles props with
  | Truthy d => default "" (css d s).1
  | _ => ""
  end.

(** The child an entry of a [children] array is appended as. *)
Definition as_child (v : jsval) : option child :=
  match v with
  | VStr t => if bool_decide (t = "") then None else Some (CText t)
  | VNode c => Some (CElem c)
  | _ => None
  end.

(** The children [createElement] gives the node for a [children] value. *)
Definition children_of (v : jsval) : list child :=
  match v with
  | VArr items => omap as_child items
  | VStr t => if bool_decide (t = "") then [] else [CText t]
  | VNode c => [CElem c]
  | _ => []
  end.

(** The nodes among the entries of an array. *)
Definition node_entries (items : list jsval) : list nid :=
  omap (λ v, match v with VNode c => Some c | _ => None end) items.

(** ** Documents in which only the dismiss button closes *)

(** Every listener registered on a node outside [B] is quiet, and no node
    of [B] is a parent. *)
Definition guarded (B : gset nid) (s : runtime) : Prop :=
  body ∈ dom (nodes (doc s)) ∧ body ∉ B ∧
  (∀ x e, nodes (doc s) !! x = Some e → x ∉ B →
     Forall (λ l, quiet l.2) (listeners e)) ∧
  (∀ x e q, nodes (doc s) !! x = Some e → parentNode e = Some q → q ∉ B).

Definition guarded_doc (B : gset nid) (D : gset nid) (X : list animation)
    (s : runtime) : Prop :=
  guarded B s ∧ dom (nodes (doc s)) = D ∧ animations (doc s) = X.

(** The listeners of the dismiss button before [Modal] adds its own. *)
Definition dismissHandlers (onClose : jsval) : list (string * fn) :=
  omap handler [("onClick", onClose); ("ariaLabel", VStr "Close")].

(** ** More inputs *)

Definition labelled : Props.t :=
  Props.Make (Truthy (ClassArray [Some "a"; None; Some "b"])) Absent
    (VArr [VStr "x"; VNull; VNode body]) (Truthy [("kind", "note")])
    (Truthy colorRed) [("onClick", VFun (Host 0))].

Definition wired : Props.t :=
  Props.Make Absent Absent VUndefined Absent Absent
    [("onClick", VFun (Host 0)); ("once", VFun (Host 1));
     ("onMouseOver", VFun (Host 0))].

Definition styledHandler : Props.t :=
  Props.Make Absent Absent VUndefined Absent (Truthy colorRed)
    [("onClick", VFun (Host 0))].

Definition listed : Props.t :=
  Props.Make Absent Absent (VArr [VStr "x"; VNull; VNode body; VStr ""; VStr "y"])
    Absent Absent [("onClick", VFun (Host 0))].

(** A document in which the node [2], a [span], is the child of the node
    [3], a [div]. *)
Definition nested : runtime :=
  (createElement "div"
     (Props.Make Absent Absent (VNode 2%positive) Absent Absent [])
     (createElement "span" Props.empty initial).2).2.

(** A description the surface of the examples takes no rule for. *)
Definition strayBrace : styles := Static [("}", Leaf "x")].

Definition adopting : Props.t :=
  Props.Make Absent Absent (VNode 2%positive) Absent Absent
    [("onClick", VFun (Host 0))].

(** ** Components *)

(** [createComponent(renderFn)]: the component calls [renderFn] with its
    props, with [{}] when it is called without ([None]). *)
Definition createComponent {A B} (empty : A) (renderFn : A → M B)
  : option A → M B :=
  λ props, renderFn (default empty props).

(** ** Style objects *)

(** A value of a style object as a style function builds it, before [css]
    renders it: a literal, or a nested object of literals. *)
Inductive style_entry :=
| Plain (v : token)
| Nested (entries : list (string * token)).

Definition style_object := list (string * style_entry).

(** [{ ...o, k: v }]: a key the object has keeps its place. *)
Fixpoint set_key (k : string) (v : style_entry) (o : style_object)
  : style_object :=
  match o with
  | [] => [(k, v)]
  | kv :: r =>
      if bool_decide (kv.1 = k) then (k, v) :: r else kv :: set_key k v r
  end.

(** [{ ...a, ...b }] *)
Definition spread_style (a b : style_object) : style_object :=
  foldl (λ o kv, set_key kv.1 kv.2 o) a b.

(** The mapping [css] reads off a style object: a nested object is
    rendered entry by entry, [null] is the [TypeError] of [raw]. *)
Definition render_entry (kv : string * style_entry)
  : option (string * style_value) :=
  match kv.2 with
  | Plain v => x ← raw v; Some (kv.1, x)
  | Nested entries =>
      Some (kv.1, Block ((λ e, (e.1, token_text e.2)) <$> entries))
  end.

Definition rendered (o : style_object) : option mapping :=
  mapM render_entry o.

(** ** The button component *)

(** The props of [Button].  [type] and [size] are the keys the values
    given convert to, [None] when they are not given; [children] is the
    [children] entry of the other props, [None] when there is none;
    [rest] is everything else [Button] does not name, sorted as
    [createElement] will sort it (its [children] field is unused). *)
Module ButtonProps.
Record t := Make {
  label : jsval;
  type : option string;
  size : option string;
  onClick : jsval;
  disabled : jsval;
  full : jsval;
  outline : jsval;
  icon : jsval;
  children : option jsval;
  rest : Props.t
}.
Definition empty : t :=
  Make VUndefined None None VUndefined VUndefined VUndefined VUndefined
    VUndefined None Props.empty.
End ButtonProps.

(** [const { k = d } = props]: the default stands in for [undefined]. *)
Definition or_default (d v : jsval) : jsval :=
  match v with
  | VUndefined => d
  | _ => v
  end.

Definition buttonBase (radius fontFamily transition : token) : style_object :=
  [("display", Plain (TStr "inline-flex"));
   ("alignItems", Plain (TStr "center"));
   ("justifyContent", Plain (TStr "center"));
   ("gap", Plain (TStr "0.5rem"));
   ("border", Plain (TStr "none"));
   ("borderRadius", Plain radius);
   ("fontFamily", Plain fontFamily);
   ("fontWeight", Plain (TStr "500"));
   ("cursor", Plain (TStr "pointer"));
   ("transition", Plain transition)].

(** [sizeMap[size]], an unknown size giving [undefined], which spreads to
    nothing. *)
Definition buttonSize (xs sm md lg : token) (size : string) : style_object :=
  if bool_decide (size = "small") then
    [("padding", Plain (TStr (token_text xs +:+ " " +:+ token_text sm)));
     ("fontSize", Plain (TStr "0.875rem"))]
  else if bool_decide (size = "medium") then
    [("padding", Plain (TStr (token_text sm +:+ " " +:+ token_text md)));
     ("fontSize", Plain (TStr "1rem"))]
  else if bool_decide (size = "large") then
    [("padding", Plain (TStr (token_text md +:+ " " +:+ token_text lg)));
     ("fontSize", Plain (TStr "1.125rem"))]
  else [].

Definition filled (background color : token) (hover : string) : style_object :=
  [("backgroundColor", Plain background); ("color", Plain color);
   ("&:hover", Nested [("backgroundColor", TStr hover)])].

(** [typeStyles[type]] *)
Definition buttonType (light dark primary secondary success danger : token)
    (type : string) : style_object :=
  if bool_decide (type = "default") then filled light dark "#e2e6ea"
  else if bool_decide (type = "primary")
       then filled primary (TStr "white") "#3a59c7"
  else if bool_decide (type = "secondary")
       then filled secondary (TStr "white") "#5a6268"
  else if bool_decide (type = "success")
       then filled success (TStr "white") "#218838"
  else if bool_decide (type = "danger")
       then filled danger (TStr "white") "#c82333"
  else [].

Definition buttonOutline (typeColor : token) : style_object :=
  [("backgroundColor", Plain (TStr "transparent"));
   ("border", Plain (TStr ("1px solid " +:+ token_text typeColor)));
   ("color", Plain typeColor);
   ("&:hover", Nested [("backgroundColor", typeColor);
                       ("color", TStr "white")])].

Definition buttonDisabled (typeColor : token) : style_object :=
  [("opacity", Plain (TStr "0.65"));
   ("cursor", Plain (TStr "not-allowed"));
   ("&:hover", Nested [("backgroundColor", typeColor)])].

(** The object [getTypeStyles(theme)] returns.  The tokens are read when
    the object literals are evaluated, whichever entry is used later, and
    [theme.colors[type]] only for an outline or a disabled button;
    reading a token of a category the theme does not have throws.  [type]
    and [size] are taken not to name a property every object inherits
    ([toString], [constructor], ...), for which [theme.colors[type]] is
    not a token. *)
Definition buttonStyleObject (type size : string)
    (outline full disabled : bool) (theme : theme_reader)
  : option style_object :=
  radius ← theme "borderRadius" "md";
  fontFamily ← theme "typography" "fontFamily";
  transition ← theme "transitions" "default";
  xs ← theme "spacing" "xs";
  sm ← theme "spacing" "sm";
  md ← theme "spacing" "md";
  lg ← theme "spacing" "lg";
  light ← theme "colors" "light";
  dark ← theme "colors" "dark";
  primary ← theme "colors" "primary";
  secondary ← theme "colors" "secondary";
  success ← theme "colors" "success";
  danger ← theme "colors" "danger";
  outlineStyles ←
    (if outline then buttonOutline <$> theme "colors" type else Some []);
  disabledStyles ←
    (if disabled then buttonDisabled <$> theme "colors" type else Some []);
  Some
    (spread_style
       (spread_style
          (spread_style
             (spread_style
                (spread_style (buttonBase radius fontFamily transition)
                   (buttonSize xs sm md lg size))
                (buttonType light dark primary secondary success danger type))
             outlineStyles)
          (if full then [("width", Plain (TStr "100%"))] else []))
       disabledStyles).

Definition getTypeStyles (type size : string) (outline full disabled : bool)
  : styles :=
  Dynamic (λ theme,
    buttonStyleObject type size outline full disabled theme ≫= rendered).

(** Whether a key is an array index: the decimal text, without leading
    zeros, of a number below [2^32 - 1].  [Object.entries] lists these
    keys first. *)
Definition digit_value (c : ascii) : option N :=
  let n := N_of_ascii c in
  if ((48 <=? n) && (n <=? 57))%N then Some (n - 48)%N else None.

Fixpoint parse_digits (acc : N) (s : string) : option N :=
  match s with
  | "" => Some acc
  | String c r => d ← digit_value c; parse_digits (acc * 10 + d)%N r
  end.

Definition is_index (k : string) : bool :=
  match k with
  | "" => false
  | String c r =>
      match parse_digits 0 k with
      | Some n =>
          (negb (bool_decide (c = "0"%char)) || bool_decide (r = ""))
          && (n <? 4294967295)%N
      | None => false
      end
  end.

(** The props [Button] passes to [createElement]:
    [{ cssStyles: getTypeStyles, disabled, onClick, children: [icon, label],
       ...rest }]. *)
Definition buttonElementProps (props : ButtonProps.t) : Props.t :=
  let type := default "default" (ButtonProps.type props) in
  let size := default "medium" (ButtonProps.size props) in
  let disabled := or_default (VBool false) (ButtonProps.disabled props) in
  let full := or_default (VBool false) (ButtonProps.full props) in
  let outline := or_default (VBool false) (ButtonProps.outline props) in
  let icon := or_default VNull (ButtonProps.icon props) in
  let rest := ButtonProps.rest props in
  Props.Make (Props.className rest) (Props.style rest)
    (default (VArr [icon; ButtonProps.label props])
       (ButtonProps.children props))
    (Props.dataset rest)
    (override
       (Truthy (getTypeStyles type size (truthy outline) (truthy full)
                  (truthy disabled)))
       (Props.cssStyles rest))
    (filter (λ kv, is_index kv.1 = true) (Props.rest rest)
     ++ [("disabled", disabled); ("onClick", ButtonProps.onClick props)]
     ++ filter (λ kv, is_index kv.1 = false) (Props.rest rest))%list.

Definition renderButton (props : ButtonProps.t) : M nid :=
  createElement "button" (buttonElementProps props).

(** [Button] *)
Definition Button : option ButtonProps.t → M nid :=
  createComponent ButtonProps.empty renderButton.

(** A button with a click handler and one more handler among its other
    props. *)
Definition clickButton : ButtonProps.t :=
  ButtonProps.Make (VStr "Test") None None (VFun (Host 0)) VUndefined
    VUndefined VUndefined VUndefined None
    (Props.Make Absent Absent VUndefined Absent Absent
       [("onFocus", VFun (Host 1))]).

(** ** The card component *)

(** The props of [Card]; [rest] is everything [Card] does not name, sorted
    as [createElement] will sort it (its [children] field is unused:
    [Card] names [children]). *)
Module CardProps.
Record t := Make {
  title : jsval;
  content : jsval;
  footer : jsval;
  elevated : jsval;
  children : jsval;
  rest : Props.t
}.
Definition empty : t :=
  Make VUndefined VUndefined VUndefined VUndefined VUndefined Props.empty.
End CardProps.









(** [cond ? createElement(tag, props) : null] *)
Definition element_if (cond : bool) (tag : string) (props : Props.t)
  : M jsval :=
  if cond then n ← createElement tag props; mret (VNode n) else mret VNull.




(** ** The input component *)

(** The props of [Input]; [rest] is everything [Input] does not name,
    [children] included, sorted as [createElement] will sort it. *)
Module InputProps.
Record t := Make {
  type : jsval;
  placeholder : jsval;
  value : jsval;
  onChange : jsval;
  label : jsval;
  error : jsval;
  success : jsval;
  disabled : jsval;
  rest : Props.t
}.
Definition empty : t :=
  Make VUndefined VUndefined VUndefined VUndefined VUndefined VUndefined
    VUndefined VUndefined Props.empty.
End InputProps.

Definition inputWrapperStyles : styles :=
  Dynamic (λ theme,
    marginBottom ← theme "spacing" "md";
    rendered
      [("display", Plain (TStr "flex"));
       ("flexDirection", Plain (TStr "column"));
       ("marginBottom", Plain marginBottom)]).

Definition labelStyles : styles :=
  Dynamic (λ theme,
    marginBottom ← theme "spacing" "xs";
    rendered
      [("marginBottom", Plain marginBottom);
       ("fontSize", Plain (TStr "0.875rem"));
       ("fontWeight", Plain (TStr "500"))]).

Definition inputBase (sm md text background border radius transition primary
    : token) : style_object :=
  [("display", Plain (TStr "block"));
   ("width", Plain (TStr "100%"));
   ("padding", Plain (TStr (token_text sm +:+ " " +:+ token_text md)));
   ("fontSize", Plain (TStr "1rem"));
   ("lineHeight", Plain (TStr "1.5"));
   ("color", Plain text);
   ("backgroundColor", Plain background);
   ("border", Plain (TStr ("1px solid " +:+ token_text border)));
   ("borderRadius", Plain radius);
   ("transition", Plain transition);
   ("&:focus", Nested [("outline", TStr "none");
                       ("borderColor", primary);
                       ("boxShadow",
                        TStr "0 0 0 0.2rem rgba(74, 108, 247, 0.25)")])].

Definition inputState (borderColor : token) (shadow : string) : style_object :=
  [("borderColor", Plain borderColor);
   ("&:focus", Nested [("boxShadow", TStr shadow)])].

Definition inputDisabled (light : token) : style_object :=
  [("backgroundColor", Plain light);
   ("opacity", Plain (TStr "0.65"));
   ("cursor", Plain (TStr "not-allowed"))].

(** The object [getInputStyles(theme)] returns:
    [{ ...baseStyles, ...stateStyles }], [stateStyles] being filled by
    assignments, for an error or else a success first, then for a
    disabled input. *)
Definition inputStyleObject (error success disabled : bool)
    (theme : theme_reader) : option style_object :=
  sm ← theme "spacing" "sm";
  md ← theme "spacing" "md";
  text ← theme "colors" "text";
  background ← theme "colors" "background";
  border ← theme "colors" "border";
  radius ← theme "borderRadius" "md";
  transition ← theme "transitions" "default";
  primary ← theme "colors" "primary";
  state ←
    (if error
     then danger ← theme "colors" "danger";
          Some (inputState danger "0 0 0 0.2rem rgba(220, 53, 69, 0.25)")
     else if success
     then ok ← theme "colors" "success";
          Some (inputState ok "0 0 0 0.2rem rgba(40, 167, 69, 0.25)")
     else Some []);
  stateStyles ←
    (if disabled
     then light ← theme "colors" "light";
          Some (spread_style state (inputDisabled light))
     else Some state);
  Some (spread_style
          (inputBase sm md text background border radius transition primary)
          stateStyles).

Definition getInputStyles (error success disabled : bool) : styles :=
  Dynamic (λ theme,
    inputStyleObject error success disabled theme ≫= rendered).

Definition feedbackStyles (error success : bool) : styles :=
  Dynamic (λ theme,
    marginTop ← theme "spacing" "xs";
    color ←
      (if error then theme "colors" "danger"
       else if success then theme "colors" "success"
       else Some (TStr "transparent"));
    rendered
      [("marginTop", Plain marginTop);
       ("fontSize", Plain (TStr "0.875rem"));
       ("color", Plain color)]).

Definition inputLabelProps (props : InputProps.t) : Props.t :=
  styled labelStyles (InputProps.label props) [].

(** [{ type, value, placeholder, disabled, onChange,
       cssStyles: getInputStyles, ...rest }] *)
Definition inputElementProps (props : InputProps.t) : Props.t :=
  let rest := InputProps.rest props in
  let disabled := or_default (VBool false) (InputProps.disabled props) in
  Props.Make (Props.className rest) (Props.style rest) (Props.children rest)
    (Props.dataset rest)
    (override
       (Truthy (getInputStyles (truthy (InputProps.error props))
                  (truthy (InputProps.success props)) (truthy disabled)))
       (Props.cssStyles rest))
    (filter (λ kv, is_index kv.1 = true) (Props.rest rest)
     ++ [("type", or_default (VStr "text") (InputProps.type props));
         ("value", or_default (VStr "") (InputProps.value props));
         ("placeholder", InputProps.placeholder props);
         ("disabled", disabled);
         ("onChange", InputProps.onChange props)]
     ++ filter (λ kv, is_index kv.1 = false) (Props.rest rest))%list.

(** [error || success || ''] *)
Definition feedbackText (props : InputProps.t) : jsval :=
  or_else (or_else (InputProps.error props) (InputProps.success props))
    (VStr "").

Definition inputFeedbackProps (props : InputProps.t) : Props.t :=
  styled (feedbackStyles (truthy (InputProps.error props))
            (truthy (InputProps.success props)))
    (feedbackText props) [].

Definition inputWrapperProps (labelElement inputElement feedbackElement : jsval)
  : Props.t :=
  styled inputWrapperStyles
    (VArr (filter (λ v, truthy v = true)
             [labelElement; inputElement; feedbackElement])) [].

Definition renderInput (props : InputProps.t) : M nid :=
  labelElement ←
    element_if (truthy (InputProps.label props)) "label"
      (inputLabelProps props);
  inputElement ← createElement "input" (inputElementProps props);
  feedbackElement ←
    element_if
      (truthy (or_else (InputProps.error props) (InputProps.success props)))
      "div" (inputFeedbackProps props);
  createElement "div"
    (inputWrapperProps labelElement (VNode inputElement) feedbackElement).

(** [Input] *)
Definition Input : option InputProps.t → M nid :=
  createComponent InputProps.empty renderInput.

(** Props of an input the host can pass in the state [s]. *)
Definition host_input_props (props : InputProps.t) (s : runtime) : Prop :=
  (truthy (InputProps.label props) = true →
   host_element_props (inputLabelProps props) s) ∧
  host_element_props (inputElementProps props) s ∧
  (truthy (or_else (InputProps.error props) (InputProps.success props)) = true →
   host_element_props (inputFeedbackProps props) s) ∧
  resolves (inputWrapperProps VNull VNull VNull) s.

(** ** More inputs *)


Definition testInput : InputProps.t :=
  InputProps.Make VUndefined VUndefined VUndefined (VFun (Host 0))
    (VStr "Name") VUndefined VUndefined VUndefined
    (Props.Make Absent Absent VUndefined Absent Absent
       [("onFocus", VFun (Host 1))]).

Definition flaggedInput : InputProps.t :=
  InputProps.Make VUndefined VUndefined VUndefined VUndefined VUndefined
    (VBool true) VUndefined VUndefined Props.empty.

(** * Proofs *)

(** ** Style engine: what one call of [css] does *)

Lemma initStyles_eq s : initStyles s = (Some (), started s).
Proof.
  destruct s as [st [[rules|] cache k] d p]; reflexivity.
Qed.

Lemma css_eq d s :
  css d s =
    match processedStyles d s with
    | None => (None, started s)
    | Some m =>
        match styleCache (engine s) !! hash (cssString m) with
        | Some c => (Some c, started s)
        | None =>
            if accepts s (cssString m)
            then (Some (zenStyle (uniqueId (engine s))),
                  minted (cssString m) s)
            else (None, rejected (cssString m) s)
        end
    end.
Proof.
  unfold css, mbind, M_bind. rewrite initStyles_eq. unfold started at 1 2.
  simpl. change (processedStyles d _) with (processedStyles d s).
  destruct (processedStyles d s) as [m|]; [|reflexivity].
  unfold mret, M_ret, createUniqueId, cache_set, insertRule, modify; simpl.
  destruct (styleCache (engine s) !! hash (cssString m)); [reflexivity|].
  simpl. unfold cssRules at 1. simpl.
  destruct (decide _) as [_|Hn]; [|exfalso; apply Hn; unfold cssRules; simpl; lia].
  unfold accepts, minted, rejected, zenStyle, cssRules. simpl.
  destruct (parsesRule _ _); [|reflexivity].
  rewrite take_ge, drop_ge by (simpl; lia). reflexivity.
Qed.

Lemma started_started s : started (started s) = started s.
Proof. reflexivity. Qed.

Lemma started_minted text s : started (minted text s) = minted text s.
Proof. reflexivity. Qed.

(** ** Postconditions in the state-and-exception monad *)

Lemma ensures_bind {A B} P (m : M A) (f : A → M B) Q Q' R :
  ensures P m Q R → (∀ a, ensures (Q a) (f a) Q' R) →
  ensures P (m ≫= f) Q' R.
Proof.
  intros Hm Hf s Hs. specialize (Hm s Hs).
  unfold mbind, M_bind. destruct (m s) as [[a|] s1]; [|done].
  by apply Hf.
Qed.

Lemma ensures_ret {A} (P : runtime → Prop) (a : A) (Q : A → runtime → Prop) R :
  (∀ s, P s → Q a s) → ensures P (mret a) Q R.
Proof. intros H s Hs. by apply H. Qed.

Lemma ensures_throw {A} (P : runtime → Prop) (Q : A → runtime → Prop)
    (R : runtime → Prop) :
  (∀ s, P s → R s) → ensures P throw Q R.
Proof. intros H s Hs. by apply H. Qed.

Lemma ensures_weaken {A} (P P' : runtime → Prop) (m : M A)
    (Q Q' : A → runtime → Prop) (R R' : runtime → Prop) :
  ensures P' m Q' R' →
  (∀ s, P s → P' s) → (∀ a s, Q' a s → Q a s) → (∀ s, R' s → R s) →
  ensures P m Q R.
Proof.
  intros Hm HP HQ HR s Hs. specialize (Hm s (HP s Hs)).
  destruct (m s) as [[a|] s1]; auto.
Qed.

Lemma ensures_get_state (P : runtime → Prop) (Q : runtime → runtime → Prop) R :
  (∀ s, P s → Q s s) → ensures P get_state Q R.
Proof. intros H s Hs. by apply H. Qed.

Lemma ensures_modify (P : runtime → Prop) f (Q : () → runtime → Prop) R :
  (∀ s, P s → Q () (f s)) → ensures P (modify f) Q R.
Proof. intros H s Hs. by apply H. Qed.

Section keeps.
Context (P : runtime → Prop).

Lemma keeps_bind {A B} (m : M A) (f : A → M B) :
  keeps P m → (∀ a, keeps P (f a)) → keeps P (m ≫= f).
Proof. intros. by eapply ensures_bind. Qed.

Lemma keeps_ret {A} (a : A) : keeps P (mret a).
Proof. by apply ensures_ret. Qed.

Lemma keeps_throw {A} : keeps P (@throw A).
Proof. by apply ensures_throw. Qed.

Lemma keeps_get_state : keeps P get_state.
Proof. by apply ensures_get_state. Qed.

Lemma keeps_modify f : (∀ s, P s → P (f s)) → keeps P (modify f).
Proof. intros. by apply ensures_modify. Qed.

Lemma keeps_forEach {A} (f : A → M ()) l :
  (∀ a, keeps P (f a)) → keeps P (forEach f l).
Proof.
  intros Hf. induction l as [|a l IH]; simpl.
  - apply keeps_ret.
  - apply keeps_bind; auto.
Qed.

Lemma keeps_attempt (m : M ()) : keeps P m → keeps P (attempt m).
Proof.
  intros Hm s Hs. specialize (Hm s Hs). unfold attempt. simpl.
  by destruct (m s) as [[a|] s1].
Qed.

Lemma keeps_state {A} (m : M A) s : keeps P m → P s → P (m s).2.
Proof. intros Hm Hs. specialize (Hm s Hs). by destruct (m s) as [[a|] s1]. Qed.
End keeps.

(** Breaking a computation down to the primitives that touch the state. *)
Ltac keeps_step :=
  lazymatch goal with
  | |- keeps _ (_ ≫= _) => apply keeps_bind; [|intros ?]
  | |- keeps _ (mret _) => apply keeps_ret
  | |- keeps _ throw => apply keeps_throw
  | |- keeps _ get_state => apply keeps_get_state
  | |- keeps _ (forEach _ _) => apply keeps_forEach; intros ?
  | |- keeps _ (set_data _ _) => unfold set_data
  | |- keeps _ (assign_dataset _ _) => unfold assign_dataset
  | |- keeps _ (attempt _) => apply keeps_attempt
  | |- keeps _ (match ?x with _ => _ end) => destruct x
  | |- keeps _ (if ?x then _ else _) => destruct x
  | |- keeps _ (let '(_, _) := ?x in _) => destruct x
  end.

(** ** What leaves the style engine alone *)

Section engine_frame.
Context (Q : style_engine → Prop).
Let P : runtime → Prop := λ s, Q (engine s).
Hypothesis css_keeps : ∀ d, keeps P (css d).

Lemma with_doc_keeps f : keeps P (modify (with_doc f)).
Proof. by apply keeps_modify. Qed.

Lemma with_store_keeps f : keeps P (modify (with_store f)).
Proof. by apply keeps_modify. Qed.

Lemma update_node_keeps n f : keeps P (update_node n f).
Proof. apply with_doc_keeps. Qed.

Lemma document_createElement_keeps tag : keeps P (document_createElement tag).
Proof.
  intros s Hs. unfold document_createElement. by destruct (validName _ _).
Qed.

Lemma element_animate_keeps n k o : keeps P (element_animate n k o).
Proof. by intros s Hs. Qed.

Ltac prim :=
  first [ apply update_node_keeps | apply with_doc_keeps
        | apply with_store_keeps | apply document_createElement_keeps
        | apply element_animate_keeps | apply css_keeps ].

Ltac go := repeat first [ keeps_step | prim ].

Lemma removeChild_keeps p c : keeps P (removeChild p c).
Proof. unfold removeChild. go. Qed.

Lemma appendChild_keeps p c : keeps P (appendChild p c).
Proof. unfold appendChild. go; try apply removeChild_keeps. Qed.

Lemma set_textContent_keeps n t : keeps P (set_textContent n t).
Proof. unfold set_textContent. go. Qed.

Lemma animate_keeps e k o : keeps P (animate e k o).
Proof. unfold animate. go. Qed.

Lemma cleanup_keeps o m : keeps P (cleanup o m).
Proof. unfold cleanup. go; try apply animate_keeps. Qed.

Lemma on_finish_keeps o : keeps P (on_finish o).
Proof. unfold on_finish. go; try apply removeChild_keeps. Qed.

Lemma call_keeps f : ∀ a, keeps P (call f a).
Proof.
  revert f. fix IH 1. intros [tag|v|o m|o] a; simpl.
  - unfold log_host. prim.
  - destruct a; go; apply IH.
  - apply cleanup_keeps.
  - apply on_finish_keeps.
Qed.

Lemma apply_rest_keeps n kv : keeps P (apply_rest n kv).
Proof.
  unfold apply_rest, addEventListener, set_property. destruct kv.
  go; apply call_keeps.
Qed.

Lemma append_entry_keeps n c : keeps P (append_entry n c).
Proof. unfold append_entry. go; apply appendChild_keeps. Qed.

Lemma assign_dataset_keeps n data : keeps P (assign_dataset n data).
Proof.
  unfold assign_dataset. apply keeps_forEach. intros kv. unfold set_data. go.
Qed.

Lemma createElement_keeps tag props : keeps P (createElement tag props).
Proof.
  unfold createElement, classList_add, set_className, assign_style.
  go; first [ apply set_textContent_keeps | apply appendChild_keeps
            | apply apply_rest_keeps | apply append_entry_keeps
            | apply assign_dataset_keeps ].
Qed.

Lemma Modal_keeps props : keeps P (Modal props).
Proof.
  unfold Modal, set_property, addEventListener.
  go; first [ apply createElement_keeps | apply appendChild_keeps
            | apply animate_keeps ].
Qed.

Lemma finish_keeps a : keeps P (finish a).
Proof. unfold finish. go; apply call_keeps. Qed.

Lemma click_keeps t : keeps P (click t).
Proof. unfold click, deliver_click. go; apply call_keeps. Qed.

Lemma call_property_keeps n key : keeps P (call_property n key).
Proof. unfold call_property. go; apply call_keeps. Qed.

Hypothesis clear_keeps : ∀ e, Q e → Q (clear_cache e).

Lemma perform_keeps a : keeps P (perform a).
Proof.
  destruct a; simpl; go;
    first [ apply createElement_keeps | apply animate_keeps
          | apply Modal_keeps | apply click_keeps | apply finish_keeps
          | apply call_property_keeps | idtac ].
  - intros s Hs. unfold setTheme.
    destruct (foldl _ _ _) as [top st1]. simpl. by apply clear_keeps.
  - by intros s Hs.
  - intros s Hs. simpl. by apply clear_keeps.
  - by intros s Hs.
  - by intros s Hs.
Qed.
End engine_frame.

(** ** The invariant of the style engine *)

Lemma upto_space_app c r :
  upto_space c = c → upto_space (c +:+ String " " r) = c.
Proof.
  induction c as [|x c IH]; simpl; [done|].
  destruct (decide (x = " "%char)); [done|].
  intros [= H]. by rewrite IH.
Qed.

Lemma pretty_N_char_not_space x : pretty_N_char x ≠ " "%char.
Proof. unfold pretty_N_char. by repeat case_match. Qed.

Lemma pretty_N_go_no_space x : ∀ s,
  upto_space s = s → upto_space (pretty_N_go x s) = pretty_N_go x s.
Proof.
  induction (N.lt_wf_0 x) as [x _ IH]. intros s Hs.
  destruct (decide (x = 0%N)) as [->|Hx]; [by rewrite pretty_N_go_0|].
  rewrite pretty_N_go_step by lia.
  apply IH; [apply N.div_lt; lia|]. simpl.
  destruct (decide _) as [E|_]; [by apply pretty_N_char_not_space in E|].
  by rewrite Hs.
Qed.

Lemma upto_space_append a b :
  upto_space a = a → upto_space b = b → upto_space (a +:+ b) = a +:+ b.
Proof.
  induction a as [|x a IH]; simpl; [done|].
  destruct (decide (x = " "%char)); [done|].
  intros [= Ha] Hb. by rewrite IH.
Qed.

Lemma zenStyle_no_space k : upto_space (zenStyle k) = zenStyle k.
Proof.
  apply upto_space_append; [done|].
  unfold pretty, pretty_N. case_decide; [done|].
  by apply pretty_N_go_no_space.
Qed.

Lemma rule_class_ruleText k text :
  rule_class (ruleText (zenStyle k) text) = zenStyle k.
Proof.
  unfold ruleText. simpl. apply (upto_space_app (zenStyle k)), zenStyle_no_space.
Qed.

#[global] Instance zenStyle_inj : Inj (=) (=) zenStyle.
Proof.
  intros k1 k2 H. unfold zenStyle in H.
  by apply String.app_inj, pretty_N_inj in H.
Qed.

Lemma css_keeps_engine_ok d : keeps (λ s, engine_ok (engine s)) (css d).
Proof.
  intros s (Hmint & Hinj & ks & Hks & Hnd & Hlt).
  assert (H0 : engine_ok (engine (started s))).
  { repeat split; eauto. }
  rewrite css_eq.
  destruct (processedStyles d s) as [m|]; [|done].
  destruct (styleCache (engine s) !! hash (cssString m)) eqn:Hc; [done|].
  assert (Hmint' : ∀ h c,
            <[hash (cssString m) := zenStyle (uniqueId (engine s))]>
              (styleCache (engine s)) !! h = Some c →
            ∃ k, (k < uniqueId (engine s) + 1)%N ∧ c = zenStyle k).
  { intros h c Hh. apply lookup_insert_Some in Hh as [[_ <-]|[_ Hh]].
    + exists (uniqueId (engine s)). split; [lia|done].
    + destruct (Hmint _ _ Hh) as (k & ? & ->). exists k. split; [lia|done]. }
  assert (Hinj' : ∀ h1 h2 c,
            <[hash (cssString m) := zenStyle (uniqueId (engine s))]>
              (styleCache (engine s)) !! h1 = Some c →
            <[hash (cssString m) := zenStyle (uniqueId (engine s))]>
              (styleCache (engine s)) !! h2 = Some c → h1 = h2).
  { intros h1 h2 c H1 H2.
    apply lookup_insert_Some in H1 as [[<- <-]|[Hn1 H1]];
      apply lookup_insert_Some in H2 as [[<- E]|[Hn2 H2]]; try done.
    + destruct (Hmint _ _ H2) as (k & Hk & E).
      apply zenStyle_inj in E. lia.
    + destruct (Hmint _ _ H1) as (k & Hk & ->).
      apply zenStyle_inj in E. lia.
    + eauto. }
  destruct (accepts s (cssString m)).
  2:{ unfold rejected. simpl. split; [exact Hmint'|]. split; [exact Hinj'|].
      exists ks. cbn [styleSheet uniqueId default id]. unfold cssRules.
      split; [done|]. split; [done|].
      eapply Forall_impl; [exact Hlt|]. simpl. intros. lia. }
  unfold minted. simpl. split; [|split]; cbn [styleCache styleSheet uniqueId].
  - exact Hmint'.
  - exact Hinj'.
  - exists (ks ++ [uniqueId (engine s)])%list.
    cbn [default id]. rewrite !fmap_app.
    cbn [fmap list_fmap]. rewrite rule_class_ruleText.
    unfold cssRules. rewrite Hks. split; [done|]. split.
    + apply NoDup_app. split; [done|]. split; [|apply NoDup_singleton].
      intros k Hk Hk'. apply list_elem_of_singleton in Hk' as ->.
      eapply Forall_forall in Hlt; [|exact Hk]. simpl in Hlt. lia.
    + apply Forall_app. split.
      * eapply Forall_impl; [exact Hlt|]. simpl. intros. lia.
      * apply Forall_singleton. lia.
Qed.

Lemma clear_keeps_engine_ok e : engine_ok e → engine_ok (clear_cache e).
Proof.
  intros (_ & _ & H). unfold clear_cache. split; [|split]; simpl; [| |done].
  - intros h c Hh. by rewrite lookup_empty in Hh.
  - intros h1 h2 c Hh. by rewrite lookup_empty in Hh.
Qed.

Lemma initial_engine_ok p : engine_ok (engine (initial_on p)).
Proof.
  split; [|split].
  - intros h c Hh. by vm_compute in Hh.
  - intros h1 h2 c Hh. by vm_compute in Hh.
  - exists []. split; [done|]. split; [apply NoDup_nil_2|done].
Qed.

Lemma reachable_engine_ok s : reachable s → engine_ok (engine s).
Proof.
  induction 1 as [|s a _ IH]; [apply initial_engine_ok|].
  apply (keeps_state (λ s, engine_ok (engine s))); [|done].
  apply perform_keeps; [apply css_keeps_engine_ok|apply clear_keeps_engine_ok].
Qed.

(** C8.  In every state the library can reach, whatever the host and the
    render surface do (theme changes that clear the cache included), no
    two rules of the stylesheet are for the same class name. *)
Theorem stylesheet_classes_unique (s : runtime) :
  reachable s → NoDup (rule_class <$> cssRules s).
Proof.
  intros (_ & _ & ks & Hks & Hnd & _)%reachable_engine_ok.
  unfold cssRules. rewrite Hks. by apply (NoDup_fmap_2 _).
Qed.

(** ** Theme store *)

Lemma new_category_spec o st l st' :
  new_category o st = (l, st') →
  l ∉ dom (objects st) ∧
  objects st' = <[l := o]> (objects st) ∧
  themes st' = themes st ∧ activeTheme st' = activeTheme st.
Proof.
  unfold new_category. intros [= <- <-]. simpl.
  split; [apply is_fresh|done].
Qed.

Lemma category_at_insert st st' l o l' :
  objects st' = <[l := o]> (objects st) →
  l ∉ dom (objects st) →
  l' ∈ dom (objects st) →
  category_at st' l' = category_at st l'.
Proof.
  intros E Hl Hl'. unfold category_at. rewrite E.
  rewrite lookup_insert_ne; [done|]. intros ->. done.
Qed.

(** The categories [setTheme] rebuilds, one after the other. *)
Lemma merge_categories a n cs : ∀ top st top' st',
  foldl (λ acc c, merge_category a n c acc) (top, st) cs = (top', st') →
  NoDup cs →
  (∀ c l, a !! c = Some l ∨ n !! c = Some l → l ∈ dom (objects st)) →
  objects st ⊆ objects st' ∧
  themes st' = themes st ∧
  activeTheme st' = activeTheme st ∧
  (∀ c, c ∉ cs → top' !! c = top !! c) ∧
  (∀ c, c ∈ cs → ∃ l,
      top' !! c = Some l ∧
      objects st' !! l = Some (spread st (n !! c) ∪ spread st (a !! c))).
Proof.
  induction cs as [|c cs IH]; intros top st top' st' Hf Hnd Hwf.
  - simpl in Hf. injection Hf as <- <-. repeat split; try done.
    intros c Hc. by apply elem_of_nil in Hc.
  - cbn [foldl] in Hf. unfold merge_category at 2 in Hf.
    destruct (new_category _ st) as [l st1] eqn:Hnew.
    apply new_category_spec in Hnew as (Hfresh & Hobj & Hth & Hact).
    apply NoDup_cons in Hnd as [Hc Hnd].
    assert (Hsub : objects st ⊆ objects st1).
    { rewrite Hobj. apply insert_subseteq. by apply not_elem_of_dom. }
    assert (Hspread : ∀ c', spread st1 (n !! c') ∪ spread st1 (a !! c')
                            = spread st (n !! c') ∪ spread st (a !! c')).
    { intros c'. f_equal.
      - destruct (n !! c') as [l'|] eqn:E; [|done]. simpl.
        eapply category_at_insert; eauto.
      - destruct (a !! c') as [l'|] eqn:E; [|done]. simpl.
        eapply category_at_insert; eauto. }
    apply IH in Hf as (Hs & Ht & Ha & Hout & Hin); [|done|].
    2:{ intros c' l' H. apply Hwf in H.
        rewrite Hobj, dom_insert. set_solver. }
    split; [by etrans|]. split; [congruence|]. split; [congruence|].
    split.
    + intros c' Hc'. apply not_elem_of_cons in Hc' as [Hne Hc'].
      rewrite Hout by done. by rewrite lookup_insert_ne.
    + intros c' Hc'. destruct (decide (c' = c)) as [->|Hne].
      * exists l. rewrite Hout by done. rewrite lookup_insert_eq.
        split; [done|]. eapply lookup_weaken; [|exact Hs].
        rewrite Hobj. apply lookup_insert_eq.
      * apply elem_of_cons in Hc' as [?|Hc']; [done|].
        destruct (Hin c' Hc') as (l' & H1 & H2). exists l'.
        split; [done|]. by rewrite <- Hspread.
Qed.

Lemma themeCategories_NoDup : NoDup themeCategories.
Proof. unfold themeCategories. repeat (apply NoDup_cons; split; [set_solver|]). apply NoDup_nil_2. Qed.

Lemma theme_at_new o st :
  theme_at (new_theme o st).2 (new_theme o st).1 = o.
Proof. unfold theme_at, new_theme. simpl. by rewrite lookup_insert_eq. Qed.

(** C4.  A partial theme update that touches only one token of one of the
    six categories (the theme object [p], whose only category object [pc]
    holds only the token [key], under the category [cat]) leaves, in what a
    following [getTheme()] returns, every other token of [cat] and every
    token of every other category as it was in the active theme, and sets
    the token it touches. *)
Theorem setTheme_one_token_keeps_the_rest
    (s : runtime) (p pc : loc) (cat key : string) (X : token) :
  cat ∈ themeCategories →
  map_Forall (λ _ l, is_Some (objects (store s) !! l))
    (theme_at (store s) (activeTheme (store s))) →
  theme_at (store s) p = {[ cat := pc ]} →
  objects (store s) !! pc = Some {[ key := X ]} →
  ∃ t1 s1 t2 s2,
    setTheme p s = (Some t1, s1) ∧
    getTheme s1 = (Some t2, s2) ∧
    token_at (store s2) t2 cat key = Some X ∧
    ∀ c k, (c, k) ≠ (cat, key) →
      token_at (store s2) t2 c k
      = token_at (store s) (activeTheme (store s)) c k.
Proof.
  intros Hcat Hwf' Hp Hpc.
  assert (Hwf : ∀ c l, theme_at (store s) (activeTheme (store s)) !! c = Some l
                       → l ∈ dom (objects (store s))).
  { intros c l H. apply elem_of_dom. exact (Hwf' c l H). }
  clear Hwf'.
  set (st := store s) in *.
  set (a := theme_at st (activeTheme st)) in *.
  unfold setTheme. fold st. fold a. rewrite Hp.
  destruct (foldl _ _ themeCategories) as [top st1] eqn:Hfold.
  apply merge_categories in Hfold as (Hsub & Hth & Hact & Hout & Hin);
    [|apply themeCategories_NoDup|].
  2:{ intros c l [H|H]; [by eapply Hwf|].
      apply lookup_singleton_Some in H as [_ <-].
      apply elem_of_dom. eauto. }
  eexists _, _, _, _. split; [reflexivity|]. split; [reflexivity|].
  cbn [store fst snd].
  match goal with |- token_at ?st2 ?t2 _ _ = _ ∧ _ =>
    assert (Htok : ∀ c k, token_at st2 t2 c k
                          = top !! c ≫= λ l, category_at st1 l !! k)
  end.
  { intros c k. unfold token_at, theme_at, category_at. simpl.
    by rewrite !lookup_insert_eq. }
  split.
  - rewrite Htok. destruct (Hin cat Hcat) as (l & -> & Hl).
    simpl. unfold category_at at 1. rewrite Hl. simpl.
    rewrite lookup_singleton_eq. simpl.
    unfold category_at. fold st. rewrite Hpc. simpl.
    apply lookup_union_Some_l, lookup_singleton_eq.
  - intros c k Hne. rewrite Htok. unfold token_at. fold st. fold a.
    destruct (decide (c ∈ themeCategories)) as [Hc|Hc].
    + destruct (Hin c Hc) as (l & -> & Hl). simpl.
      unfold category_at at 1. rewrite Hl. simpl.
      destruct (decide (c = cat)) as [->|Hcol].
      * rewrite lookup_singleton_eq. simpl. unfold category_at at 1.
        fold st. rewrite Hpc. simpl.
        rewrite lookup_union_r.
        2:{ apply lookup_singleton_ne. congruence. }
        by destruct (a !! cat).
      * rewrite lookup_singleton_ne by done. simpl.
        rewrite (left_id_L ∅ (∪)). by destruct (a !! c).
    + rewrite Hout by done.
      assert (c ≠ cat) by (by intros ->).
      rewrite lookup_union_r by (by apply lookup_singleton_ne).
      destruct (a !! c) as [l|] eqn:E; [|done]. simpl.
      apply Hwf, elem_of_dom in E as [o Ho].
      unfold category_at. fold st. rewrite Ho.
      by rewrite (lookup_weaken _ _ _ _ Ho Hsub).
Qed.

Lemma css_store d s : store (css d s).2 = store s.
Proof.
  rewrite css_eq.
  destruct (processedStyles d s); [|done].
  destruct (styleCache (engine s) !! _); [done|].
  by destruct (accepts s _).
Qed.

Lemma css_surface d s : surface (css d s).2 = surface s.
Proof.
  rewrite css_eq.
  destruct (processedStyles d s); [|done].
  destruct (styleCache (engine s) !! _); [done|].
  by destruct (accepts s _).
Qed.

Lemma processedStyles_store d s s' :
  store s' = store s → processedStyles d s' = processedStyles d s.
Proof. intros E. destruct d; simpl; [done|]. by rewrite E. Qed.

(** After a call of [css] for a text, returned or thrown, the hash of the
    text is cached: a call for a text of this hash finds the class, and
    changes nothing. *)
Lemma css_then d1 d2 s m1 m2 :
  processedStyles d1 s = Some m1 →
  processedStyles d2 s = Some m2 →
  hash (cssString m1) = hash (cssString m2) →
  ∃ c, styleCache (engine (css d1 s).2) !! hash (cssString m1) = Some c ∧
       (∀ c', (css d1 s).1 = Some c' → c' = c) ∧
       css d2 (css d1 s).2 = (Some c, (css d1 s).2).
Proof.
  intros H1 H2 Hh.
  pose proof (css_store d1 s) as Hst.
  rewrite (css_eq d2), (processedStyles_store d2 s _ Hst), H2.
  rewrite css_eq, H1.
  destruct (styleCache (engine s) !! hash (cssString m1)) as [c'|] eqn:Hc.
  - exists c'. cbn [started engine styleCache snd fst].
    rewrite <- Hh, Hc. split; [done|]. split; [by intros ? [= <-]|done].
  - exists (zenStyle (uniqueId (engine s))).
    destruct (accepts s (cssString m1));
      cbn [minted rejected engine styleCache snd fst];
      rewrite <- Hh, lookup_insert_eq;
      (split; [done|]); (split; [by intros ? [= <-]|done]).
Qed.

(** A second call for the same hash finds the class of the first, and
    changes nothing. *)
Lemma css_again d1 d2 s m1 m2 c s1 :
  processedStyles d1 s = Some m1 →
  processedStyles d2 s = Some m2 →
  hash (cssString m1) = hash (cssString m2) →
  css d1 s = (Some c, s1) →
  css d2 s1 = (Some c, s1).
Proof.
  intros H1 H2 Hh Hcss.
  destruct (css_then d1 d2 s m1 m2 H1 H2 Hh) as (c' & _ & Hc' & E).
  rewrite Hcss in Hc', E. cbn [fst snd] in Hc', E.
  by rewrite (Hc' c eq_refl).
Qed.

(** C2, as amended.  Two style descriptions that resolve, under the same
    active theme, to the same rule text: the first call returns a class
    when the hash of the text is cached (and inserts no rule: the class is
    that of an earlier call for this text, or for another text with the
    same hash) or the surface takes the rule (and inserts this one rule);
    when the hash is not cached and the surface rejects the rule, it
    throws, with the class cached and no rule inserted.  Either way the
    second call, and any number of further calls, return that class and
    leave the state as the first call left it. *)
Theorem same_text_same_class_at_most_one_rule
    (s : runtime) (d1 d2 : styles) (m1 m2 : mapping) :
  processedStyles d1 s = Some m1 →
  processedStyles d2 s = Some m2 →
  cssString m1 = cssString m2 →
  ∃ c s1,
    css d1 s =
      (match styleCache (engine s) !! hash (cssString m1) with
       | Some _ => Some c
       | None => if accepts s (cssString m1) then Some c else None
       end, s1) ∧
    css d2 s1 = (Some c, s1) ∧
    (∀ ds, Forall (λ d, ∃ m, processedStyles d s = Some m ∧
                             cssString m = cssString m1) ds →
           css_all ds s1 = (Some (replicate (length ds) c), s1)) ∧
    cssRules s1 =
      (cssRules s ++
       match styleCache (engine s) !! hash (cssString m1) with
       | Some _ => []
       | None =>
           if accepts s (cssString m1) then [ruleText c (cssString m1)]
           else []
       end)%list.
Proof.
  intros H1 H2 Ht.
  assert (Hall : ∀ d m, processedStyles d s = Some m →
                        cssString m = cssString m1 →
                        ∃ c, (∀ c', (css d1 s).1 = Some c' → c' = c) ∧
                             css d (css d1 s).2 = (Some c, (css d1 s).2)).
  { intros d m Hm Htm.
    destruct (css_then d1 d s m1 m H1 Hm) as (c & _ & Hc & E);
      [by rewrite Htm|]. by exists c. }
  destruct (Hall d2 m2 H2 (eq_sym Ht)) as (c & Hc & E2).
  exists c, (css d1 s).2. split; [|split; [done|split]].
  - pose proof (css_eq d1 s) as E. rewrite H1 in E.
    destruct (styleCache (engine s) !! _) as [c'|].
    + rewrite E in Hc |- *. by rewrite (Hc c' eq_refl).
    + destruct (accepts s (cssString m1)); rewrite E in Hc |- *; [|done].
      by rewrite (Hc _ eq_refl).
  - intros ds Hds. induction Hds as [|d ds (m & Hm & Htm) _ IH]; [done|].
    simpl. unfold mbind, M_bind.
    destruct (css_then d1 d s m1 m H1 Hm) as (c' & Hcache' & _ & E');
      [by rewrite Htm|].
    destruct (css_then d1 d2 s m1 m2 H1 H2) as (c'' & Hcache & _ & E'');
      [by rewrite Ht|].
    rewrite E2 in E''. injection E'' as <-.
    rewrite Hcache in Hcache'. injection Hcache' as <-.
    by rewrite E', IH.
  - pose proof (css_eq d1 s) as E. rewrite H1 in E.
    destruct (styleCache (engine s) !! _) as [c'|].
    + rewrite E. unfold cssRules. simpl. by rewrite app_nil_r.
    + destruct (accepts s (cssString m1)); rewrite E in Hc |- *.
      * by rewrite <- (Hc _ eq_refl).
      * unfold cssRules. simpl. by rewrite app_nil_r.
Qed.

(** C3, as amended.  In every reachable state, for two style descriptions
    that resolve: the class names [css] returns for them are the same
    exactly when the hashes of the rule texts are (the first eight
    characters of the base-64 text without its [+], [/] and [=]), so that
    distinct hashes get distinct classes and distinct texts of one hash
    share a class; and [css] returns for both when the surface takes
    their rules. *)
Theorem distinct_hashes_distinct_classes
    (s : runtime) (d1 d2 : styles) (m1 m2 : mapping) :
  reachable s →
  processedStyles d1 s = Some m1 →
  processedStyles d2 s = Some m2 →
  (∀ c1 s1 c2 s2,
     css d1 s = (Some c1, s1) → css d2 s1 = (Some c2, s2) →
     (c1 = c2 ↔ hash (cssString m1) = hash (cssString m2))) ∧
  (accepts s (cssString m1) = true →
   accepts (css d1 s).2 (cssString m2) = true →
   ∃ c1 s1 c2 s2, css d1 s = (Some c1, s1) ∧ css d2 s1 = (Some c2, s2)).
Proof.
  intros (Hmint & Hinj & _)%reachable_engine_ok H1 H2.
  pose proof (css_store d1 s) as Hst.
  pose proof (css_eq d2 (css d1 s).2) as Hcss2.
  rewrite (processedStyles_store d2 s _ Hst), H2 in Hcss2.
  pose proof (css_eq d1 s) as Hcss1. rewrite H1 in Hcss1.
  split.
  - intros c1 s1 c2 s2 E1 E2. split.
    + intros <-. destruct (decide (hash (cssString m1) = hash (cssString m2)))
        as [|Hne]; [done|exfalso].
      rewrite E1 in Hcss2. cbn [snd] in Hcss2. rewrite E2 in Hcss2.
      rewrite E1 in Hcss1.
      destruct (styleCache (engine s) !! hash (cssString m1)) as [c|] eqn:Hc1.
      * injection Hcss1 as -> ->.
        cbn [started engine styleCache uniqueId] in Hcss2.
        destruct (styleCache (engine s) !! hash (cssString m2)) as [c2|] eqn:Hc2.
        -- injection Hcss2 as <- _. eauto.
        -- unfold accepts in Hcss2. destruct (parsesRule _ _); [|done].
           injection Hcss2 as -> _.
           destruct (Hmint _ _ Hc1) as (k & Hk & E).
           apply zenStyle_inj in E. cbn in Hk. lia.
      * destruct (accepts s (cssString m1)); [|done].
        injection Hcss1 as -> ->.
        cbn [minted engine styleCache uniqueId] in Hcss2.
        rewrite lookup_insert_ne in Hcss2 by done.
        destruct (styleCache (engine s) !! hash (cssString m2)) as [c2|] eqn:Hc2.
        -- injection Hcss2 as E _. destruct (Hmint _ _ Hc2) as (k & Hk & ->).
           apply zenStyle_inj in E. lia.
        -- unfold accepts in Hcss2. destruct (parsesRule _ _); [|done].
           pose proof (f_equal fst Hcss2) as E. cbn [fst] in E.
           apply (inj Some), zenStyle_inj in E. lia.
    + intros Hh. pose proof (css_again d1 d2 s m1 m2 c1 s1 H1 H2 Hh E1) as E.
      rewrite E2 in E. by injection E.
  - intros A1 A2.
    destruct (css d1 s) as [r1 s1] eqn:E1. cbn [snd] in *.
    assert (∃ c1, r1 = Some c1) as [c1 ->].
    { destruct (styleCache (engine s) !! _); [|rewrite A1 in Hcss1];
        injection Hcss1 as -> _; eauto. }
    destruct (css d2 s1) as [r2 s2] eqn:E2.
    assert (∃ c2, r2 = Some c2) as [c2 ->].
    { destruct (styleCache (engine s1) !! _); [|rewrite A2 in Hcss2];
        injection Hcss2 as -> _; eauto. }
    by exists c1, s1, c2, s2.
Qed.

(** C5.  [setTheme] and [resetTheme] leave the style cache empty, so that
    nothing cached before can be found again: a class the next [css] call
    returns, for any description, is not one from the cache but the one
    this call mints from the counter, with its rule inserted and its hash
    the only one cached. *)
Theorem theme_change_clears_cache (s : runtime) (p : loc) :
  styleCache (engine (setTheme p s).2) = ∅ ∧
  styleCache (engine (resetTheme s).2) = ∅ ∧
  ∀ s', s' = (setTheme p s).2 ∨ s' = (resetTheme s).2 →
    ∀ d c s'', css d s' = (Some c, s'') →
      ∃ m, processedStyles d s' = Some m ∧
           c = zenStyle (uniqueId (engine s)) ∧
           s'' = minted (cssString m) s'.
Proof.
  assert (H1 : styleCache (engine (setTheme p s).2) = ∅
             ∧ uniqueId (engine (setTheme p s).2) = uniqueId (engine s)).
  { unfold setTheme. by destruct (foldl _ _ _). }
  assert (H2 : styleCache (engine (resetTheme s).2) = ∅
             ∧ uniqueId (engine (resetTheme s).2) = uniqueId (engine s)) by done.
  split; [apply H1|]. split; [apply H2|].
  intros s' Hs' d c s'' Hcss. rewrite css_eq in Hcss.
  destruct (processedStyles d s') as [m|]; [|done]. exists m.
  assert (styleCache (engine s') = ∅ ∧ uniqueId (engine s') = uniqueId (engine s))
    as [Hc Hu] by (by destruct Hs' as [-> | ->]).
  rewrite Hc, lookup_empty in Hcss.
  destruct (accepts s' (cssString m)); [|done].
  injection Hcss as <- <-. by rewrite Hu.
Qed.

(** C3 fails as stated: [display: flex;] and [display: block;] are distinct
    rule texts with the same hash, and get the same class. *)
Lemma distinct_texts_share_a_class :
  cssString [("display", Leaf "flex")] ≠ cssString [("display", Leaf "block")] ∧
  ∃ c s1 s2,
    css displayFlex initial = (Some c, s1) ∧
    css displayBlock s1 = (Some c, s2).
Proof.
  split; [by vm_compute|].
  eexists _, _, _. split; vm_compute; reflexivity.
Qed.

(** C2 fails as stated: after [css] has been called for
    [display: flex;], calls for [display: block;] return its class and
    no rule for [display: block;] is ever inserted. *)
Lemma colliding_text_gets_no_rule :
  ∃ s0 c s1,
    s0 = (css displayFlex initial).2 ∧
    css displayBlock s0 = (Some c, s1) ∧
    css displayBlock s1 = (Some c, s1) ∧
    rules_for "display: block;" s1 = [] ∧
    cssRules s1 = [".zen-style-0 { display: flex; }"].
Proof.
  eexists _, _, _. split; [reflexivity|].
  split; [vm_compute; reflexivity|].
  split; [vm_compute; reflexivity|].
  split; vm_compute; reflexivity.
Qed.

(** ** Element builder *)

Lemma bind_assoc {A B C} (m : M A) (f : A → M B) (g : B → M C) s :
  ((m ≫= f) ≫= g) s = (m ≫= λ a, f a ≫= g) s.
Proof. unfold mbind, M_bind. by destruct (m s) as [[a|] s1]. Qed.

Lemma bind_ext {A B} (m : M A) (f g : A → M B) s :
  (∀ a s', f a s' = g a s') → (m ≫= f) s = (m ≫= g) s.
Proof. intros H. unfold mbind, M_bind. destruct (m s) as [[a|] s1]; auto. Qed.

Lemma createElement_children tag props v s :
  createElement tag (set_children v props) s =
    (element ← build tag props;
     (if truthy v then
        match v with
        | VArr items => forEach (append_entry element) items
        | VStr text => set_textContent element text
        | VNode n => appendChild element (CElem n)
        | _ => throw
        end
      else mret ());;
     mret element) s.
Proof.
  unfold build, createElement. cbn [set_children Props.children Props.cssStyles
    Props.className Props.style Props.dataset Props.rest truthy].
  rewrite bind_assoc. apply bind_ext. intros element s1.
  repeat (rewrite bind_assoc; apply bind_ext; intros ? ?).
  rewrite bind_assoc. reflexivity.
Qed.

(** C1 fails on the code.  Built from a style description and the literal
    class [foo], the node has the class attribute [foo]: the rule for
    the generated class [zen-style-0] is in the stylesheet, but the class
    is not on the node. *)
Lemma literal_className_erases_generated_class :
  ∃ n s e,
    createElement "div" styledAndNamed initial = (Some n, s) ∧
    node_at s n = Some e ∧
    cssRules s = [".zen-style-0 { color: red; }"] ∧
    className e = "foo" ∧
    classList e = ["foo"].
Proof.
  eexists _, _, _. split; [vm_compute; reflexivity|].
  split; [vm_compute; reflexivity|].
  split; [vm_compute; reflexivity|].
  split; [vm_compute; reflexivity|].
  vm_compute. reflexivity.
Qed.

(** ** The life of one modal *)

Lemma cleanup_eq overlay modalElement s :
  cleanup overlay modalElement s =
    (Some (), if attached s overlay then closing overlay modalElement s else s).
Proof.
  unfold cleanup, attached, mbind, M_bind. simpl.
  destruct (parent_of s overlay) as [p|] eqn:Hp.
  - rewrite bool_decide_eq_true_2 by eauto.
    unfold set_onfinish, modify, closing, with_doc. simpl. do 3 f_equal.
    rewrite <- (assoc_L (++)).
    rewrite <- (Nat.add_0_r (length (animations (doc s)))) at 1.
    by rewrite alter_app_r.
  - rewrite bool_decide_eq_false_2; [done|]. by intros [? ?].
Qed.

Lemma removeChild_eq p c s :
  removeChild p c s =
    (Some (),
     with_doc (λ d,
       Document
         (alter (with_parent None) c
            (alter (with_children (filter (λ x, x ≠ CElem c))) p (nodes d)))
         (animations d) (hostLog d)) s).
Proof. reflexivity. Qed.

Lemma parent_of_removeChild p c s x :
  parent_of (removeChild p c s).2 x
  = if decide (x = c) then None else parent_of s x.
Proof.
  rewrite removeChild_eq. unfold parent_of, node_at. simpl.
  destruct (decide (x = c)) as [->|Hne].
  - rewrite lookup_alter_eq. by destruct (alter _ p _ !! c).
  - rewrite lookup_alter_ne by done.
    destruct (decide (x = p)) as [->|Hp].
    + rewrite lookup_alter_eq. by destruct (nodes (doc s) !! p).
    + by rewrite lookup_alter_ne.
Qed.

Lemma on_finish_eq overlay s :
  on_finish overlay s =
    (Some (), match parent_of s overlay with
              | Some p => (removeChild p overlay s).2
              | None => s
              end).
Proof.
  unfold on_finish, mbind, M_bind. simpl.
  by destruct (parent_of s overlay).
Qed.

Lemma attached_detached s overlay :
  attached s overlay = false ↔ detached overlay s.
Proof.
  unfold attached, detached. rewrite bool_decide_eq_false.
  destruct (parent_of s overlay); split; try done.
  intros H. destruct H. eauto.
Qed.

Section one_modal.
Context (overlay : nid).

Lemma cleanup_keeps_detached o m : keeps (detached overlay) (cleanup o m).
Proof.
  intros s Hs. rewrite cleanup_eq. by destruct (attached s o).
Qed.

Lemma on_finish_keeps_detached o : keeps (detached overlay) (on_finish o).
Proof.
  intros s Hs. rewrite on_finish_eq. destruct (parent_of s o); [|done].
  unfold detached. rewrite parent_of_removeChild. by case_decide.
Qed.

Lemma call_keeps_detached f : ∀ a, keeps (detached overlay) (call f a).
Proof.
  revert f. fix IH 1. intros [tag|v|o m|o] a; simpl.
  - by intros s Hs.
  - destruct a; repeat keeps_step; apply IH.
  - apply cleanup_keeps_detached.
  - apply on_finish_keeps_detached.
Qed.

Lemma finish_keeps_detached a : keeps (detached overlay) (finish a).
Proof.
  unfold finish. repeat keeps_step; try apply call_keeps_detached.
  all: by apply keeps_modify.
Qed.

Lemma cleanup_keeps_pending a0 o m :
  keeps (pending overlay a0) (cleanup o m).
Proof.
  intros s (x & Hx & Hfin). rewrite cleanup_eq.
  destruct (attached s o); [|by exists x].
  exists x. split; [|done]. simpl. by apply lookup_app_l_Some.
Qed.

Lemma on_finish_keeps_pending a0 o :
  keeps (pending overlay a0) (on_finish o).
Proof.
  intros s Hs. rewrite on_finish_eq. by destruct (parent_of s o).
Qed.

Lemma call_keeps_pending a0 f : ∀ a, keeps (pending overlay a0) (call f a).
Proof.
  revert f. fix IH 1. intros [tag|v|o m|o] a; simpl.
  - by intros s Hs.
  - destruct a; repeat keeps_step; apply IH.
  - apply cleanup_keeps_pending.
  - apply on_finish_keeps_pending.
Qed.

Lemma finish_other_keeps_pending a0 a :
  a ≠ a0 → keeps (pending overlay a0) (finish a).
Proof.
  intros Hne. unfold finish. repeat keeps_step;
    try apply call_keeps_pending.
  all: apply keeps_modify; intros s (x & Hx & Hfin); exists x;
    split; [|done]; simpl; by rewrite list_lookup_alter_ne.
Qed.

(** The completion of a pending exit animation detaches the overlay. *)
Lemma finish_pending_detaches a0 s :
  pending overlay a0 s → detached overlay (finish a0 s).2.
Proof.
  intros (x & Hx & Hon & Hfin).
  unfold finish, mbind, M_bind, get_state. rewrite Hx, Hfin, Hon.
  unfold modify. cbn [call]. rewrite on_finish_eq. cbn [snd].
  match goal with |- context [match ?scrut with _ => _ end] =>
    destruct scrut as [q|] eqn:Hq end; [|exact Hq].
  unfold detached. rewrite parent_of_removeChild. by case_decide.
Qed.

Context (modalElement : nid).

Lemma step_keeps_detached e :
  keeps (detached overlay) (modal_step overlay modalElement e).
Proof.
  destruct e; [apply call_keeps_detached|apply finish_keeps_detached].
Qed.

Lemma close_request_keeps_parent s :
  parent_of (modal_step overlay modalElement CloseRequest s).2 overlay
  = parent_of s overlay.
Proof. simpl. rewrite cleanup_eq. by destruct (attached s overlay). Qed.

Lemma detachments_detached l : ∀ s,
  detached overlay s → detachments overlay modalElement l s = [].
Proof.
  induction l as [|e l IH]; intros s Hs; [done|]. simpl.
  rewrite (proj2 (attached_detached s overlay) Hs). simpl.
  apply IH. by apply (keeps_state _ _ _ (step_keeps_detached e)).
Qed.

Lemma detachments_once l : ∀ s,
  (length (detachments overlay modalElement l s) ≤ 1)%nat ∧
  Forall (λ e, ∃ a, e = Completion a) (detachments overlay modalElement l s).
Proof.
  induction l as [|e l IH]; intros s; [by split; [simpl; lia|]|].
  simpl. destruct (attached s overlay) eqn:Ha; simpl; [|apply IH].
  destruct (attached (modal_step overlay modalElement e s).2 overlay) eqn:Ha';
    simpl; [apply IH|].
  rewrite detachments_detached by by apply attached_detached.
  split; [simpl; lia|]. apply Forall_singleton.
  destruct e as [|a]; [|by eexists].
  unfold attached in *. rewrite close_request_keeps_parent in Ha'. congruence.
Qed.

Lemma run_detached l : ∀ s,
  detached overlay s → detached overlay (modal_run overlay modalElement l s).
Proof.
  induction l as [|e l IH]; intros s Hs; [done|]. simpl.
  apply IH. by apply (keeps_state _ _ _ (step_keeps_detached e)).
Qed.

Lemma run_pending a0 l : ∀ s,
  detached overlay s ∨ pending overlay a0 s →
  detached overlay (modal_run overlay modalElement l s) ∨
  pending overlay a0 (modal_run overlay modalElement l s).
Proof.
  induction l as [|e l IH]; intros s Hs; [done|]. simpl. apply IH.
  destruct Hs as [Hs|Hs].
  { left. by apply (keeps_state _ _ _ (step_keeps_detached e)). }
  destruct e as [|a].
  - right. by apply (keeps_state _ _ _ (call_keeps_pending a0 _ _)).
  - destruct (decide (a = a0)) as [->|Hne].
    + left. by apply finish_pending_detaches.
    + right. by apply (keeps_state _ _ _ (finish_other_keeps_pending a0 a Hne)).
Qed.
End one_modal.

(** C7, as amended.  A close request made while the overlay is attached
    (also a second one, made while the exit animation runs) starts the two
    exit animations and sets the completion handler, and does not detach
    the overlay; a close request made once the overlay is detached does
    nothing.  Along any sequence of close requests and completion
    notifications that follows the first request, the overlay is detached
    at most once, at a completion notification, and it is detached once
    the first exit animation has completed. *)
Theorem close_request_repeats_detachment_does_not
    (overlay modalElement : nid) (s : runtime) (l : list modal_event) :
  attached s overlay = true →
  let s1 := (modal_step overlay modalElement CloseRequest s).2 in
  (∀ s', attached s' overlay = true →
     modal_step overlay modalElement CloseRequest s'
     = (Some (), closing overlay modalElement s')) ∧
  (∀ s', attached s' overlay = false →
     modal_step overlay modalElement CloseRequest s' = (Some (), s')) ∧
  (length (detachments overlay modalElement l s1) ≤ 1)%nat ∧
  Forall (λ e, ∃ a, e = Completion a)
    (detachments overlay modalElement l s1) ∧
  attached
    (modal_run overlay modalElement
       (l ++ [Completion (length (animations (doc s)))]) s1) overlay = false.
Proof.
  intros Ha s1.
  split; [|split; [|split; [|split]]].
  - intros s' Hs'. simpl. by rewrite cleanup_eq, Hs'.
  - intros s' Hs'. simpl. by rewrite cleanup_eq, Hs'.
  - apply detachments_once.
  - apply detachments_once.
  - apply attached_detached. unfold modal_run. rewrite foldl_app. simpl.
    fold (modal_run overlay modalElement l s1).
    assert (Hs1 : pending overlay (length (animations (doc s))) s1).
    { unfold s1. simpl. rewrite cleanup_eq, Ha.
      exists (Animation overlay fadeOut exitTiming (Some (OnFinish overlay))
                false).
      split; [|done]. simpl.
      rewrite lookup_app_r by done. by rewrite Nat.sub_diag. }
    destruct (run_pending overlay modalElement _ l s1 (or_intror Hs1))
      as [Hd|Hp].
    + by apply (keeps_state _ _ _ (finish_keeps_detached overlay _)).
    + by apply finish_pending_detaches.
Qed.

(** ** Documents in which the dismiss button is out of reach *)

Section sealed.
Context (B : gset nid) (D : gset nid) (X : list animation).
Let I := sealed_doc B D X.

Lemma update_node_sealed x f :
  (x ∉ B → ∀ e, Forall (λ l, quiet l.2) (listeners e) →
                Forall (λ l, quiet l.2) (listeners (f e))) →
  (∀ e q, parentNode (f e) = Some q → parentNode e = Some q ∨ q ∉ B) →
  (x ∈ B → ∀ e, parentNode e = None → parentNode (f e) = None) →
  keeps I (update_node x f).
Proof.
  intros Hl Hp Hb. apply keeps_modify.
  intros s ((Hbody & Hne & Hq & Hpar & Hbp) & HD & HX).
  unfold I, sealed_doc, sealed.
  cbn [with_doc doc nodes animations]. rewrite dom_alter_L.
  split; [|done].
  split; [done|]. split; [done|]. split; [|split].
  - intros y e Hy Hyb. apply lookup_alter_Some in Hy
      as [(<- & e0 & He0 & ->)|[_ Hy]]; eauto.
  - intros y e q Hy Hyq. apply lookup_alter_Some in Hy
      as [(<- & e0 & He0 & ->)|[_ Hy]]; [|eauto].
    destruct (Hp _ _ Hyq); eauto.
  - intros b e HbB Hy. apply lookup_alter_Some in Hy
      as [(<- & e0 & He0 & ->)|[_ Hy]]; eauto.
Qed.

(** Changes that touch neither the listeners nor the parent. *)
Lemma update_node_fields x f :
  (∀ e, listeners (f e) = listeners e ∧ parentNode (f e) = parentNode e) →
  keeps I (update_node x f).
Proof.
  intros Hf. apply update_node_sealed.
  - intros _ e. by rewrite (proj1 (Hf e)).
  - intros e q. rewrite (proj2 (Hf e)). auto.
  - intros _ e. by rewrite (proj2 (Hf e)).
Qed.

Lemma update_node_orphan x : keeps I (update_node x (with_parent None)).
Proof. by apply update_node_sealed. Qed.

Lemma update_node_adopted x p :
  x ∉ B → p ∉ B → keeps I (update_node x (with_parent (Some p))).
Proof.
  intros Hx Hp. apply update_node_sealed; [done| |done].
  simpl. intros e q [= <-]. by right.
Qed.

Lemma css_doc d s : doc (css d s).2 = doc s.
Proof.
  rewrite css_eq. destruct (processedStyles d s); [|done].
  destruct (styleCache (engine s) !! _); [done|].
  by destruct (accepts s _).
Qed.

Lemma css_sealed d : keeps I (css d).
Proof.
  intros s Hs. pose proof (css_doc d s) as E.
  destruct (css d s) as [[c|] s1]; simpl in E;
    unfold I, sealed_doc, sealed; by rewrite E.
Qed.

Lemma log_host_sealed c : keeps I (log_host c).
Proof. by apply keeps_modify. Qed.

Lemma removeChild_sealed p c : keeps I (removeChild p c).
Proof.
  unfold removeChild. repeat keeps_step.
  - by apply update_node_fields.
  - apply update_node_orphan.
Qed.

Lemma appendChild_sealed p c :
  p ∉ B → (∀ n, c = CElem n → n ∉ B) → keeps I (appendChild p c).
Proof.
  intros Hp Hc. unfold appendChild. destruct c as [text|n].
  - by apply update_node_fields.
  - repeat keeps_step; try apply removeChild_sealed.
    + by apply update_node_fields.
    + apply update_node_adopted; auto.
Qed.

Lemma set_textContent_sealed n text : keeps I (set_textContent n text).
Proof.
  unfold set_textContent.
  repeat keeps_step;
    first [by apply update_node_fields | apply update_node_orphan].
Qed.

Lemma call_quiet_sealed f : ∀ a, quiet f → keeps I (call f a).
Proof.
  revert f. fix IH 1. intros [tag|v|o m|o] a Hf; simpl in *; try done.
  - apply log_host_sealed.
  - destruct a; repeat keeps_step; by apply IH.
Qed.

Lemma apply_rest_sealed n kv : tame kv.2 → keeps I (apply_rest n kv).
Proof.
  destruct kv as [key value]. simpl. intros Hv. unfold apply_rest.
  destruct value; simpl; try by apply update_node_fields.
  repeat keeps_step.
  - apply update_node_sealed; [|auto|done].
    intros _ e He. simpl. apply Forall_app. split; [done|].
    by apply Forall_singleton.
  - by apply call_quiet_sealed.
  - by apply update_node_fields.
Qed.

Lemma keeps_forEach_Forall {A} (P : runtime → Prop) (f : A → M ()) l :
  Forall (λ a, keeps P (f a)) l → keeps P (forEach f l).
Proof.
  induction 1; simpl; [apply keeps_ret|]. by apply keeps_bind.
Qed.

Lemma append_entry_sealed n v :
  n ∉ B → avoids B v → keeps I (append_entry n v).
Proof.
  intros Hn Hv. unfold append_entry. repeat keeps_step;
    apply appendChild_sealed; simpl in *; congruence.
Qed.
End sealed.

Lemma ensures_bind_keeps {A B} (P : runtime → Prop) (m : M A) (f : A → M B)
    (Q : B → runtime → Prop) :
  keeps P m → (∀ a, ensures P (f a) Q (λ _, True)) →
  ensures P (m ≫= f) Q (λ _, True).
Proof.
  intros Hm Hf. eapply ensures_bind; [|exact Hf].
  eapply ensures_weaken; [exact Hm|done..].
Qed.

Lemma ensures_pure {A} (φ : Prop) (P : runtime → Prop) (m : M A) Q R :
  (φ → ensures P m Q R) → ensures (λ s, φ ∧ P s) m Q R.
Proof. intros H s [Hφ Hs]. by apply H. Qed.

Lemma ensures_result {A} (P : runtime → Prop) (m : M A) Q R s a s' :
  ensures P m Q R → P s → m s = (Some a, s') → Q a s'.
Proof. intros Hm Hs E. specialize (Hm s Hs). by rewrite E in Hm. Qed.

Lemma fresh_not_elem (D : gset nid) : fresh D ∉ D.
Proof. apply is_fresh. Qed.

Lemma document_createElement_sealed B D X tag :
  ensures (sealed_doc B D X) (document_createElement tag)
    (λ n s', n = fresh D ∧ sealed_doc B ({[n]} ∪ D) X s') (λ _, True).
Proof.
  intros s ((Hbody & Hne & Hq & Hpar & Hbp) & HD & HX).
  unfold document_createElement. destruct (validName _ _); [|done].
  cbn [with_doc doc nodes animations].
  rewrite HD. split; [done|].
  pose proof (fresh_not_elem D) as Hf.
  assert (Hnone : nodes (doc s) !! fresh D = None).
  { apply not_elem_of_dom. by rewrite HD. }
  unfold sealed_doc, sealed. cbn [with_doc doc nodes animations].
  rewrite dom_insert_L, HD. split; [|done].
  split; [set_solver|]. split; [done|]. split; [|split].
  - intros x e Hx Hxb. apply lookup_insert_Some in Hx as [[<- <-]|[_ Hx]];
      [by apply Forall_nil|eauto].
  - intros x e q Hx. apply lookup_insert_Some in Hx as [[<- <-]|[_ Hx]];
      [done|eauto].
  - intros b e HbB Hx. apply lookup_insert_Some in Hx as [[_ <-]|[_ Hx]];
      [done|eauto].
Qed.

Lemma createElement_sealed B D X tag props :
  Forall (λ kv, tame kv.2) (Props.rest props) →
  (appends (Props.children props) = true →
     fresh D ∉ B ∧ children_avoid B (Props.children props)) →
  ensures (sealed_doc B D X) (createElement tag props)
    (λ n s', n = fresh D ∧ sealed_doc B ({[n]} ∪ D) X s') (λ _, True).
Proof.
  intros Hrest Hch. unfold createElement.
  eapply ensures_bind; [apply document_createElement_sealed|].
  intros n. apply ensures_pure. intros ->.
  set (n := fresh D) in *. set (D' := {[n]} ∪ D).
  apply ensures_bind_keeps; [|intros _].
  { unfold classList_add. repeat keeps_step;
      first [apply css_sealed | by apply update_node_fields]. }
  apply ensures_bind_keeps; [|intros _].
  { unfold set_className. repeat keeps_step; by apply update_node_fields. }
  apply ensures_bind_keeps; [|intros _].
  { unfold assign_style. repeat keeps_step; by apply update_node_fields. }
  apply ensures_bind_keeps; [|intros _].
  { unfold assign_dataset. repeat keeps_step; by apply update_node_fields. }
  apply ensures_bind_keeps; [|intros _].
  { apply keeps_forEach_Forall. eapply Forall_impl; [exact Hrest|].
    intros kv Hkv. by apply apply_rest_sealed. }
  apply ensures_bind_keeps; [|intros _; by apply ensures_ret].
  destruct (Props.children props) as [| |c|r|text|f|c|items];
    cbn [truthy appends children_avoid] in *.
  1-6: repeat keeps_step; apply set_textContent_sealed.
  - destruct Hch as [Hn Hc]; [done|].
    apply appendChild_sealed; [done|]. by intros ? [= <-].
  - destruct Hch as [Hn Hc]; [done|].
    apply keeps_forEach_Forall. eapply Forall_impl; [exact Hc|].
    intros v Hv. by apply append_entry_sealed.
Qed.

Lemma only_logged_refl s : only_logged s s.
Proof. done. Qed.

Lemma call_quiet_only_logged s0 f : ∀ a,
  quiet f → keeps (only_logged s0) (call f a).
Proof.
  revert f. fix IH 1. intros [tag|v|o m|o] a Hf; simpl in *; try done.
  - by apply keeps_modify.
  - destruct a; repeat keeps_step; by apply IH.
Qed.

Lemma sealed_only_logged B s s' :
  only_logged s s' → sealed B s → sealed B s'.
Proof. intros (_ & _ & E & _). unfold sealed. by rewrite E. Qed.

Lemma parent_of_only_logged s s' x :
  only_logged s s' → parent_of s' x = parent_of s x.
Proof. intros (_ & _ & E & _). unfold parent_of, node_at. by rewrite E. Qed.

Lemma path_avoids B s : sealed B s →
  ∀ fuel t, t ∉ B → Forall (λ x, x ∉ B) (path fuel s t).
Proof.
  intros (_ & _ & _ & Hpar & _). induction fuel as [|fuel IH]; intros t Ht.
  - constructor.
  - simpl. constructor; [done|].
    unfold parent_of, node_at.
    destruct (nodes (doc s) !! t) as [e|] eqn:He; simpl; [|constructor].
    destruct (parentNode e) as [q|] eqn:Hq; [|constructor].
    apply IH. by apply (Hpar _ _ _ He).
Qed.

Lemma sealed_not_connected B s b : sealed B s → b ∈ B → ¬ connected s b.
Proof.
  intros (Hbody & Hne & _ & _ & Hbp) Hb. unfold connected, event_path.
  destruct (size (nodes (doc s))) as [|k] eqn:Hk.
  - done.
  - simpl. assert (parent_of s b = None) as ->.
    { unfold parent_of, node_at.
      destruct (nodes (doc s) !! b) as [e|] eqn:He; [|done]. simpl. eauto. }
    simpl. intros [= ->]. done.
Qed.

Lemma deliver_click_quiet B s0 t x :
  sealed B s0 → x ∉ B → keeps (only_logged s0) (deliver_click t x).
Proof.
  intros Hs0 Hx s Hs.
  pose proof (sealed_only_logged B s0 s Hs Hs0) as (_ & _ & Hq & _).
  unfold deliver_click, mbind, M_bind. simpl.
  unfold node_at.
  destruct (nodes (doc s) !! x) as [e|] eqn:He; simpl; [|done].
  specialize (Hq x e He Hx).
  apply (keeps_forEach_Forall (only_logged s0)); [|done].
  eapply Forall_impl; [exact Hq|]. intros l Hl. simpl in Hl.
  repeat keeps_step. by apply call_quiet_only_logged.
Qed.

(** A click on a node of a document in which [B] is sealed off reaches
    quiet listeners only. *)
Lemma click_sealed B s t :
  sealed B s → connected s t → only_logged s (click t s).2.
Proof.
  intros Hs Ht. unfold click, mbind, M_bind. simpl.
  apply (keeps_state (only_logged s)); [|done].
  apply keeps_forEach_Forall.
  eapply Forall_impl;
    [apply (path_avoids B s Hs); intros Hb;
       by apply (sealed_not_connected B s t)|].
  intros x Hx. by apply (deliver_click_quiet B).
Qed.

(** ** The modal without a title *)

(** What [document.createElement] has done when it returns. *)
Lemma document_createElement_Some tag s n s1 :
  document_createElement tag s = (Some n, s1) →
  validName (surface s) tag = true ∧
  n = fresh (dom (nodes (doc s))) ∧
  s1 = with_doc (λ d, Document (<[n := blank (Js.asciiLowerCase tag)]> (nodes d))
                        (animations d) (hostLog d)) s.
Proof.
  unfold document_createElement. destruct (validName _ _); [|done].
  by intros [= <- <-].
Qed.

Lemma bind_Some {A B} (m : M A) (f : A → M B) s r s' :
  (m ≫= f) s = (Some r, s') →
  ∃ a s1, m s = (Some a, s1) ∧ f a s1 = (Some r, s').
Proof.
  unfold mbind, M_bind. destruct (m s) as [[a|] s1]; [eauto|done].
Qed.

Lemma plain_sealed B s :
  plain_document s → B ## dom (nodes (doc s)) → sealed B s.
Proof.
  intros [Hbody Hp] Hdisj.
  split; [done|]. split; [set_solver|].
  split; [|split].
  - intros x e Hx _. by apply (Hp x e).
  - intros x e q Hx Hq. apply (Hp x e Hx) in Hq. set_solver.
  - intros b e Hb He. destruct (Hdisj b Hb). apply elem_of_dom. eauto.
Qed.

Lemma host_value_tame D v : host_value D v → tame v.
Proof. by destruct 1. Qed.

Lemma host_value_avoids D B v : B ## D → host_value D v → avoids B v.
Proof. intros Hb. destruct 1; simpl; try done. set_solver. Qed.

Lemma host_value_children_avoid D B v :
  B ## D → host_value D v → children_avoid B v.
Proof.
  intros Hb. destruct 1 as [| | | | | |n Hn|l Hl]; simpl; try done.
  - set_solver.
  - eapply Forall_impl; [exact Hl|]. intros v. by apply host_value_avoids.
Qed.

Lemma falsy_not_appends v : truthy v = false → appends v = false.
Proof. by destruct v. Qed.

Lemma update_node_lookup x f s :
  nodes (doc (update_node x f s).2) !! x = f <$> nodes (doc s) !! x.
Proof. simpl. apply lookup_alter_eq. Qed.

Lemma update_node_lookup_ne x y f s :
  x ≠ y → nodes (doc (update_node x f s).2) !! y = nodes (doc s) !! y.
Proof. intros. simpl. by apply lookup_alter_ne. Qed.

Lemma update_node_dom x f s :
  dom (nodes (doc (update_node x f s).2)) = dom (nodes (doc s)).
Proof. simpl. apply dom_alter_L. Qed.

Lemma removeChild_dom p c s :
  dom (nodes (doc (removeChild p c s).2)) = dom (nodes (doc s)).
Proof. rewrite removeChild_eq. simpl. by rewrite !dom_alter_L. Qed.

Lemma appendChild_parent p n s :
  n ∈ dom (nodes (doc s)) →
  parent_of (appendChild p (CElem n) s).2 n = Some p.
Proof.
  intros Hn.
  assert (∀ s1, n ∈ dom (nodes (doc s1)) →
    parent_of (update_node n (with_parent (Some p))
                 (update_node p (with_children (λ l, l ++ [CElem n])%list) s1).2).2 n
    = Some p) as Hfinal.
  { intros s1 Hs1. unfold parent_of, node_at. rewrite update_node_lookup.
    rewrite <- (update_node_dom p (with_children (λ l, l ++ [CElem n])%list))
      in Hs1.
    apply elem_of_dom in Hs1 as [e He]. by rewrite He. }
  unfold appendChild, mbind, M_bind, get_state.
  destruct (parent_of s n) as [q|].
  - rewrite removeChild_eq. apply Hfinal. simpl. by rewrite !dom_alter_L.
  - by apply Hfinal.
Qed.

(** ** What keeps a node and its tag *)

Section node_frame.
Context (x : nid) (name : string).
Let P : runtime → Prop := λ s,
  ∃ e, nodes (doc s) !! x = Some e ∧ localName e = name.

Lemma update_node_keeps_tag y f :
  (∀ e, localName (f e) = localName e) → keeps P (update_node y f).
Proof.
  intros Hf. apply keeps_modify. intros s (e & He & Hn). unfold P. simpl.
  destruct (decide (y = x)) as [->|Hne].
  - exists (f e). rewrite lookup_alter_eq, He. by rewrite Hf.
  - exists e. by rewrite lookup_alter_ne.
Qed.

Lemma doc_keeps_tag {A} (m : M A) :
  (∀ s, nodes (doc (m s).2) = nodes (doc s)) → keeps P m.
Proof.
  intros Hm s Hs. specialize (Hm s).
  destruct (m s) as [[a|] s1]; unfold P; simpl in *; by rewrite Hm.
Qed.

Lemma css_keeps_tag d : keeps P (css d).
Proof. apply doc_keeps_tag. intros s. by rewrite css_doc. Qed.

Lemma document_createElement_keeps_tag tag :
  keeps P (document_createElement tag).
Proof.
  intros s (e & He & Hn). unfold document_createElement.
  destruct (validName _ _); [|by exists e].
  exists e. split; [|done]. simpl.
  rewrite lookup_insert_ne; [done|]. intros E.
  apply (fresh_not_elem (dom (nodes (doc s)))). rewrite E.
  apply elem_of_dom. eauto.
Qed.

Ltac prim :=
  first [ apply update_node_keeps_tag; intros; reflexivity
        | apply css_keeps_tag | apply document_createElement_keeps_tag
        | apply doc_keeps_tag; intros; reflexivity ].

Ltac go := repeat first [ keeps_step | prim ].

Lemma removeChild_keeps_tag p c : keeps P (removeChild p c).
Proof. unfold removeChild. go. Qed.

Lemma appendChild_keeps_tag p c : keeps P (appendChild p c).
Proof. unfold appendChild. go; try apply removeChild_keeps_tag. Qed.

Lemma set_textContent_keeps_tag n t : keeps P (set_textContent n t).
Proof. unfold set_textContent. go. Qed.

Lemma animate_keeps_tag e k o : keeps P (animate e k o).
Proof. unfold animate. go. Qed.

Lemma cleanup_keeps_tag o m : keeps P (cleanup o m).
Proof. unfold cleanup. go; try apply animate_keeps_tag. Qed.

Lemma on_finish_keeps_tag o : keeps P (on_finish o).
Proof. unfold on_finish. go; try apply removeChild_keeps_tag. Qed.

Lemma call_keeps_tag f : ∀ a, keeps P (call f a).
Proof.
  revert f. fix IH 1. intros [tag|v|o m|o] a; simpl.
  - unfold log_host. prim.
  - destruct a; go; apply IH.
  - apply cleanup_keeps_tag.
  - apply on_finish_keeps_tag.
Qed.

Lemma apply_rest_keeps_tag n kv : keeps P (apply_rest n kv).
Proof.
  unfold apply_rest, addEventListener, set_property. destruct kv.
  go; apply call_keeps_tag.
Qed.

Lemma append_entry_keeps_tag n c : keeps P (append_entry n c).
Proof. unfold append_entry. go; apply appendChild_keeps_tag. Qed.

Lemma createElement_steps_keep_tag tag props :
  keeps P (createElement tag props).
Proof.
  unfold createElement, classList_add, set_className, assign_style,
    assign_dataset.
  go; first [ apply set_textContent_keeps_tag | apply appendChild_keeps_tag
            | apply apply_rest_keeps_tag | apply append_entry_keeps_tag ].
Qed.
End node_frame.

(** The node [createElement] returns is a node of the document, created
    for the tag. *)
Lemma createElement_creates tag props s n s' :
  createElement tag props s = (Some n, s') →
  ∃ e, nodes (doc s') !! n = Some e ∧ localName e = Js.asciiLowerCase tag.
Proof.
  unfold createElement. intros H.
  apply bind_Some in H as (n' & s1 & H1 & H).
  assert (∃ e, nodes (doc s1) !! n' = Some e
               ∧ localName e = Js.asciiLowerCase tag) as Hs1.
  { apply document_createElement_Some in H1 as (_ & -> & ->).
    exists (blank (Js.asciiLowerCase tag)). simpl.
    by rewrite lookup_insert_eq. }
  assert (n = n') as ->.
  { repeat (apply bind_Some in H as (? & ? & _ & H)). by injection H. }
  revert Hs1.
  match type of H with ?m _ = _ =>
    assert (keeps (λ s, ∃ e, nodes (doc s) !! n' = Some e
                             ∧ localName e = Js.asciiLowerCase tag) m)
      as Hk
  end.
  { unfold classList_add, set_className, assign_style, assign_dataset.
    repeat keeps_step;
      first [ apply update_node_keeps_tag; intros; reflexivity
            | apply css_keeps_tag | apply set_textContent_keeps_tag
            | apply appendChild_keeps_tag | apply apply_rest_keeps_tag
            | apply append_entry_keeps_tag ]. }
  intros Hs1. apply (keeps_state _ _ _ Hk) in Hs1. by rewrite H in Hs1.
Qed.

Lemma fresh_ne (D : gset nid) x : x ∈ D → fresh D ≠ x.
Proof. intros Hx E. apply (fresh_not_elem D). by rewrite E. Qed.

Lemma keeps_result {A} (P : runtime → Prop) (m : M A) s r s' :
  keeps P m → P s → m s = (r, s') → P s'.
Proof.
  intros Hm Hs E. apply (keeps_state P m s Hm) in Hs. by rewrite E in Hs.
Qed.

(** The library never changes the tag of a node. *)
Ltac keeps_tag :=
  unfold set_property, addEventListener;
  repeat first
    [ keeps_step
    | apply createElement_steps_keep_tag
    | apply appendChild_keeps_tag
    | apply animate_keeps_tag
    | apply update_node_keeps_tag; intros; reflexivity ].

(** What building an open modal without a title leaves behind: the modal
    element [m], its overlay [ov] attached to [body], and the title element
    [t] and the dismiss button [b] sealed off. *)
Lemma untitled_modal_built (s : runtime) (p : ModalProps.t) r s' :
  plain_document s →
  host_props (dom (nodes (doc s))) p →
  truthy (ModalProps.title p) = false →
  truthy (ModalProps.isOpen p) = true →
  Modal p s = (Some r, s') →
  ∃ m ov b t,
    r = VNode m ∧
    sealed {[b; t]} s' ∧
    parent_of s' ov = Some body ∧
    (∃ e, node_at s' b = Some e ∧ localName e = "button" ∧
          ("click", Cleanup ov m) ∈ listeners e) ∧
    (∃ e, node_at s' t = Some e ∧ localName e = "h3") ∧
    (∃ e, node_at s' m = Some e ∧
          properties e !! "cleanup" = Some (VFun (Cleanup ov m))).
Proof.
  intros Hplain (Htitle & Hcontent & Hfooter & HonClose & Hchildren & Hrest)
    Hfalsy Hopen HM.
  unfold Modal in HM. rewrite Hopen, Hfalsy in HM. cbn [negb] in HM.
  set (D0 := dom (nodes (doc s))) in *.
  set (b := fresh D0).
  set (D1 := {[b]} ∪ D0).
  set (t := fresh D1).
  set (B := ({[b; t]} : gset nid)).
  assert (Hb0 : b ∉ D0) by apply fresh_not_elem.
  assert (Ht1 : t ∉ D1) by apply fresh_not_elem.
  assert (HB0 : B ## D0) by set_solver.
  assert (Hs0 : sealed_doc B D0 (animations (doc s)) s).
  { split; [by apply plain_sealed|done]. }
  (* the dismiss button *)
  apply bind_Some in HM as (b' & s1 & H1 & HM).
  pose proof (createElement_creates _ _ _ _ _ H1) as Hbtag.
  eapply ensures_result in H1; [|apply createElement_sealed|exact Hs0].
  2:{ repeat constructor; simpl. by apply (host_value_tame D0). }
  2:{ done. }
  destruct H1 as [-> Hs1]. fold b D1 in HM, Hs1, Hbtag.
  match type of HM with ?k _ = _ =>
    assert (keeps (λ s, ∃ e, nodes (doc s) !! b = Some e ∧
                             localName e = "button") k) as Hk
      by keeps_tag
  end.
  pose proof (keeps_result _ _ _ _ _ Hk Hbtag HM) as Hbfinal.
  clear Hk Hbtag.
  (* the title *)
  apply bind_Some in HM as (t' & s2 & H2 & HM).
  pose proof (createElement_creates _ _ _ _ _ H2) as Httag.
  eapply ensures_result in H2; [|apply createElement_sealed|exact Hs1].
  2:{ constructor. }
  2:{ simpl. by rewrite falsy_not_appends. }
  destruct H2 as [-> Hs2]. fold t in HM, Hs2, Httag.
  set (D2 := {[t]} ∪ D1) in *.
  assert (HB2 : B ⊆ D2) by set_solver.
  match type of HM with ?k _ = _ =>
    assert (keeps (λ s, ∃ e, nodes (doc s) !! t = Some e ∧
                             localName e = "h3") k) as Hk
      by keeps_tag
  end.
  pose proof (keeps_result _ _ _ _ _ Hk Httag HM) as Htfinal.
  clear Hk Httag.
  (* no header *)
  apply bind_Some in HM as (hd & s2' & Hhd & HM).
  injection Hhd as <- <-.
  (* the content *)
  apply bind_Some in HM as (c & s3 & H3 & HM).
  eapply ensures_result in H3; [|apply createElement_sealed|exact Hs2].
  2:{ constructor. }
  2:{ intros _. simpl. split.
      - pose proof (fresh_not_elem D2). set_solver.
      - unfold or_else. destruct (truthy (ModalProps.content p));
          by apply (host_value_children_avoid D0). }
  destruct H3 as [-> Hs3].
  set (c := fresh D2) in *. set (D3 := {[c]} ∪ D2) in *.
  assert (HB3 : B ⊆ D3) by set_solver.
  assert (Hc : c ∉ B).
  { pose proof (fresh_not_elem D2). set_solver. }
  (* the footer *)
  apply bind_Some in HM as (ft & s4 & H4 & HM).
  assert (∃ D4, sealed_doc B D4 (animations (doc s)) s4 ∧ B ⊆ D4 ∧
                avoids B ft) as (D4 & Hs4 & HB4 & Hft).
  { destruct (truthy (ModalProps.footer p)).
    - apply bind_Some in H4 as (f & s4' & H4 & Hret).
      injection Hret as <- <-.
      eapply ensures_result in H4; [|apply createElement_sealed|exact Hs3].
      2:{ constructor. }
      2:{ intros _. simpl. split.
          - pose proof (fresh_not_elem D3). set_solver.
          - by apply (host_value_children_avoid D0). }
      destruct H4 as [-> Hs4]. eexists. split; [exact Hs4|].
      split; [set_solver|]. simpl.
      pose proof (fresh_not_elem D3). set_solver.
    - injection H4 as <- <-. by exists D3. }
  clear H4.
  (* the modal element *)
  apply bind_Some in HM as (m & s5 & H5 & HM).
  eapply ensures_result in H5; [|apply createElement_sealed|exact Hs4].
  2:{ simpl. eapply Forall_impl; [exact Hrest|].
      intros kv. apply host_value_tame. }
  2:{ intros _. simpl. split.
      - pose proof (fresh_not_elem D4). set_solver.
      - apply Forall_forall. intros v [_ Hv]%list_elem_of_filter.
        apply elem_of_cons in Hv as [->|Hv]; [done|].
        apply elem_of_cons in Hv as [->|Hv]; [done|].
        by apply list_elem_of_singleton in Hv as ->. }
  destruct H5 as [-> Hs5].
  set (m := fresh D4) in *. set (D5 := {[m]} ∪ D4) in *.
  assert (HB5 : B ⊆ D5) by set_solver.
  assert (Hm : m ∉ B).
  { pose proof (fresh_not_elem D4). set_solver. }
  (* the overlay *)
  apply bind_Some in HM as (ov & s6 & H6 & HM).
  eapply ensures_result in H6; [|apply createElement_sealed|exact Hs5].
  2:{ repeat constructor. simpl.
      destruct HonClose; simpl; done. }
  2:{ intros _. split; [|done].
      pose proof (fresh_not_elem D5). set_solver. }
  destruct H6 as [-> Hs6].
  set (ov := fresh D5) in *. set (D6 := {[ov]} ∪ D5) in *.
  assert (Hov : ov ∉ B).
  { pose proof (fresh_not_elem D5). set_solver. }
  assert (Hov6 : ov ∈ dom (nodes (doc s6))).
  { destruct Hs6 as (_ & -> & _). set_solver. }
  (* attached to the body *)
  apply bind_Some in HM as ([] & s7 & H7 & HM).
  assert (Hs7 : sealed_doc B D6 (animations (doc s)) s7).
  { apply (keeps_result _ _ _ _ _
             (appendChild_sealed B D6 _ body (CElem ov)
                (proj1 (proj2 (proj1 Hs6)))
                (λ n E, eq_ind ov (λ x, x ∉ B) Hov n
                          (f_equal (λ c, match c with
                                         | CElem x => x
                                         | CText _ => ov
                                         end) E)))
             Hs6 H7). }
  assert (Hp7 : parent_of s7 ov = Some body).
  { pose proof (appendChild_parent body ov s6 Hov6) as H.
    by rewrite H7 in H. }
  (* the entrance animations *)
  apply bind_Some in HM as (a1 & s8 & H8 & HM).
  apply bind_Some in HM as (a2 & s9 & H9 & HM).
  assert (Hn9 : nodes (doc s9) = nodes (doc s7)).
  { injection H8 as _ <-. by injection H9 as _ <-. }
  (* the cleanup property and the dismiss listener *)
  apply bind_Some in HM as ([] & s10 & H10 & HM).
  apply bind_Some in HM as ([] & s11 & H11 & HM).
  injection HM as <- <-. injection H10 as <-. injection H11 as <-.
  destruct Hs7 as (Hsealed7 & Hdom7 & _).
  assert (Hm9 : m ∈ dom (nodes (doc s9))).
  { rewrite Hn9, Hdom7. set_solver. }
  assert (Hb9 : b ∈ dom (nodes (doc s9))).
  { rewrite Hn9, Hdom7. set_solver. }
  apply elem_of_dom in Hm9 as [em Hem]. apply elem_of_dom in Hb9 as [eb Heb].
  assert (Hsealed9 : sealed_doc B D6 (animations (doc s9)) s9).
  { split; [|by rewrite Hn9]. unfold sealed. by rewrite Hn9. }
  assert (HbB : b ∈ B) by (unfold B; set_solver).
  assert (Hmb : b ≠ m) by (intros E; apply Hm; by rewrite <- E).
  assert (Hovb : ov ≠ b) by (intros E; apply Hov; by rewrite E).
  assert (Hovm : ov ≠ m).
  { apply fresh_ne. unfold D5. set_solver. }
  exists m, ov, b, t. split; [done|]. split; [|split; [|split; [|split]]].
  - assert (Hk1 : keeps (sealed_doc B D6 (animations (doc s9)))
                   (set_property m "cleanup" (VFun (Cleanup ov m)))).
    { apply update_node_fields. intros e. by split. }
    assert (Hk2 : keeps (sealed_doc B D6 (animations (doc s9)))
                   (addEventListener b "click" (Cleanup ov m))).
    { apply update_node_sealed.
      - intros Hb. by destruct Hb.
      - intros e q Hq. by left.
      - intros _ e He. exact He. }
    apply (keeps_state _ _ _ Hk2), (keeps_state _ _ _ Hk1), Hsealed9.
  - unfold parent_of, node_at in *. cbn [update_node set_nodes modify with_doc
      snd doc nodes addEventListener set_property].
    rewrite Hn9.
    rewrite lookup_alter_ne by done.
    rewrite lookup_alter_ne by done. exact Hp7.
  - destruct Hbfinal as (e & He & Htag). exists e. split; [exact He|].
    split; [exact Htag|].
    cbn [update_node set_nodes modify with_doc snd doc nodes addEventListener
         set_property] in He.
    rewrite lookup_alter_eq, lookup_alter_ne, Heb in He by done.
    injection He as <-. simpl. apply elem_of_app. right.
    by apply list_elem_of_singleton.
  - destruct Htfinal as (e & He & Htag). by exists e.
  - eexists. split.
    + unfold node_at. cbn [update_node set_nodes modify with_doc
        snd doc nodes addEventListener set_property].
      rewrite lookup_alter_ne, lookup_alter_eq, Hem by done. reflexivity.
    + simpl. apply lookup_insert_eq.
Qed.

(** An untitled modal closes only through [cleanup].  In a document
    without library closures, [Modal] called with a truthy [isOpen] and a
    falsy [title] returns a modal [m] without a header: the dismiss button
    [b] and the title element [t] are built, but they have no parent and
    are nobody's parent, and no node with the [cleanup] listener is in
    the document.  The overlay [ov] is attached; a click on any node of
    the document changes nothing but the record of host callbacks; and
    the call of [m.cleanup] starts the exit animations. *)
Theorem untitled_modal_closes_only_through_cleanup
    (s : runtime) (p : ModalProps.t) (r : jsval) (s' : runtime) :
  plain_document s →
  host_props (dom (nodes (doc s))) p →
  truthy (ModalProps.title p) = false →
  truthy (ModalProps.isOpen p) = true →
  Modal p s = (Some r, s') →
  ∃ m ov b t,
    r = VNode m ∧
    (∃ e, node_at s' b = Some e ∧ localName e = "button" ∧
          ("click", Cleanup ov m) ∈ listeners e ∧ parentNode e = None) ∧
    (∃ e, node_at s' t = Some e ∧ localName e = "h3" ∧
          parentNode e = None) ∧
    (∀ x e, node_at s' x = Some e →
            parentNode e ≠ Some b ∧ parentNode e ≠ Some t) ∧
    (∀ x e, node_at s' x = Some e →
            ("click", Cleanup ov m) ∈ listeners e → ¬ connected s' x) ∧
    attached s' ov = true ∧
    (∀ x, connected s' x → only_logged s' (click x s').2) ∧
    call_property m "cleanup" s' = (Some (), closing ov m s').
Proof.
  intros Hplain Hhost Htitle Hopen HM.
  destruct (untitled_modal_built s p r s' Hplain Hhost Htitle Hopen HM)
    as (m & ov & b & t & -> & Hsealed & Hparent & (eb & Heb & Hbn & Hl)
        & (et & Het & Htn) & (em & Hem & Hc)).
  assert (Hatt : attached s' ov = true).
  { unfold attached. rewrite Hparent. by apply bool_decide_eq_true_2. }
  pose proof Hsealed as (_ & _ & Hq & Hpar & Horphan).
  exists m, ov, b, t. split; [done|].
  split; [|split; [|split; [|split; [|split; [|split]]]]].
  - exists eb. repeat (split; [done|]). apply (Horphan b); [set_solver|done].
  - exists et. repeat (split; [done|]). apply (Horphan t); [set_solver|done].
  - intros x e Hx. split; intros Hp; apply (Hpar x e _ Hx) in Hp; set_solver.
  - intros x e Hx Hin. destruct (decide (x ∈ ({[b; t]} : gset nid))) as [HB|HB].
    + by apply (sealed_not_connected {[b; t]}).
    + specialize (Hq x e Hx HB). eapply Forall_forall in Hq; [|exact Hin].
      done.
  - done.
  - intros x Hx. by apply (click_sealed {[b; t]}).
  - unfold call_property, mbind, M_bind. simpl. rewrite Hem. simpl.
    rewrite Hc. simpl. by rewrite cleanup_eq, Hatt.
Qed.

(** C6 fails on the code.  A token set in the [colors] object of the value
    [getTheme()] returned shows in the next [getTheme()], and in the theme
    [resetTheme()] restores: the copy shares its category objects with
    the active theme and with [defaultTheme]. *)
Lemma getTheme_copy_shares_the_categories :
  ∃ t' t'' s,
    mutate_returned_theme initial = (Some (t', t''), s) ∧
    token_at (store initial) (activeTheme (store initial)) "colors" "primary"
      = Some (TStr "#4a6cf7") ∧
    token_at (store s) t' "colors" "primary" = Some (TStr "red") ∧
    token_at (store s) t'' "colors" "primary" = Some (TStr "red").
Proof.
  eexists _, _, _. split; [vm_compute; reflexivity|].
  repeat split; vm_compute; reflexivity.
Qed.

(** C7 fails as stated: a second call of [cleanup] while the overlay is
    still attached starts a second exit animation of the overlay. *)
Lemma second_close_request_starts_the_exit_again :
  ∃ s0 s1 s2,
    Modal (openModal VUndefined) initial = (Some (VNode 5%positive), s0) ∧
    call_property 5%positive "cleanup" s0 = (Some (), s1) ∧
    call_property 5%positive "cleanup" s1 = (Some (), s2) ∧
    attached s1 6%positive = true ∧
    length (exit_animations s1 6%positive) = 1 ∧
    length (exit_animations s2 6%positive) = 2.
Proof.
  eexists _, _, _. split; [vm_compute; reflexivity|].
  split; [vm_compute; reflexivity|].
  split; [vm_compute; reflexivity|].
  repeat split; vm_compute; reflexivity.
Qed.

(** C10 fails on the code.  An open modal without a title, built with an
    [onClose] handler on a freshly loaded library: a click on the overlay
    background (the overlay [6] being the target) calls the handler and
    nothing else; no exit animation starts and the overlay stays attached.
    The overlay-click closure calls [onClose] only, where the click on the
    dismiss button of a modal with a title (the button [2], in the
    overlay [7]) runs [onClose] and [cleanup]: the handler is called and
    the exit animation of the overlay starts. *)
Lemma overlay_click_only_calls_onClose :
  (∃ s0 s1 e,
     Modal (openModal (VFun (Host 0))) initial = (Some (VNode 5%positive), s0) ∧
     node_at s0 6%positive = Some e ∧
     listeners e = [("click", HandleOverlayClick (VFun (Host 0)))] ∧
     parentNode e = Some body ∧
     click 6%positive s0 = (Some (), s1) ∧
     hostLog (doc s1) = [Called 0 NoArgs] ∧
     animations (doc s1) = animations (doc s0) ∧
     exit_animations s1 6%positive = [] ∧
     attached s1 6%positive = true) ∧
  (∃ t0 t1 e,
     Modal (titledModal (VFun (Host 0))) initial = (Some (VNode 6%positive), t0) ∧
     node_at t0 2%positive = Some e ∧
     localName e = "button" ∧
     listeners e = [("click", Host 0); ("click", Cleanup 7%positive 6%positive)] ∧
     exit_animations t0 7%positive = [] ∧
     click 2%positive t0 = (Some (), t1) ∧
     hostLog (doc t1) = [Called 0 (WithEvent 2%positive 2%positive)] ∧
     length (exit_animations t1 7%positive) = 1%nat).
Proof.
  split.
  - eexists _, _, _. split; [vm_compute; reflexivity|].
    split; [vm_compute; reflexivity|].
    repeat split; vm_compute; reflexivity.
  - eexists _, _, _. split; [vm_compute; reflexivity|].
    split; [vm_compute; reflexivity|].
    repeat split; vm_compute; reflexivity.
Qed.

(** Whatever the style description and the state, a literal class is all
    the class attribute of the node built holds. *)
Lemma createElement_literal_class_only tag d c s n s' :
  c ≠ "" →
  createElement tag (styledWithClass d c) s = (Some n, s') →
  node_at s' n = Some (with_className c (blank (Js.asciiLowerCase tag))).
Proof.
  intros Hc H. unfold createElement, styledWithClass in H.
  cbn [Props.cssStyles Props.className Props.style Props.dataset Props.rest
       Props.children truthy forEach] in H.
  rewrite bool_decide_eq_false_2 in H by done.
  apply bind_Some in H as (n' & s1 & H1 & H).
  apply document_createElement_Some in H1 as (_ & -> & ->).
  apply bind_Some in H as ([] & s2 & H2 & H).
  apply bind_Some in H2 as (g & s2' & H2 & H2').
  match type of H2 with css _ ?x = _ => pose proof (css_doc d x) as Hd end.
  rewrite H2 in Hd. cbn [snd] in Hd.
  injection H2' as <-.
  unfold set_className, assign_style, update_node, set_nodes, modify, mbind,
    M_bind, mret, M_ret in H. cbn in H. injection H as <- <-.
  unfold node_at. cbn [with_doc doc nodes]. rewrite Hd. cbn [with_doc doc nodes].
  by rewrite !lookup_alter_eq, lookup_insert_eq.
Qed.

(** [getTheme()] copies the top level only: the copy holds the references
    the active theme holds. *)
Lemma getTheme_copies_references s :
  ∃ t s', getTheme s = (Some t, s') ∧
          theme_at (store s') t = theme_at (store s) (activeTheme (store s)) ∧
          objects (store s') = objects (store s).
Proof.
  eexists _, _. split; [reflexivity|]. split; [|done].
  unfold theme_at. simpl. by rewrite lookup_insert_eq.
Qed.

(** The top level of the copy is the host's own: putting another category
    object into it does not show in the active theme. *)
Lemma getTheme_copy_top_level_is_separate s c l :
  is_Some (themes (store s) !! activeTheme (store s)) →
  ∃ t s1 s2,
    getTheme s = (Some t, s1) ∧
    host_set_category t c l s1 = (Some (), s2) ∧
    activeTheme (store s2) = activeTheme (store s) ∧
    theme_at (store s2) (activeTheme (store s2))
    = theme_at (store s) (activeTheme (store s)).
Proof.
  intros Ha. eexists _, _, _. split; [reflexivity|]. split; [reflexivity|].
  split; [done|]. unfold theme_at. simpl.
  assert (fresh (dom (themes (store s))) ≠ activeTheme (store s)) as Hne.
  { intros E. apply (is_fresh (dom (themes (store s)))). rewrite E.
    by apply elem_of_dom. }
  by rewrite !lookup_insert_ne.
Qed.

(** ** Children of the built node *)

Section child_frame.
Context (n : nid).
Let P : runtime → Prop := λ s,
  ∃ e, nodes (doc s) !! n = Some e ∧ childNodes e = [].

Lemma update_node_keeps_childless y f :
  (∀ e, childNodes (f e) = childNodes e) → keeps P (update_node y f).
Proof.
  intros Hf. apply keeps_modify. intros s (e & He & Hn). unfold P. simpl.
  destruct (decide (y = n)) as [->|Hne].
  - exists (f e). rewrite lookup_alter_eq, He. by rewrite Hf.
  - exists e. by rewrite lookup_alter_ne.
Qed.

Lemma css_keeps_childless d : keeps P (css d).
Proof.
  intros s Hs. pose proof (css_doc d s) as E.
  destruct (css d s) as [[c|] s1]; simpl in E; unfold P; by rewrite E.
Qed.

Lemma call_quiet_keeps_childless f : ∀ a, quiet f → keeps P (call f a).
Proof.
  revert f. fix IH 1. intros [tag|v|o m|o] a Hf; simpl in *; try done.
  - by apply keeps_modify.
  - destruct a; repeat keeps_step; by apply IH.
Qed.

Lemma apply_rest_keeps_childless y kv :
  tame kv.2 → keeps P (apply_rest y kv).
Proof.
  destruct kv as [key value]. simpl. intros Hv.
  unfold apply_rest, addEventListener, set_property.
  destruct value; simpl;
    try (apply update_node_keeps_childless; intros; reflexivity).
  repeat keeps_step;
    first [ apply update_node_keeps_childless; intros; reflexivity
          | by apply call_quiet_keeps_childless ].
Qed.

Lemma apply_handler_keeps_childless y kv :
  match kv.2 with
  | VFun _ => Js.startsWith "on" kv.1 = true
  | _ => False
  end → keeps P (apply_rest y kv).
Proof.
  destruct kv as [key value]. simpl. intros Hv.
  unfold apply_rest, addEventListener.
  destruct value; try done. simpl. rewrite Hv.
  apply update_node_keeps_childless. intros; reflexivity.
Qed.
End child_frame.

(** Built without children, a node has no child, when the other props
    are host callbacks or handlers. *)
Lemma createElement_no_child tag props v s n s' :
  truthy v = false →
  Forall (λ kv, keeps (λ s, ∃ e, nodes (doc s) !! n = Some e
                                 ∧ childNodes e = []) (apply_rest n kv))
    (Props.rest props) →
  createElement tag (set_children v props) s = (Some n, s') →
  ∃ e, node_at s' n = Some e ∧ childNodes e = [].
Proof.
  intros Hv Hrest H. unfold createElement in H.
  cbn [set_children Props.children Props.cssStyles Props.className
       Props.style Props.dataset Props.rest] in H. rewrite Hv in H.
  apply bind_Some in H as (n' & s1 & H1 & H).
  assert (∃ e, nodes (doc s1) !! n' = Some e ∧ childNodes e = []) as Hs1.
  { apply document_createElement_Some in H1 as (_ & -> & ->).
    eexists. simpl. by rewrite lookup_insert_eq. }
  assert (n = n') as ->.
  { repeat (apply bind_Some in H as (? & ? & _ & H)). by injection H. }
  match type of H with ?m _ = _ =>
    assert (keeps (λ s, ∃ e, nodes (doc s) !! n' = Some e ∧ childNodes e = [])
              m) as Hk
  end.
  { unfold classList_add, set_className, assign_style.
    repeat (apply keeps_bind; [|intros ?]).
    6: apply keeps_ret.
    6: apply keeps_ret.
    5: { apply keeps_forEach_Forall. eapply Forall_impl; [exact Hrest|].
         by intros kv Hkv. }
    all: repeat keeps_step;
      first [ apply update_node_keeps_childless; intros; reflexivity
            | apply css_keeps_childless ]. }
  exact (keeps_result _ _ _ _ _ Hk Hs1 H).
Qed.

Lemma createElement_childless tag props v s n s' :
  truthy v = false →
  Forall (λ kv, tame kv.2) (Props.rest props) →
  createElement tag (set_children v props) s = (Some n, s') →
  ∃ e, node_at s' n = Some e ∧ childNodes e = [].
Proof.
  intros Hv Hrest. apply createElement_no_child; [done|].
  eapply Forall_impl; [exact Hrest|].
  intros kv Hkv. by apply apply_rest_keeps_childless.
Qed.

(** C9.  A falsy [children] value (the empty string, [0], [null],
    [false], [undefined]) builds the same node, in the same state, as no
    [children] at all, and that node has no child (the other props being
    event handlers: a value assigned to the element, or a [ref]
    callback, may give it children of its own); a non-empty string is the
    only value for which the builder sets the text content; an array or a
    node is appended. *)
Theorem falsy_children_are_no_children (tag : string) (props : Props.t) :
  (∀ v s, truthy v = false →
     createElement tag (set_children v props) s
     = createElement tag (set_children VUndefined props) s) ∧
  (∀ v s n s', truthy v = false →
     only_handlers (Props.rest props) →
     createElement tag (set_children v props) s = (Some n, s') →
     ∃ e, node_at s' n = Some e ∧ childNodes e = []) ∧
  (∀ text s, text ≠ "" →
     createElement tag (set_children (VStr text) props) s
     = (element ← createElement tag (set_children VUndefined props);
        set_textContent element text;; mret element) s) ∧
  (∀ items s,
     createElement tag (set_children (VArr items) props) s
     = (element ← createElement tag (set_children VUndefined props);
        forEach (append_entry element) items;; mret element) s) ∧
  (∀ n s,
     createElement tag (set_children (VNode n) props) s
     = (element ← createElement tag (set_children VUndefined props);
        appendChild element (CElem n);; mret element) s).
Proof.
  split; [|split; [|split; [|split]]].
  - intros v s Hv. rewrite !createElement_children, Hv. reflexivity.
  - intros v s n s' Hv Hrest. apply createElement_no_child; [done|].
    eapply Forall_impl; [exact Hrest|].
    intros kv Hkv. by apply apply_handler_keeps_childless.
  - intros text s Ht. rewrite createElement_children.
    cbn [truthy]. by rewrite bool_decide_eq_false_2.
  - intros items s. by rewrite createElement_children.
  - intros n s. by rewrite createElement_children.
Qed.

Lemma setTheme_one_token_witness :
  ∃ t1 s1 t2 s2,
    setTheme 2%positive (hostPartial initial).2 = (Some t1, s1) ∧
    getTheme s1 = (Some t2, s2) ∧
    token_at (store s2) t2 "colors" "primary" = Some (TStr "#000000") ∧
    ∀ c k, (c, k) ≠ ("colors", "primary") →
      token_at (store s2) t2 c k
      = token_at (store (hostPartial initial).2)
          (activeTheme (store (hostPartial initial).2)) c k.
Proof.
  apply (setTheme_one_token_keeps_the_rest (hostPartial initial).2
           2%positive 7%positive "colors" "primary" (TStr "#000000")).
  - apply list_elem_of_here.
  - refine (bool_decide_unpack _ _). vm_compute. exact I.
  - vm_compute. reflexivity.
  - vm_compute. reflexivity.
Defined.

Lemma same_text_witness :
  ∃ c s1,
    css colorRed initial =
      (match styleCache (engine initial)
             !! hash (cssString [("color", Leaf "red")]) with
       | Some _ => Some c
       | None =>
           if accepts initial (cssString [("color", Leaf "red")])
           then Some c else None
       end, s1) ∧
    css colorRed s1 = (Some c, s1) ∧
    (∀ ds, Forall (λ d, ∃ m, processedStyles d initial = Some m ∧
                             cssString m = cssString [("color", Leaf "red")]) ds →
           css_all ds s1 = (Some (replicate (length ds) c), s1)) ∧
    cssRules s1 =
      (cssRules initial ++
       match styleCache (engine initial)
             !! hash (cssString [("color", Leaf "red")]) with
       | Some _ => []
       | None =>
           if accepts initial (cssString [("color", Leaf "red")])
           then [ruleText c (cssString [("color", Leaf "red")])]
           else []
       end)%list.
Proof.
  apply (same_text_same_class_at_most_one_rule initial colorRed colorRed
           [("color", Leaf "red")] [("color", Leaf "red")]);
    reflexivity.
Defined.

Lemma distinct_hashes_witness :
  ∃ c1 s1 c2 s2,
    css colorRed initial = (Some c1, s1) ∧
    css displayFlex s1 = (Some c2, s2) ∧ c1 ≠ c2.
Proof.
  destruct (distinct_hashes_distinct_classes initial colorRed displayFlex
              [("color", Leaf "red")] [("display", Leaf "flex")]
              (reachable_initial reference) eq_refl eq_refl) as [Hiff Hret].
  destruct Hret as (c1 & s1 & c2 & s2 & E1 & E2);
    [vm_compute; reflexivity|vm_compute; reflexivity|].
  exists c1, s1, c2, s2. split; [exact E1|]. split; [exact E2|].
  intros Heq. apply (Hiff c1 s1 c2 s2 E1 E2) in Heq.
  vm_compute in Heq. discriminate.
Defined.

Lemma stylesheet_classes_unique_witness :
  NoDup (rule_class <$> cssRules (run [DoCss colorRed; DoCss displayFlex] initial)).
Proof.
  apply stylesheet_classes_unique.
  apply (reachable_perform _ (DoCss displayFlex)).
  apply (reachable_perform _ (DoCss colorRed)).
  apply (reachable_initial reference).
Defined.

Lemma close_request_witness :
  let s := (Modal (openModal VUndefined) initial).2 in
  let s1 := (modal_step 6%positive 5%positive CloseRequest s).2 in
  (∀ s', attached s' 6%positive = true →
     modal_step 6%positive 5%positive CloseRequest s'
     = (Some (), closing 6%positive 5%positive s')) ∧
  (∀ s', attached s' 6%positive = false →
     modal_step 6%positive 5%positive CloseRequest s' = (Some (), s')) ∧
  (length (detachments 6%positive 5%positive
             [CloseRequest; Completion 2; CloseRequest] s1) ≤ 1)%nat ∧
  Forall (λ e, ∃ a, e = Completion a)
    (detachments 6%positive 5%positive
       [CloseRequest; Completion 2; CloseRequest] s1) ∧
  attached
    (modal_run 6%positive 5%positive
       ([CloseRequest; Completion 2; CloseRequest]
          ++ [Completion (length (animations (doc s)))]) s1) 6%positive = false.
Proof.
  apply (close_request_repeats_detachment_does_not 6%positive 5%positive
           (Modal (openModal VUndefined) initial).2
           [CloseRequest; Completion 2; CloseRequest]).
  vm_compute. reflexivity.
Defined.

Lemma initial_plain : plain_document initial.
Proof.
  split; [by apply elem_of_dom; eexists|].
  intros x e Hx.
  change (nodes (doc initial)) with ({[ body := blank "body" ]} : gmap nid element)
    in Hx.
  apply lookup_singleton_Some in Hx as [<- <-].
  split; [constructor|]. intros q Hq. discriminate.
Defined.

Lemma untitled_modal_witness :
  let s' := (Modal (openModal (VFun (Host 0))) initial).2 in
  ∃ m ov b t,
    VNode 5%positive = VNode m ∧
    (∃ e, node_at s' b = Some e ∧ localName e = "button" ∧
          ("click", Cleanup ov m) ∈ listeners e ∧ parentNode e = None) ∧
    (∃ e, node_at s' t = Some e ∧ localName e = "h3" ∧
          parentNode e = None) ∧
    (∀ x e, node_at s' x = Some e →
            parentNode e ≠ Some b ∧ parentNode e ≠ Some t) ∧
    (∀ x e, node_at s' x = Some e →
            ("click", Cleanup ov m) ∈ listeners e → ¬ connected s' x) ∧
    attached s' ov = true ∧
    (∀ x, connected s' x → only_logged s' (click x s').2) ∧
    call_property m "cleanup" s' = (Some (), closing ov m s').
Proof.
  apply (untitled_modal_closes_only_through_cleanup initial
           (openModal (VFun (Host 0)))).
  - apply initial_plain.
  - repeat split; constructor.
  - reflexivity.
  - reflexivity.
  - vm_compute. reflexivity.
Defined.

Lemma falsy_children_witness :
  createElement "div" (set_children (VStr "") Props.empty) initial
  = createElement "div" (set_children VUndefined Props.empty) initial ∧
  ∃ e, node_at (createElement "div" (set_children (VNum "0") Props.empty)
                  initial).2 2%positive = Some e ∧ childNodes e = [].
Proof.
  split.
  - apply (proj1 (falsy_children_are_no_children "div" Props.empty)).
    reflexivity.
  - apply (proj1 (proj2 (falsy_children_are_no_children "div" Props.empty))
             (VNum "0") initial).
    + reflexivity.
    + apply Forall_nil_2.
    + vm_compute. reflexivity.
Defined.

Lemma theme_change_witness :
  ∃ m, processedStyles colorRed (resetTheme (css colorRed initial).2).2 = Some m ∧
       "zen-style-1" = zenStyle (uniqueId (engine (css colorRed initial).2)) ∧
       (css colorRed (resetTheme (css colorRed initial).2).2).2
       = minted (cssString m) (resetTheme (css colorRed initial).2).2.
Proof.
  apply (proj2 (proj2 (theme_change_clears_cache (css colorRed initial).2
                         1%positive))
           (resetTheme (css colorRed initial).2).2 (or_intror eq_refl)
           colorRed "zen-style-1").
  vm_compute. reflexivity.
Defined.

(** ** Joining and splitting class names *)

Lemma string_app_assoc (a b c : string) : (a +:+ b) +:+ c = a +:+ b +:+ c.
Proof.
  induction a as [|x a IH]; [done|].
  change (String x ((a +:+ b) +:+ c) = String x (a +:+ b +:+ c)).
  by rewrite IH.
Qed.

Lemma string_app_nil_r (a : string) : a +:+ "" = a.
Proof.
  induction a as [|x a IH]; [done|].
  change (String x (a +:+ "") = String x a). by rewrite IH.
Qed.

Lemma join_cons sep x r :
  r ≠ [] → Js.join sep (x :: r) = x +:+ sep +:+ Js.join sep r.
Proof. by destruct r. Qed.

Lemma join_app sep a b :
  a ≠ [] → b ≠ [] →
  Js.join sep (a ++ b)%list = Js.join sep a +:+ sep +:+ Js.join sep b.
Proof.
  intros Ha Hb. induction a as [|x a IH]; [done|].
  destruct a as [|y a].
  - simpl app at 1. rewrite join_cons by done. done.
  - change ((x :: y :: a) ++ b)%list with (x :: ((y :: a) ++ b))%list.
    rewrite !join_cons by done. rewrite IH by done.
    by rewrite !string_app_assoc.
Qed.

Lemma join_nested sep a b c :
  b ≠ [] →
  Js.join sep (a ++ Js.join sep b :: c)%list = Js.join sep (a ++ b ++ c)%list.
Proof.
  intros Hb.
  assert (Js.join sep (Js.join sep b :: c) = Js.join sep (b ++ c)%list) as E.
  { destruct c as [|z c]; [by rewrite app_nil_r|].
    rewrite join_cons by done. by rewrite join_app. }
  destruct a as [|x a]; [done|].
  rewrite !(join_app sep (x :: a)); [by rewrite E|done| |done|done].
  by destruct b.
Qed.

Lemma join_empty sep l :
  sep ≠ "" → Forall (λ x, x ≠ "") l → Js.join sep l = "" → l = [].
Proof.
  intros Hsep Hl. destruct l as [|x l]; [done|].
  apply Forall_cons in Hl as [Hx _].
  destruct l; simpl; [done|]. by destruct x.
Qed.

(** The truthy arguments of [mergeClasses], rendered. *)
Lemma mergeClasses_pieces xs :
  Forall (λ v, token_truthy v = true → token_text v ≠ "") xs →
  Forall (λ x, x ≠ "")
    (token_text <$> filter (λ v, token_truthy v = true) xs).
Proof.
  intros H. apply Forall_fmap, Forall_forall. intros v Hv.
  apply list_elem_of_filter in Hv as [Ht Hv].
  rewrite Forall_forall in H. by apply H.
Qed.

(** X1.  Calls of [mergeClasses] nest: a result passed as an argument of
    another call counts as the arguments it was made of (every truthy
    argument rendering to some text, as every JavaScript value does). *)
Theorem mergeClasses_nests (xs ys zs : list token) :
  Forall (λ v, token_truthy v = true → token_text v ≠ "") ys →
  mergeClasses (xs ++ TStr (mergeClasses ys) :: zs)
  = mergeClasses (xs ++ ys ++ zs).
Proof.
  intros Hys. unfold mergeClasses at 1 3.
  rewrite !filter_app, filter_cons, !fmap_app.
  pose proof (mergeClasses_pieces ys Hys) as Hp.
  destruct (decide (mergeClasses ys = "")) as [E|E].
  - rewrite decide_False.
    2:{ simpl. rewrite E. by rewrite bool_decide_eq_true_2. }
    apply join_empty in E; [|done|done]. by rewrite E.
  - rewrite decide_True.
    2:{ simpl. by rewrite bool_decide_eq_false_2. }
    rewrite fmap_cons. cbn [token_text]. unfold mergeClasses.
    apply join_nested. intros E'. apply E. unfold mergeClasses.
    by rewrite E'.
Qed.

Lemma mergeClasses_nests_witness :
  mergeClasses [TStr "a"; TStr (mergeClasses [TNull; TStr "b"; TStr "c"]);
                TBool false; TStr "d"]
  = mergeClasses [TStr "a"; TNull; TStr "b"; TStr "c"; TBool false; TStr "d"].
Proof.
  apply (mergeClasses_nests [TStr "a"] [TNull; TStr "b"; TStr "c"]
           [TBool false; TStr "d"]).
  repeat constructor; simpl; intros; discriminate.
Defined.

Lemma split_tokens_word x : ∀ cur rest,
  spaceless x →
  split_tokens cur (x +:+ rest) = split_tokens (cur +:+ x) rest.
Proof.
  induction x as [|c x IH]; intros cur rest Hx.
  - change ("" +:+ rest) with rest. by rewrite string_app_nil_r.
  - apply Forall_cons in Hx as [Hc Hx].
    change (String c x +:+ rest) with (String c (x +:+ rest)).
    cbn [split_tokens]. rewrite Hc. rewrite IH by done.
    by rewrite string_app_assoc.
Qed.

Lemma split_tokens_join l : ∀ cur,
  Forall (λ x, x ≠ "" ∧ spaceless x) l →
  cur ≠ "" →
  split_tokens cur (" " +:+ Js.join " " l) = (cur :: l).
Proof.
  induction l as [|x l IH]; intros cur Hl Hcur.
  - simpl. by rewrite !bool_decide_eq_false_2.
  - apply Forall_cons in Hl as [[Hx Hsp] Hl].
    change (" " +:+ ?r) with (String " " r). cbn [split_tokens].
    change (is_space " ") with true. cbn match.
    rewrite bool_decide_eq_false_2 by done. simpl app. f_equal.
    destruct l as [|y l].
    + simpl Js.join. rewrite <- (string_app_nil_r x) at 1.
      rewrite split_tokens_word by done. simpl.
      by rewrite bool_decide_eq_false_2.
    + rewrite split_tokens_word by done.
      change ("" +:+ x) with x. by apply IH.
Qed.

Lemma split_tokens_joined l :
  Forall (λ x, x ≠ "" ∧ spaceless x) l →
  split_tokens "" (Js.join " " l) = l.
Proof.
  intros Hl. destruct l as [|x l]; [done|].
  pose proof Hl as Hl'. apply Forall_cons in Hl' as [[Hx Hsp] Hl'].
  destruct l as [|y l].
  - simpl Js.join. rewrite <- (string_app_nil_r x) at 1.
    rewrite split_tokens_word by done. simpl.
    by rewrite bool_decide_eq_false_2.
  - rewrite join_cons by done. rewrite split_tokens_word by done.
    change ("" +:+ x) with x. by apply split_tokens_join.
Qed.

(** X2.  Splitting a result of [mergeClasses] at white space, as the
    render surface does with a class attribute, gives back the truthy
    arguments in their order (no argument holding white space). *)
Theorem mergeClasses_split (xs : list token) :
  Forall (λ v, token_truthy v = true →
               token_text v ≠ "" ∧ spaceless (token_text v)) xs →
  split_tokens "" (mergeClasses xs)
  = token_text <$> filter (λ v, token_truthy v = true) xs.
Proof.
  intros H. unfold mergeClasses.
  rewrite split_tokens_joined; [done|].
  apply Forall_fmap, Forall_forall. intros v Hv.
  apply list_elem_of_filter in Hv as [Ht Hv].
  rewrite Forall_forall in H. by apply H.
Qed.

Lemma mergeClasses_split_witness :
  split_tokens ""
    (mergeClasses [TStr "btn"; TBool false; TStr "primary"; TUndefined;
                   TNum "2"])
  = ["btn"; "primary"; "2"].
Proof.
  apply (mergeClasses_split
           [TStr "btn"; TBool false; TStr "primary"; TUndefined; TNum "2"]).
  repeat constructor; simpl; try discriminate; repeat constructor.
Defined.

(** ** The hash reads six characters *)

Lemma filter_all {A} (P : A → Prop) `{∀ x, Decision (P x)} (l : list A) :
  filter P l = l → Forall P l.
Proof.
  induction l as [|x l IH]; [done|].
  rewrite filter_cons. destruct (decide (P x)) as [Hx|Hx].
  - intros [= E]. constructor; auto.
  - intros E. pose proof (length_filter P l) as Hlen.
    rewrite E in Hlen. simpl in Hlen. lia.
Qed.

Lemma list_ascii_of_string_app a b :
  list_ascii_of_string (a +:+ b)
  = (list_ascii_of_string a ++ list_ascii_of_string b)%list.
Proof.
  induction a as [|x a IH]; [done|].
  change (String x a +:+ b) with (String x (a +:+ b)). simpl.
  by rewrite IH.
Qed.

Lemma substring_0_0 s : substring 0 0 s = "".
Proof. by destruct s. Qed.

(** When the base-64 text of the first six characters holds none of the
    characters the hash strips, it is the hash. *)
Lemma hash_six p t :
  String.length p = 6%nat →
  Js.strip_b64_punct (Js.btoa p) = Js.btoa p →
  hash (p +:+ t) = Js.btoa p.
Proof.
  intros Hlen Hp.
  destruct p as [|c1 [|c2 [|c3 [|c4 [|c5 [|c6 [|c7 p]]]]]]]; try done.
  clear Hlen. unfold hash, Js.strip_b64_punct, Js.btoa in *.
  rewrite list_ascii_of_string_app.
  cbn [list_ascii_of_string fmap list_fmap app Js.btoa_bytes] in *.
  assert (E := f_equal list_ascii_of_string Hp).
  rewrite list_ascii_of_string_of_list_ascii in E.
  cbn [list_ascii_of_string] in E. apply filter_all in E.
  repeat (apply Forall_cons in E as [? E]).
  cbn [list_ascii_of_string].
  repeat (rewrite filter_cons_True by done).
  cbn [string_of_list_ascii substring]. by rewrite substring_0_0.
Qed.

(** X3.  [css] tells two rule texts apart by their first six characters
    only (when the base-64 text of these holds no [+] and no [/]): the
    second description gets the class of the first, and no rule of its
    own. *)
Theorem css_reads_six_characters
    (s : runtime) (d1 d2 : styles) (m1 m2 : mapping) (p t1 t2 : string)
    (c : string) (s1 : runtime) :
  processedStyles d1 s = Some m1 →
  processedStyles d2 s = Some m2 →
  String.length p = 6%nat →
  Js.strip_b64_punct (Js.btoa p) = Js.btoa p →
  cssString m1 = p +:+ t1 →
  cssString m2 = p +:+ t2 →
  css d1 s = (Some c, s1) →
  css d2 s1 = (Some c, s1).
Proof.
  intros H1 H2 Hlen Hp E1 E2 Hcss.
  apply (css_again d1 d2 s m1 m2); [done|done| |done].
  by rewrite E1, E2, !hash_six.
Qed.

Lemma css_reads_six_characters_witness :
  css displayBlock (css displayFlex initial).2
  = (Some "zen-style-0", (css displayFlex initial).2).
Proof.
  apply (css_reads_six_characters initial displayFlex displayBlock
           [("display", Leaf "flex")] [("display", Leaf "block")]
           "displa" "y: flex;" "y: block;"); reflexivity.
Defined.

(** ** Invariants of the stylesheet *)

Lemma ascending_snoc (ks : list N) (k : N) :
  ascending ks → Forall (λ x, (x < k)%N) ks → ascending (ks ++ [k]).
Proof.
  intros Hs Hk i j x y Hi Hj Hij.
  apply lookup_app_Some in Hi as [Hi|[Hlen Hi]].
  - apply lookup_app_Some in Hj as [Hj|[_ Hj]]; [by eapply Hs|].
    apply list_lookup_singleton_Some in Hj as [_ <-].
    rewrite Forall_forall in Hk. eapply Hk, list_elem_of_lookup_2, Hi.
  - apply list_lookup_singleton_Some in Hi as [Hi _].
    apply lookup_app_Some in Hj as [Hj%lookup_lt_Some|[_ Hj]]; [lia|].
    apply list_lookup_singleton_Some in Hj as [Hj _]. lia.
Qed.

Lemma css_keeps_numbered d : keeps (λ s, numbered (engine s)) (css d).
Proof.
  intros s (Hlen & ks & Hks & Hs & Hlt). rewrite css_eq.
  destruct (processedStyles d s) as [m|]; [|by split; [|exists ks]].
  destruct (styleCache (engine s) !! _); [by split; [|exists ks]|].
  fold (cssRules s) in Hlen, Hks.
  destruct (accepts s (cssString m));
    unfold numbered, minted, rejected;
    cbn [engine uniqueId styleSheet default id snd].
  - split; [rewrite length_app; simpl; lia|].
    exists (ks ++ [uniqueId (engine s)])%list. split; [|split].
    + rewrite !fmap_app, Hks. cbn [fmap list_fmap].
      by rewrite (rule_class_ruleText (uniqueId (engine s))).
    + by apply ascending_snoc.
    + apply Forall_app. split.
      * eapply Forall_impl; [exact Hlt|]. simpl. lia.
      * constructor; [lia|done].
  - split; [lia|]. exists ks. split; [done|]. split; [done|].
    eapply Forall_impl; [exact Hlt|]. simpl. lia.
Qed.

Lemma reachable_numbered s : reachable s → numbered (engine s).
Proof.
  induction 1 as [p|s a _ IH].
  - split; [done|]. exists []. split; [done|]. split; [by intros i j x y Hi|constructor].
  - apply (keeps_state (λ s, numbered (engine s))); [|done].
    apply perform_keeps; [apply css_keeps_numbered|done].
Qed.

(** X4.  In every state the library can reach, the stylesheet has no more
    rules than the counter counts, and its rules are in the order in which
    their classes were minted: the numbers of the classes [zen-style-k] go
    up along the rules and stay below the counter.  A theme change, which
    clears the cache, restarts neither. *)
Theorem rules_in_minting_order (s : runtime) :
  reachable s →
  (N.of_nat (length (cssRules s)) ≤ uniqueId (engine s))%N ∧
  ∃ ks, rule_class <$> cssRules s = zenStyle <$> ks ∧
        ascending ks ∧
        Forall (λ k, (k < uniqueId (engine s))%N) ks.
Proof. apply reachable_numbered. Qed.

Lemma rules_in_minting_order_witness :
  (N.of_nat (length (cssRules (run [DoCss colorRed; DoResetTheme;
                                    DoCss strayBrace; DoCss displayFlex]
                                 initial)))
   ≤ uniqueId (engine (run [DoCss colorRed; DoResetTheme; DoCss strayBrace;
                            DoCss displayFlex] initial)))%N ∧
  ∃ ks, rule_class <$> cssRules (run [DoCss colorRed; DoResetTheme;
                                      DoCss strayBrace; DoCss displayFlex]
                                   initial) = zenStyle <$> ks ∧
        ascending ks ∧
        Forall (λ k, (k < uniqueId (engine (run [DoCss colorRed; DoResetTheme;
                                                 DoCss strayBrace;
                                                 DoCss displayFlex]
                                              initial)))%N) ks.
Proof.
  apply (rules_in_minting_order
           (run [DoCss colorRed; DoResetTheme; DoCss strayBrace;
                 DoCss displayFlex] initial)).
  repeat apply reachable_perform. apply reachable_initial.
Defined.

(** X5.  When the hash of the rule text is not cached and the surface
    does not take the rule, [css] throws, after it has cached the class
    and advanced the counter: the stylesheet is as before and, in a state
    the library can reach, has no rule for that class; the next call for
    the description returns the class and changes nothing. *)
Theorem css_rejected_rule_keeps_its_class
    (s : runtime) (d : styles) (m : mapping) :
  reachable s →
  processedStyles d s = Some m →
  styleCache (engine s) !! hash (cssString m) = None →
  accepts s (cssString m) = false →
  css d s = (None, rejected (cssString m) s) ∧
  css d (rejected (cssString m) s)
  = (Some (zenStyle (uniqueId (engine s))), rejected (cssString m) s) ∧
  cssRules (rejected (cssString m) s) = cssRules s ∧
  uniqueId (engine (rejected (cssString m) s)) = (uniqueId (engine s) + 1)%N ∧
  zenStyle (uniqueId (engine s))
    ∉ rule_class <$> cssRules (rejected (cssString m) s).
Proof.
  intros (_ & _ & ks & Hks & _ & Hlt)%reachable_engine_ok Hm Hc Ha.
  assert (E : css d s = (None, rejected (cssString m) s)).
  { by rewrite css_eq, Hm, Hc, Ha. }
  split; [done|]. split; [|split; [done|split; [done|]]].
  - rewrite css_eq, (processedStyles_store d s (rejected (cssString m) s) eq_refl), Hm.
    cbn [rejected engine styleCache uniqueId]. by rewrite lookup_insert_eq.
  - change (cssRules (rejected (cssString m) s)) with (cssRules s).
    unfold cssRules. rewrite Hks. intros (k & Hk%(inj zenStyle) & Hin)%list_elem_of_fmap.
    rewrite Forall_forall in Hlt. specialize (Hlt k Hin). lia.
Qed.

Lemma css_rejected_rule_witness :
  css strayBrace initial = (None, rejected "}: x;" initial) ∧
  css strayBrace (rejected "}: x;" initial)
  = (Some "zen-style-0", rejected "}: x;" initial) ∧
  cssRules (rejected "}: x;" initial) = cssRules initial ∧
  uniqueId (engine (rejected "}: x;" initial)) = 1%N ∧
  "zen-style-0" ∉ rule_class <$> cssRules (rejected "}: x;" initial).
Proof.
  apply (css_rejected_rule_keeps_its_class initial strayBrace
           [("}", Leaf "x")]); [apply reachable_initial|reflexivity..].
Defined.

(** ** The stylesheet only grows *)

Lemma perform_grows a s :
  cssRules s `prefix_of` cssRules (perform a s).2 ∧
  (uniqueId (engine s) ≤ uniqueId (engine (perform a s).2))%N.
Proof.
  set (Q := λ e, cssRules s `prefix_of` default [] (styleSheet e) ∧
                 (uniqueId (engine s) ≤ uniqueId e)%N).
  apply (keeps_state (λ s', Q (engine s'))); [|done].
  apply (perform_keeps Q); [|done].
  intros d s1 [Hp Hk]. rewrite css_eq.
  destruct (processedStyles d s1) as [m|]; [|done].
  destruct (styleCache (engine s1) !! _); [done|].
  destruct (accepts s1 (cssString m));
    unfold Q; cbn [minted rejected engine uniqueId styleSheet default id snd];
    (split; [|lia]); [|done].
  etrans; [exact Hp|]. by apply prefix_app_r.
Qed.

(** X6.  Whatever the host and the render surface do, from any state: no
    rule of the stylesheet is removed, changed or moved (the rules before
    are the first rules after), and the counter never goes down.  Rules
    made for a theme that is no longer active stay. *)
Theorem stylesheet_only_grows (l : list action) (s : runtime) :
  cssRules s `prefix_of` cssRules (run l s) ∧
  (uniqueId (engine s) ≤ uniqueId (engine (run l s)))%N.
Proof.
  revert s. induction l as [|a l IH]; intros s; [done|].
  change (run (a :: l) s) with (run l (perform a s).2).
  destruct (perform_grows a s) as [H1 H2].
  destruct (IH (perform a s).2) as [H3 H4].
  split; [by etrans|lia].
Qed.

(** ** Theme store: what [setTheme] builds *)

Lemma category_at_weaken st st' l :
  objects st ⊆ objects st' → is_Some (objects st !! l) →
  category_at st' l = category_at st l.
Proof.
  intros Hsub [o Ho]. unfold category_at.
  by rewrite Ho, (lookup_weaken _ _ _ _ Ho Hsub).
Qed.

Lemma token_at_weaken st st' t c k :
  objects st ⊆ objects st' →
  theme_at st' t = theme_at st t →
  map_Forall (λ _ l, is_Some (objects st !! l)) (theme_at st t) →
  token_at st' t c k = token_at st t c k.
Proof.
  intros Hsub Ht Hwf. unfold token_at. rewrite Ht.
  destruct (theme_at st t !! c) as [l|] eqn:E; [|done]. simpl.
  by rewrite (category_at_weaken st st' l Hsub (Hwf c l E)).
Qed.

(** [setTheme] on themes whose categories are objects of the store. *)
Lemma setTheme_spec s n :
  let st := store s in
  let a := theme_at st (activeTheme st) in
  map_Forall (λ _ l, is_Some (objects st !! l)) a →
  map_Forall (λ _ l, is_Some (objects st !! l)) (theme_at st n) →
  ∃ t s' top,
    setTheme n s = (Some t, s') ∧
    activeTheme (store s') = t ∧
    t ∉ dom (themes st) ∧
    themes (store s') = <[t := top]> (themes st) ∧
    objects st ⊆ objects (store s') ∧
    engine s' = clear_cache (engine s) ∧
    doc s' = doc s ∧
    map_Forall (λ _ l, is_Some (objects (store s') !! l)) top ∧
    (∀ c, c ∉ themeCategories → top !! c = (theme_at st n ∪ a) !! c) ∧
    (∀ c, c ∈ themeCategories → ∃ l,
        top !! c = Some l ∧
        objects (store s') !! l
        = Some (spread st (theme_at st n !! c) ∪ spread st (a !! c))).
Proof.
  intros st a Ha Hn. unfold setTheme. fold st. fold a.
  destruct (foldl _ _ themeCategories) as [top st1] eqn:Hfold.
  apply merge_categories in Hfold as (Hsub & Hth & Hact & Hout & Hin);
    [|apply themeCategories_NoDup|].
  2:{ intros c l [H|H]; apply elem_of_dom; [exact (Ha c l H)|exact (Hn c l H)]. }
  eexists _, _, top. split; [reflexivity|].
  cbn [store engine doc new_theme set_active activeTheme themes objects
       fst snd].
  rewrite Hth. split; [done|]. split; [apply is_fresh|].
  split; [done|]. split; [done|]. split; [done|]. split; [done|].
  split; [|split; [done|done]].
  intros c l Hc. destruct (decide (c ∈ themeCategories)) as [Hin'|Hout'].
  - destruct (Hin c Hin') as (l' & E & Hl). rewrite E in Hc.
    injection Hc as <-. eauto.
  - rewrite Hout in Hc by done.
    assert (is_Some (objects st !! l)) as [o Ho].
    { apply lookup_union_Some_raw in Hc as [Hc|[_ Hc]];
        [exact (Hn c l Hc)|exact (Ha c l Hc)]. }
    exists o. by apply (lookup_weaken _ _ _ _ Ho Hsub).
Qed.

(** The tokens of the theme [setTheme] builds. *)
Lemma setTheme_tokens s n t s' top :
  let st := store s in
  let a := theme_at st (activeTheme st) in
  themes (store s') = <[t := top]> (themes st) →
  (∀ c, c ∈ themeCategories → ∃ l,
      top !! c = Some l ∧
      objects (store s') !! l
      = Some (spread st (theme_at st n !! c) ∪ spread st (a !! c))) →
  ∀ c k, c ∈ themeCategories →
    token_at (store s') t c k
    = match token_at st n c k with
      | Some v => Some v
      | None => token_at st (activeTheme st) c k
      end.
Proof.
  intros st a Hth Hin c k Hc.
  destruct (Hin c Hc) as (l & Htop & Hl).
  unfold token_at at 1, theme_at at 1. rewrite Hth, lookup_insert_eq.
  simpl. rewrite Htop. simpl. unfold category_at at 1. rewrite Hl. simpl.
  unfold token_at. fold a.
  destruct (theme_at st n !! c) as [ln|]; simpl.
  - destruct (category_at st ln !! k) as [v|] eqn:E.
    + by apply lookup_union_Some_l.
    + rewrite lookup_union_r by done. by destruct (a !! c).
  - rewrite (left_id_L ∅ (∪)). by destruct (a !! c).
Qed.

(** X7.  [setTheme] merges one level deep, category by category: in each
    of the six categories a token is the new theme's when the new theme
    has it, and the active theme's otherwise; any other top-level entry
    is taken as it is, from the new theme first.  The theme returned is
    the active theme. *)
Theorem setTheme_merges_each_category (s : runtime) (n : loc) :
  map_Forall (λ _ l, is_Some (objects (store s) !! l))
    (theme_at (store s) (activeTheme (store s))) →
  map_Forall (λ _ l, is_Some (objects (store s) !! l))
    (theme_at (store s) n) →
  ∃ t s',
    setTheme n s = (Some t, s') ∧
    activeTheme (store s') = t ∧
    (∀ c k, c ∈ themeCategories →
       token_at (store s') t c k
       = match token_at (store s) n c k with
         | Some v => Some v
         | None => token_at (store s) (activeTheme (store s)) c k
         end) ∧
    (∀ c, c ∉ themeCategories →
       theme_at (store s') t !! c
       = (theme_at (store s) n
          ∪ theme_at (store s) (activeTheme (store s))) !! c).
Proof.
  intros Ha Hn.
  destruct (setTheme_spec s n Ha Hn)
    as (t & s' & top & E & Hact & Hfresh & Hth & Hsub & _ & _ & _ & Hout & Hin).
  exists t, s'. split; [done|]. split; [done|]. split.
  - by apply (setTheme_tokens s n t s' top).
  - intros c Hc. unfold theme_at at 1. rewrite Hth, lookup_insert_eq.
    simpl. by apply Hout.
Qed.

Lemma setTheme_merges_each_category_witness :
  ∃ t s',
    setTheme 2%positive (hostPartial initial).2 = (Some t, s') ∧
    activeTheme (store s') = t ∧
    (∀ c k, c ∈ themeCategories →
       token_at (store s') t c k
       = match token_at (store (hostPartial initial).2)
                 2%positive c k with
         | Some v => Some v
         | None => token_at (store (hostPartial initial).2)
                     (activeTheme (store (hostPartial initial).2)) c k
         end) ∧
    (∀ c, c ∉ themeCategories →
       theme_at (store s') t !! c
       = (theme_at (store (hostPartial initial).2) 2%positive
          ∪ theme_at (store (hostPartial initial).2)
              (activeTheme (store (hostPartial initial).2))) !! c).
Proof.
  apply (setTheme_merges_each_category (hostPartial initial).2
           2%positive).
  - refine (bool_decide_unpack _ _). vm_compute. exact I.
  - refine (bool_decide_unpack _ _). vm_compute. exact I.
Defined.

(** ** What the theme functions leave alone *)

Lemma merge_grows a n cs : ∀ top st top' st',
  foldl (λ acc c, merge_category a n c acc) (top, st) cs = (top', st') →
  objects st ⊆ objects st' ∧ themes st' = themes st.
Proof.
  induction cs as [|c cs IH]; intros top st top' st' Hf.
  - by injection Hf as <- <-.
  - cbn [foldl] in Hf. unfold merge_category at 2 in Hf.
    destruct (new_category _ st) as [l st1] eqn:Hnew.
    apply new_category_spec in Hnew as (Hfresh & Hobj & Hth & _).
    apply IH in Hf as [Hs Ht]. split; [|congruence].
    etrans; [|exact Hs]. rewrite Hobj.
    apply insert_subseteq. by apply not_elem_of_dom.
Qed.

Lemma new_theme_extends o st :
  themes st ⊆ themes (new_theme o st).2.
Proof.
  simpl. apply insert_subseteq, not_elem_of_dom, is_fresh.
Qed.

Lemma setTheme_extends s n : extends s (setTheme n s).2.
Proof.
  unfold setTheme.
  destruct (foldl _ _ themeCategories) as [top st1] eqn:Hfold.
  apply merge_grows in Hfold as [Hs Ht].
  split; cbn [store snd new_theme set_active objects themes]; [done|].
  rewrite Ht. apply insert_subseteq, not_elem_of_dom, is_fresh.
Qed.

(** X8.  [setTheme], [getTheme] and [resetTheme] build new objects and
    change none: every theme object and every category object of the
    store (the new theme passed in, the default theme's categories, the
    copies handed out earlier) is afterwards what it was. *)
Theorem theme_functions_change_no_object (s : runtime) (n : loc) :
  extends s (setTheme n s).2 ∧
  extends s (getTheme s).2 ∧
  extends s (resetTheme s).2.
Proof.
  split; [|split].
  - apply setTheme_extends.
  - split; [done|]. apply new_theme_extends.
  - split; [done|]. apply new_theme_extends.
Qed.

Lemma resetTheme_eq s :
  resetTheme s
  = (Some (activeTheme (store (resetTheme s).2)), (resetTheme s).2).
Proof. reflexivity. Qed.

Lemma resetTheme_tokens s c k :
  token_at (store (resetTheme s).2) (activeTheme (store (resetTheme s).2)) c k
  = defaultTheme !! c ≫= λ l, category_at (store s) l !! k.
Proof.
  unfold token_at, theme_at.
  cbn [resetTheme store new_theme set_active themes activeTheme fst snd].
  by rewrite lookup_insert_eq.
Qed.

(** X9.  [resetTheme] undoes [setTheme]: after any [setTheme], the tokens
    of the theme [resetTheme] activates are those it would have activated
    without it (the category objects of the default theme being in the
    store, as they are from the start). *)
Theorem resetTheme_undoes_setTheme (s : runtime) (n : loc) (c k : string) :
  map_Forall (λ _ l, is_Some (objects (store s) !! l)) defaultTheme →
  ∃ t s' t0 s0,
    resetTheme (setTheme n s).2 = (Some t, s') ∧
    resetTheme s = (Some t0, s0) ∧
    activeTheme (store s') = t ∧
    token_at (store s') t c k = token_at (store s0) t0 c k.
Proof.
  intros Hd.
  destruct (setTheme_extends s n) as [Hsub _].
  eexists _, _, _, _. split; [apply resetTheme_eq|].
  split; [apply resetTheme_eq|]. split; [done|].
  rewrite !resetTheme_tokens.
  destruct (defaultTheme !! c) as [l|] eqn:E; [|done].
  cbn [mbind option_bind].
  by rewrite (category_at_weaken (store s) _ l Hsub (Hd c l E)).
Qed.

Lemma resetTheme_undoes_setTheme_witness :
  ∃ t s' t0 s0,
    resetTheme (setTheme 2%positive (hostPartial initial).2).2 = (Some t, s') ∧
    resetTheme (hostPartial initial).2 = (Some t0, s0) ∧
    activeTheme (store s') = t ∧
    token_at (store s') t "colors" "primary"
    = token_at (store s0) t0 "colors" "primary".
Proof.
  apply (resetTheme_undoes_setTheme (hostPartial initial).2 2%positive).
  refine (bool_decide_unpack _ _). vm_compute. exact I.
Defined.

(** X10.  [setTheme] with the same theme a second time changes no token
    and no top-level entry of the active theme. *)
Theorem setTheme_twice_is_once (s : runtime) (n : loc) :
  map_Forall (λ _ l, is_Some (objects (store s) !! l))
    (theme_at (store s) (activeTheme (store s))) →
  map_Forall (λ _ l, is_Some (objects (store s) !! l))
    (theme_at (store s) n) →
  is_Some (themes (store s) !! n) →
  ∃ t1 s1 t2 s2,
    setTheme n s = (Some t1, s1) ∧
    setTheme n s1 = (Some t2, s2) ∧
    (∀ c k, c ∈ themeCategories →
       token_at (store s2) t2 c k = token_at (store s1) t1 c k) ∧
    (∀ c, c ∉ themeCategories →
       theme_at (store s2) t2 !! c = theme_at (store s1) t1 !! c).
Proof.
  intros Ha Hn Hex.
  destruct (setTheme_spec s n Ha Hn)
    as (t1 & s1 & top1 & E1 & Hact1 & Hfresh1 & Hth1 & Hsub1 & _ & _ & Hwf1
        & Hout1 & Hin1).
  assert (Hne : t1 ≠ n).
  { intros ->. apply Hfresh1. by apply elem_of_dom. }
  assert (Ht1 : theme_at (store s1) t1 = top1).
  { unfold theme_at. by rewrite Hth1, lookup_insert_eq. }
  assert (Hn1 : theme_at (store s1) n = theme_at (store s) n).
  { unfold theme_at. by rewrite Hth1, lookup_insert_ne. }
  assert (Hwfn1 : map_Forall (λ _ l, is_Some (objects (store s1) !! l))
                    (theme_at (store s1) n)).
  { rewrite Hn1. intros c l Hc. destruct (Hn c l Hc) as [o Ho].
    exists o. by apply (lookup_weaken _ _ _ _ Ho Hsub1). }
  assert (Ha1 : map_Forall (λ _ l, is_Some (objects (store s1) !! l))
                  (theme_at (store s1) (activeTheme (store s1)))).
  { by rewrite Hact1, Ht1. }
  destruct (setTheme_spec s1 n Ha1 Hwfn1)
    as (t2 & s2 & top2 & E2 & Hact2 & Hfresh2 & Hth2 & Hsub2 & _ & _ & _
        & Hout2 & Hin2).
  exists t1, s1, t2, s2. split; [done|]. split; [done|]. split.
  - intros c k Hc.
    rewrite (setTheme_tokens s1 n t2 s2 top2 Hth2 Hin2 c k Hc).
    rewrite Hact1.
    rewrite (token_at_weaken (store s) (store s1) n c k Hsub1 Hn1 Hn).
    rewrite (setTheme_tokens s n t1 s1 top1 Hth1 Hin1 c k Hc).
    by destruct (token_at (store s) n c k).
  - intros c Hc. rewrite Ht1. unfold theme_at at 1.
    rewrite Hth2, lookup_insert_eq. simpl.
    rewrite Hout2 by done. rewrite Hact1, Ht1, Hn1.
    rewrite lookup_union, (Hout1 c Hc), !lookup_union.
    by destruct (theme_at (store s) n !! c),
      (theme_at (store s) (activeTheme (store s)) !! c).
Qed.

Lemma setTheme_twice_is_once_witness :
  ∃ t1 s1 t2 s2,
    setTheme 2%positive (hostPartial initial).2 = (Some t1, s1) ∧
    setTheme 2%positive s1 = (Some t2, s2) ∧
    (∀ c k, c ∈ themeCategories →
       token_at (store s2) t2 c k = token_at (store s1) t1 c k) ∧
    (∀ c, c ∉ themeCategories →
       theme_at (store s2) t2 !! c = theme_at (store s1) t1 !! c).
Proof.
  apply (setTheme_twice_is_once (hostPartial initial).2 2%positive).
  - refine (bool_decide_unpack _ _). vm_compute. exact I.
  - refine (bool_decide_unpack _ _). vm_compute. exact I.
  - vm_compute. eauto.
Defined.

(** ** Who holds the active theme *)

Lemma host_set_category_active s t c l :
  activeTheme (store s) = t →
  theme_at (store (host_set_category t c l s).2)
    (activeTheme (store (host_set_category t c l s).2)) !! c = Some l.
Proof.
  intros <-. unfold theme_at at 1.
  cbn [host_set_category modify with_store store themes activeTheme snd].
  rewrite lookup_insert_eq. cbn [default]. apply lookup_insert_eq.
Qed.

(** X11.  [setTheme] and [resetTheme] return the active theme object
    itself, [getTheme] a copy of its top level: a category object the
    host puts into the value returned is the active theme's category
    after [setTheme] and [resetTheme], and is not after [getTheme] (the
    active theme keeps the one it had). *)
Theorem returned_theme_is_live (s : runtime) (n : loc) (c : string) (l : loc) :
  is_Some (themes (store s) !! activeTheme (store s)) →
  (∃ t s1 s2,
     setTheme n s = (Some t, s1) ∧
     host_set_category t c l s1 = (Some (), s2) ∧
     theme_at (store s2) (activeTheme (store s2)) !! c = Some l) ∧
  (∃ t s1 s2,
     resetTheme s = (Some t, s1) ∧
     host_set_category t c l s1 = (Some (), s2) ∧
     theme_at (store s2) (activeTheme (store s2)) !! c = Some l) ∧
  (∃ t s1 s2,
     getTheme s = (Some t, s1) ∧
     host_set_category t c l s1 = (Some (), s2) ∧
     theme_at (store s2) (activeTheme (store s2)) !! c
     = theme_at (store s) (activeTheme (store s)) !! c).
Proof.
  intros Ha. split; [|split].
  - unfold setTheme.
    destruct (foldl _ _ themeCategories) as [top st1].
    eexists _, _, _. split; [reflexivity|]. split; [reflexivity|].
    by apply host_set_category_active.
  - eexists _, _, _. split; [reflexivity|]. split; [reflexivity|].
    by apply host_set_category_active.
  - eexists _, _, _. split; [reflexivity|]. split; [reflexivity|].
    unfold theme_at. simpl.
    assert (fresh (dom (themes (store s))) ≠ activeTheme (store s)) as Hne.
    { intros E. apply (is_fresh (dom (themes (store s)))). rewrite E.
      by apply elem_of_dom. }
    by rewrite !lookup_insert_ne.
Qed.

Lemma returned_theme_is_live_witness :
  (∃ t s1 s2,
     setTheme 2%positive (hostPartial initial).2 = (Some t, s1) ∧
     host_set_category t "colors" 7%positive s1 = (Some (), s2) ∧
     theme_at (store s2) (activeTheme (store s2)) !! "colors"
     = Some 7%positive) ∧
  (∃ t s1 s2,
     resetTheme (hostPartial initial).2 = (Some t, s1) ∧
     host_set_category t "colors" 7%positive s1 = (Some (), s2) ∧
     theme_at (store s2) (activeTheme (store s2)) !! "colors"
     = Some 7%positive) ∧
  (∃ t s1 s2,
     getTheme (hostPartial initial).2 = (Some t, s1) ∧
     host_set_category t "colors" 7%positive s1 = (Some (), s2) ∧
     theme_at (store s2) (activeTheme (store s2)) !! "colors"
     = theme_at (store (hostPartial initial).2)
         (activeTheme (store (hostPartial initial).2)) !! "colors").
Proof.
  apply (returned_theme_is_live (hostPartial initial).2 2%positive "colors"
           7%positive).
  vm_compute. eauto.
Defined.

(** ** Computations that return *)

Lemma total_bind {A B} (m : M A) (f : A → M B) :
  total m → (∀ a, total (f a)) → total (m ≫= f).
Proof.
  intros Hm Hf s. unfold mbind, M_bind.
  destruct (Hm s) as [a Ha]. destruct (m s) as [[a'|] s1]; [|done].
  apply Hf.
Qed.

Lemma total_ret {A} (a : A) : total (mret a).
Proof. intros s. by eexists. Qed.

Lemma total_modify f : total (modify f).
Proof. intros s. by eexists. Qed.

Lemma total_get_state : total get_state.
Proof. intros s. by eexists. Qed.

Lemma total_update_node n f : total (update_node n f).
Proof. apply total_modify. Qed.

Lemma total_forEach {A} (f : A → M ()) l :
  Forall (λ a, total (f a)) l → total (forEach f l).
Proof.
  induction 1 as [|a l Ha _ IH]; simpl; [apply total_ret|].
  apply total_bind; auto.
Qed.

Ltac total_step :=
  lazymatch goal with
  | |- total (_ ≫= _) => apply total_bind; [|intros ?]
  | |- total (mret _) => apply total_ret
  | |- total get_state => apply total_get_state
  | |- total (update_node _ _) => apply total_update_node
  | |- total (modify _) => apply total_modify
  | |- total (match ?x with _ => _ end) => destruct x
  | |- total (if ?x then _ else _) => destruct x
  end.

Lemma total_removeChild p c : total (removeChild p c).
Proof. unfold removeChild. repeat total_step. Qed.

Lemma total_appendChild p c : total (appendChild p c).
Proof.
  unfold appendChild. repeat total_step; apply total_removeChild.
Qed.

Lemma total_set_textContent n text : total (set_textContent n text).
Proof.
  unfold set_textContent. repeat total_step.
  apply total_forEach, Forall_forall. intros x _. repeat total_step.
Qed.

Lemma total_apply_rest D n kv : host_value D kv.2 → total (apply_rest n kv).
Proof.
  destruct kv as [key value]. simpl. intros Hv.
  unfold apply_rest, addEventListener, set_property.
  destruct Hv; simpl; repeat total_step; apply total_modify.
Qed.

Lemma total_append_entry n v :
  (truthy v = true →
   match v with VStr _ | VNode _ => True | _ => False end) →
  total (append_entry n v).
Proof.
  intros Hv. unfold append_entry.
  destruct (truthy v); [|apply total_ret].
  destruct v; try (by destruct Hv); apply total_appendChild.
Qed.

Lemma returns_bind {A B} (m : M A) (f : A → M B) s :
  is_Some (m s).1 →
  (∀ a s1, m s = (Some a, s1) → is_Some (f a s1).1) →
  is_Some ((m ≫= f) s).1.
Proof.
  intros [a Ha] Hf. unfold mbind, M_bind.
  destruct (m s) as [[a'|] s1] eqn:E; [|done]. by eapply Hf.
Qed.

Lemma total_returns {A} (m : M A) s : total m → is_Some (m s).1.
Proof. intros H. apply H. Qed.

Lemma css_returns d s :
  is_Some (processedStyles d s) →
  (∀ m, processedStyles d s = Some m →
        styleCache (engine s) !! hash (cssString m) = None →
        accepts s (cssString m) = true) →
  is_Some (css d s).1.
Proof.
  intros [m Hm] Ha. rewrite css_eq, Hm.
  destruct (styleCache (engine s) !! _) eqn:Hc; [by eexists|].
  rewrite (Ha m Hm Hc). by eexists.
Qed.

(** ** What keeps the surface *)

Section surface_frame.
Context (p : platform).
Let P : runtime → Prop := λ s, surface s = p.

Lemma update_node_keeps_surface y f : keeps P (update_node y f).
Proof. apply keeps_modify. by intros s Hs. Qed.

Lemma css_keeps_surface d : keeps P (css d).
Proof.
  intros s Hs. pose proof (css_surface d s) as E.
  destruct (css d s) as [[c|] s1]; simpl in E; unfold P; by rewrite E.
Qed.

End surface_frame.

Lemma assign_dataset_returns n data : ∀ s,
  Forall (λ kv, validDataKey (surface s) kv.1 = true) data →
  is_Some (assign_dataset n data s).1.
Proof.
  unfold assign_dataset.
  induction data as [|kv data IH]; intros s Hd; simpl; [by eexists|].
  apply Forall_cons in Hd as [Hkv Hd].
  assert (∃ s1, set_data n kv s = (Some (), s1) ∧ surface s1 = surface s)
    as (s1 & E & Hs1).
  { unfold set_data, mbind, M_bind, get_state. rewrite Hkv. by eexists. }
  apply returns_bind; [rewrite E; by eexists|].
  intros [] s1' E'. rewrite E in E'. injection E' as <-.
  apply IH. by rewrite Hs1.
Qed.

(** [createElement] returns when the surface takes what it is handed, the
    style function returns, the functions among the other props are
    callbacks of the host and the children can be appended. *)
Lemma createElement_returns tag props s :
  surface_takes tag props s →
  host_element_props props s →
  is_Some (createElement tag props s).1.
Proof.
  intros (Hname & Hdata & Hacc) (Hcss & Hrest & _ & Hch). unfold createElement.
  apply returns_bind.
  { unfold document_createElement. rewrite Hname. by eexists. }
  intros n s1 H1. apply document_createElement_Some in H1 as (_ & _ & ->).
  set (s1 := with_doc _ s).
  assert (Hkeep : ∀ (m : M ()) s2 s3 r,
            keeps (λ s', surface s' = surface s) m →
            surface s2 = surface s → m s2 = (r, s3) →
            surface s3 = surface s).
  { intros m s2 s3 r Hm Hs2 E.
    exact (keeps_result (λ s', surface s' = surface s) m s2 r s3 Hm Hs2 E). }
  apply returns_bind.
  { unfold resolves in Hcss. destruct (Props.cssStyles props) as [| |d];
      [by eexists..|].
    apply returns_bind; [|intros c s2 _; apply total_update_node].
    apply css_returns; [done|]. exact Hacc. }
  intros [] s2 H2.
  assert (surface s2 = surface s) as Hs2.
  { refine (Hkeep _ s1 s2 _ _ eq_refl H2). unfold classList_add.
    repeat keeps_step;
      first [ apply update_node_keeps_surface | apply css_keeps_surface ]. }
  apply returns_bind.
  { apply total_returns. unfold set_className. repeat total_step. }
  intros [] s3 H3.
  assert (surface s3 = surface s) as Hs3.
  { refine (Hkeep _ s2 s3 _ _ Hs2 H3). unfold set_className.
    repeat keeps_step; apply update_node_keeps_surface. }
  apply returns_bind.
  { apply total_returns. unfold assign_style. repeat total_step. }
  intros [] s4 H4.
  assert (surface s4 = surface s) as Hs4.
  { refine (Hkeep _ s3 s4 _ _ Hs3 H4). unfold assign_style.
    repeat keeps_step; apply update_node_keeps_surface. }
  apply returns_bind.
  { destruct (Props.dataset props) as [| |data]; [by eexists..|].
    apply assign_dataset_returns. by rewrite Hs4. }
  intros [] s5 _.
  apply total_returns.
  apply total_bind; [|intros _].
  { apply total_forEach. eapply Forall_impl; [exact Hrest|].
    intros kv Hkv. exact (total_apply_rest _ _ kv Hkv). }
  apply total_bind; [|intros _; apply total_ret].
  unfold renderable in Hch.
  destruct (Props.children props) as [| |b|r|text|f|c|items];
    cbn [truthy] in *; try discriminate;
    try (rewrite Hch; apply total_ret); try apply total_ret.
  - destruct (negb _); [apply total_set_textContent|apply total_ret].
  - apply total_appendChild.
  - apply total_forEach. eapply Forall_impl; [exact Hch|].
    intros v Hv. exact (total_append_entry _ v Hv).
Qed.

(** ** What keeps the nodes of the document *)

Section dom_frame.
Context (D : gset nid).
Let P : runtime → Prop := λ s, dom (nodes (doc s)) = D.

Lemma update_node_keeps_dom y f : keeps P (update_node y f).
Proof.
  apply keeps_modify. intros s Hs. unfold P. simpl. by rewrite dom_alter_L.
Qed.

Lemma doc_keeps_dom {A} (m : M A) :
  (∀ s, nodes (doc (m s).2) = nodes (doc s)) → keeps P m.
Proof.
  intros H s Hs. specialize (H s). unfold P.
  destruct (m s) as [[a|] s1]; simpl in *; by rewrite H.
Qed.

Lemma css_keeps_dom d : keeps P (css d).
Proof. apply doc_keeps_dom. intros s. by rewrite css_doc. Qed.

Ltac prim :=
  first [ apply update_node_keeps_dom | apply css_keeps_dom
        | by apply doc_keeps_dom ].

Ltac go := repeat first [ keeps_step | prim ].

Lemma removeChild_keeps_dom p c : keeps P (removeChild p c).
Proof. unfold removeChild. go. Qed.

Lemma appendChild_keeps_dom p c : keeps P (appendChild p c).
Proof. unfold appendChild. go; apply removeChild_keeps_dom. Qed.

Lemma set_textContent_keeps_dom n t : keeps P (set_textContent n t).
Proof. unfold set_textContent. go. Qed.

Lemma animate_keeps_dom e k o : keeps P (animate e k o).
Proof. unfold animate. go. Qed.

Lemma cleanup_keeps_dom o m : keeps P (cleanup o m).
Proof. unfold cleanup. go; try apply animate_keeps_dom. Qed.

Lemma on_finish_keeps_dom o : keeps P (on_finish o).
Proof. unfold on_finish. go; apply removeChild_keeps_dom. Qed.

Lemma call_keeps_dom f : ∀ a, keeps P (call f a).
Proof.
  revert f. fix IH 1. intros [tag|v|o m|o] a; simpl.
  - prim.
  - destruct a; go; apply IH.
  - apply cleanup_keeps_dom.
  - apply on_finish_keeps_dom.
Qed.

Lemma apply_rest_keeps_dom n kv : keeps P (apply_rest n kv).
Proof.
  unfold apply_rest, addEventListener, set_property. destruct kv.
  go; apply call_keeps_dom.
Qed.

Lemma append_entry_keeps_dom n c : keeps P (append_entry n c).
Proof. unfold append_entry. go; apply appendChild_keeps_dom. Qed.
End dom_frame.

(** The nodes of the document after [createElement]: the nodes before,
    and the node returned, which is new. *)
Lemma createElement_dom tag props s n s' :
  createElement tag props s = (Some n, s') →
  n = fresh (dom (nodes (doc s))) ∧
  dom (nodes (doc s')) = {[n]} ∪ dom (nodes (doc s)).
Proof.
  unfold createElement. intros H.
  apply bind_Some in H as (n' & s1 & H1 & H).
  apply document_createElement_Some in H1 as (_ & -> & ->).
  assert (n = fresh (dom (nodes (doc s)))) as ->.
  { repeat (apply bind_Some in H as (? & ? & _ & H)). by injection H. }
  split; [done|].
  match type of H with ?m ?s1 = _ =>
    assert (keeps (λ s', dom (nodes (doc s'))
                         = {[fresh (dom (nodes (doc s)))]} ∪ dom (nodes (doc s)))
              m) as Hk
  end.
  { unfold classList_add, set_className, assign_style, assign_dataset.
    repeat keeps_step;
      first [ apply update_node_keeps_dom | apply css_keeps_dom
            | apply set_textContent_keeps_dom | apply appendChild_keeps_dom
            | apply apply_rest_keeps_dom | apply append_entry_keeps_dom ]. }
  refine (keeps_result _ _ _ _ _ Hk _ H).
  simpl. by rewrite dom_insert_L.
Qed.

(** ** What keeps a node detached *)

Section detached_frame.
Context (n : nid).
Let P : runtime → Prop := λ s,
  ∃ e, nodes (doc s) !! n = Some e ∧ parentNode e = None.

Lemma update_node_keeps_detached y f :
  (∀ e, parentNode e = None → parentNode (f e) = None) →
  keeps P (update_node y f).
Proof.
  intros Hf. apply keeps_modify. intros s (e & He & Hn). unfold P. simpl.
  destruct (decide (y = n)) as [->|Hne].
  - exists (f e). rewrite lookup_alter_eq, He. split; [done|]. by apply Hf.
  - exists e. by rewrite lookup_alter_ne.
Qed.

Lemma update_other_keeps_detached y f :
  y ≠ n → keeps P (update_node y f).
Proof.
  intros Hne. apply keeps_modify. intros s (e & He & Hn). unfold P. simpl.
  exists e. by rewrite lookup_alter_ne.
Qed.

Lemma css_keeps_detached d : keeps P (css d).
Proof.
  intros s Hs. pose proof (css_doc d s) as E.
  destruct (css d s) as [[c|] s1]; simpl in E; unfold P; by rewrite E.
Qed.

Lemma removeChild_keeps_detached p c : keeps P (removeChild p c).
Proof.
  unfold removeChild.
  repeat keeps_step; by apply update_node_keeps_detached.
Qed.

Lemma appendChild_keeps_detached p c :
  c ≠ CElem n → keeps P (appendChild p c).
Proof.
  intros Hc. unfold appendChild. destruct c as [t|c].
  - by apply update_node_keeps_detached.
  - repeat keeps_step;
      first [ apply removeChild_keeps_detached
            | by apply update_node_keeps_detached
            | apply update_other_keeps_detached; congruence ].
Qed.

Lemma set_textContent_keeps_detached y text :
  keeps P (set_textContent y text).
Proof.
  unfold set_textContent.
  repeat keeps_step; by apply update_node_keeps_detached.
Qed.

Lemma apply_rest_keeps_detached D y kv :
  host_value D kv.2 → keeps P (apply_rest y kv).
Proof.
  destruct kv as [key value]. simpl. intros Hv.
  unfold apply_rest, addEventListener, set_property.
  destruct Hv; simpl; repeat keeps_step;
    first [ by apply update_node_keeps_detached
          | by apply keeps_modify ].
Qed.

Lemma append_entry_keeps_detached y v :
  v ≠ VNode n → keeps P (append_entry y v).
Proof.
  intros Hv. unfold append_entry.
  repeat keeps_step; apply appendChild_keeps_detached; congruence.
Qed.
End detached_frame.

Lemma host_value_not_fresh D v : host_value D v → v ≠ VNode (fresh D).
Proof.
  intros Hv ->. inversion Hv as [| | | | | |n Hn|]; subst.
  by apply (is_fresh D).
Qed.

(** The node [createElement] returns has no parent. *)
Lemma createElement_detached tag props s n s' :
  Forall (λ kv, host_value (dom (nodes (doc s))) kv.2) (Props.rest props) →
  host_value (dom (nodes (doc s))) (Props.children props) →
  createElement tag props s = (Some n, s') →
  ∃ e, node_at s' n = Some e ∧ parentNode e = None.
Proof.
  intros Hrest Hch H.
  destruct (createElement_dom _ _ _ _ _ H) as [-> _].
  set (D := dom (nodes (doc s))) in *. set (n := fresh D).
  unfold createElement in H.
  apply bind_Some in H as (n' & s1 & H1 & H).
  apply document_createElement_Some in H1 as (_ & -> & ->). fold D in H. fold n in H.
  match type of H with ?m ?s1 = _ =>
    assert (keeps (λ s', ∃ e, nodes (doc s') !! n = Some e
                              ∧ parentNode e = None) m) as Hk
  end.
  { unfold classList_add, set_className, assign_style, assign_dataset.
    repeat (apply keeps_bind; [|intros ?]).
    7: apply keeps_ret.
    6: { destruct (Props.children props) as [| |b|r|text|f|c|items];
           cbn [truthy].
         1-6: repeat keeps_step; apply set_textContent_keeps_detached.
         - apply appendChild_keeps_detached.
           intros [= ->]. by apply (host_value_not_fresh D (VNode n)).
         - inversion Hch as [| | | | | | |l Hl]; subst.
           apply keeps_forEach_Forall. eapply Forall_impl; [exact Hl|].
           intros v Hv. apply append_entry_keeps_detached.
           by apply host_value_not_fresh. }
    5: { apply keeps_forEach_Forall. eapply Forall_impl; [exact Hrest|].
         intros kv Hkv. exact (apply_rest_keeps_detached n D n kv Hkv). }
    all: repeat keeps_step;
      first [ by apply update_node_keeps_detached
            | apply css_keeps_detached ]. }
  refine (keeps_result _ _ _ _ _ Hk _ H).
  exists (blank (Js.asciiLowerCase tag)). simpl. by rewrite lookup_insert_eq.
Qed.

(** X12.  [createElement] returns when the surface takes the name of the
    element, the keys of the [dataset] and the rule [css] makes for a
    text whose hash is not cached, the style function returns, the props
    have no inline styles, the other props are event handlers (callbacks
    of the host under keys that start with [on]), and the children are
    strings, nodes of the document, falsy values or arrays of these.  The
    node returned is a new element, the only element added to the
    document, has the name asked for in ASCII lower case, and has no
    parent. *)
Theorem createElement_returns_a_new_node
    (tag : string) (props : Props.t) (s : runtime) :
  surface_takes tag props s →
  host_element_props props s →
  unstyled props →
  only_handlers (Props.rest props) →
  ∃ n s' e,
    createElement tag props s = (Some n, s') ∧
    n ∉ dom (nodes (doc s)) ∧
    dom (nodes (doc s')) = {[n]} ∪ dom (nodes (doc s)) ∧
    node_at s' n = Some e ∧
    localName e = Js.asciiLowerCase tag ∧
    parentNode e = None.
Proof.
  intros Ht Hp _ _. destruct (createElement_returns tag props s Ht Hp) as [n Hn].
  destruct (createElement tag props s) as [r s'] eqn:H.
  simpl in Hn. subst r. destruct Hp as (_ & Hrest & Hch & _).
  destruct (createElement_dom _ _ _ _ _ H) as [Hfresh Hdom].
  destruct (createElement_creates _ _ _ _ _ H) as (e & He & Htag).
  destruct (createElement_detached _ _ _ _ _ Hrest Hch H) as (e' & He' & Hpar).
  unfold node_at in He'. rewrite He in He'. injection He' as <-.
  exists n, s', e. split; [done|]. split; [|done].
  rewrite Hfresh. apply is_fresh.
Qed.

Lemma createElement_returns_a_new_node_witness :
  ∃ n s' e,
    createElement "DIV" labelled initial = (Some n, s') ∧
    n ∉ dom (nodes (doc initial)) ∧
    dom (nodes (doc s')) = {[n]} ∪ dom (nodes (doc initial)) ∧
    node_at s' n = Some e ∧
    localName e = "div" ∧
    parentNode e = None.
Proof.
  apply (createElement_returns_a_new_node "DIV" labelled initial).
  - split; [reflexivity|]. split.
    + apply Forall_cons. split; [reflexivity|]. apply Forall_nil_2.
    + intros m [= <-] _. reflexivity.
  - split; [by eexists|]. split; [|split].
    + apply Forall_cons. split; [apply host_fun|]. apply Forall_nil_2.
    + apply host_arr.
      apply Forall_cons. split; [apply host_str|].
      apply Forall_cons. split; [apply host_null|].
      apply Forall_cons. split; [|apply Forall_nil_2].
      apply host_node, elem_of_dom. eexists. reflexivity.
    + apply Forall_cons. split; [done|].
      apply Forall_cons. split; [done|].
      apply Forall_cons. split; [done|]. apply Forall_nil_2.
  - exact I.
  - apply Forall_cons. split; [reflexivity|]. apply Forall_nil_2.
Defined.

(** ** Children that cannot be appended *)

Lemma forEach_throws {A} (f : A → M ()) l x :
  x ∈ l → (∀ s, (f x s).1 = None) → ∀ s, (forEach f l s).1 = None.
Proof.
  intros Hx Hf. induction l as [|y l IH]; intros s.
  - by apply elem_of_nil in Hx.
  - simpl. unfold mbind, M_bind.
    destruct (f y s) as [[[]|] s1] eqn:E; [|done].
    apply elem_of_cons in Hx as [->|Hx]; [|by apply IH].
    specialize (Hf s). by rewrite E in Hf.
Qed.

(** X13.  A truthy [children] value that is neither a string, a node nor
    an array (a number, [true], a function) makes [createElement] throw,
    and so does an array with a truthy entry that is neither a string nor
    a node: a number is not rendered as text. *)
Theorem createElement_rejects_other_children
    (tag : string) (props : Props.t) (s : runtime) :
  (∀ v, truthy v = true →
        match v with VArr _ | VStr _ | VNode _ => False | _ => True end →
        (createElement tag (set_children v props) s).1 = None) ∧
  (∀ items v, v ∈ items → truthy v = true →
        match v with VStr _ | VNode _ => False | _ => True end →
        (createElement tag (set_children (VArr items) props) s).1 = None).
Proof.
  split.
  - intros v Hv Hk. rewrite createElement_children. unfold mbind, M_bind.
    destruct (build tag props s) as [[n|] s1]; [|done].
    rewrite Hv. by destruct v.
  - intros items v Hin Hv Hk. rewrite createElement_children.
    unfold mbind, M_bind.
    destruct (build tag props s) as [[n|] s1]; [|done].
    cbn [truthy].
    pose proof (forEach_throws (append_entry n) items v Hin) as Hf.
    destruct (forEach (append_entry n) items s1) as [[[]|] s2] eqn:E; [|done].
    assert ((forEach (append_entry n) items s1).1 = None) as E'.
    { apply Hf. intros s0. unfold append_entry. rewrite Hv. by destruct v. }
    by rewrite E in E'.
Qed.

Lemma createElement_rejects_other_children_witness :
  (createElement "span" (set_children (VNum "42") Props.empty) initial).1 = None ∧
  (createElement "span"
     (set_children (VArr [VStr "a"; VNum "42"]) Props.empty) initial).1 = None.
Proof.
  split.
  - apply (proj1 (createElement_rejects_other_children "span" Props.empty
                    initial)); [reflexivity|exact I].
  - apply (proj2 (createElement_rejects_other_children "span" Props.empty
                    initial) [VStr "a"; VNum "42"] (VNum "42"));
      [set_solver|reflexivity|exact I].
Defined.

(** ** What keeps a field of a node *)

Section proj_frame.
Context {A : Type} (proj : element → A) (n : nid) (a : A).
Hypothesis proj_children : ∀ g e, proj (with_children g e) = proj e.
Hypothesis proj_parent : ∀ p e, proj (with_parent p e) = proj e.
Let P : runtime → Prop := λ s,
  ∃ e, nodes (doc s) !! n = Some e ∧ proj e = a.

Lemma update_node_keeps_proj y f :
  (∀ e, proj (f e) = proj e) → keeps P (update_node y f).
Proof.
  intros Hf. apply keeps_modify. intros s (e & He & Hn). unfold P. simpl.
  destruct (decide (y = n)) as [->|Hne].
  - exists (f e). rewrite lookup_alter_eq, He. by rewrite Hf.
  - exists e. by rewrite lookup_alter_ne.
Qed.

Lemma doc_keeps_proj {B} (m : M B) :
  (∀ s, nodes (doc (m s).2) = nodes (doc s)) → keeps P m.
Proof.
  intros H s Hs. specialize (H s). unfold P.
  destruct (m s) as [[b|] s1]; simpl in *; by rewrite H.
Qed.

Lemma css_keeps_proj d : keeps P (css d).
Proof. apply doc_keeps_proj. intros s. by rewrite css_doc. Qed.

Ltac prim :=
  first [ apply update_node_keeps_proj; solve [auto]
        | apply css_keeps_proj | by apply doc_keeps_proj ].

Ltac go := repeat first [ keeps_step | prim ].

Lemma removeChild_keeps_proj p c : keeps P (removeChild p c).
Proof. unfold removeChild. go. Qed.

Lemma appendChild_keeps_proj p c : keeps P (appendChild p c).
Proof. unfold appendChild. go; apply removeChild_keeps_proj. Qed.

Lemma set_textContent_keeps_proj y t : keeps P (set_textContent y t).
Proof. unfold set_textContent. go. Qed.

Lemma animate_keeps_proj e k o : keeps P (animate e k o).
Proof. unfold animate. go. Qed.

Lemma cleanup_keeps_proj o m : keeps P (cleanup o m).
Proof. unfold cleanup. go; try apply animate_keeps_proj. Qed.

Lemma on_finish_keeps_proj o : keeps P (on_finish o).
Proof. unfold on_finish. go; apply removeChild_keeps_proj. Qed.

Lemma call_keeps_proj f : ∀ x, keeps P (call f x).
Proof.
  revert f. fix IH 1. intros [tag|v|o m|o] x; simpl.
  - prim.
  - destruct x; go; apply IH.
  - apply cleanup_keeps_proj.
  - apply on_finish_keeps_proj.
Qed.

Lemma append_entry_keeps_proj y c : keeps P (append_entry y c).
Proof. unfold append_entry. go; apply appendChild_keeps_proj. Qed.

Lemma children_keep_proj y (children : jsval) :
  keeps P (if truthy children then
             match children with
             | VArr items => forEach (append_entry y) items
             | VStr text => set_textContent y text
             | VNode c => appendChild y (CElem c)
             | _ => throw
             end
           else mret ()).
Proof.
  go; first [ apply set_textContent_keeps_proj | apply appendChild_keeps_proj
            | apply append_entry_keeps_proj ].
Qed.
End proj_frame.

(** ** Handlers and properties *)

Lemma update_node_sets {A} (proj : element → A) n a b f :
  (∀ e, proj e = a → proj (f e) = b) →
  ensures (λ s, ∃ e, nodes (doc s) !! n = Some e ∧ proj e = a)
    (update_node n f)
    (λ _ s, ∃ e, nodes (doc s) !! n = Some e ∧ proj e = b) (λ _, True).
Proof.
  intros Hf s (e & He & Ha). simpl. exists (f e).
  rewrite lookup_alter_eq, He. split; [done|]. by apply Hf.
Qed.

Lemma apply_rest_wires n w kv :
  ensures (λ s, ∃ e, nodes (doc s) !! n = Some e ∧ wiring e = w)
    (apply_rest n kv)
    (λ _ s, ∃ e, nodes (doc s) !! n = Some e ∧ wiring e = wire kv w)
    (λ _, True).
Proof.
  destruct kv as [key value]. unfold apply_rest, wire, handler, assigned.
  cbn [fst snd].
  assert (∀ v, ensures (λ s, ∃ e, nodes (doc s) !! n = Some e ∧ wiring e = w)
                 (set_property n key v)
                 (λ _ s, ∃ e, nodes (doc s) !! n = Some e
                              ∧ wiring e = ((w.1 ++ [])%list, <[key := v]> w.2))
                 (λ _, True)) as Hset.
  { intros v. apply update_node_sets. intros e <-. unfold wiring. simpl.
    by rewrite app_nil_r. }
  destruct value as [| |b|r|t|f|c|items]; cbn [is_function option_list];
    try apply Hset.
  destruct (Js.startsWith "on" key); cbn [negb andb option_list].
  - apply update_node_sets. by intros e <-.
  - destruct (bool_decide (key = "ref")); cbn [negb]; [|apply Hset].
    rewrite app_nil_r, <- surjective_pairing.
    eapply ensures_weaken; [apply (call_keeps_proj wiring n w)|..]; done.
Qed.

Lemma forEach_apply_rest_wires n rest : ∀ w,
  ensures (λ s, ∃ e, nodes (doc s) !! n = Some e ∧ wiring e = w)
    (forEach (apply_rest n) rest)
    (λ _ s, ∃ e, nodes (doc s) !! n = Some e
                 ∧ wiring e = foldl (λ w kv, wire kv w) w rest)
    (λ _, True).
Proof.
  induction rest as [|kv rest IH]; intros w; simpl.
  - by apply ensures_ret.
  - eapply ensures_bind; [apply apply_rest_wires|]. intros []. apply IH.
Qed.

Lemma foldl_wire rest : ∀ w,
  foldl (λ w kv, wire kv w) w rest
  = ((w.1 ++ omap handler rest)%list,
     foldl (λ m kv, <[kv.1 := kv.2]> m) w.2
       (filter (λ kv, assigned kv = true) rest)).
Proof.
  induction rest as [|kv rest IH]; intros w; simpl.
  - by rewrite app_nil_r, <- surjective_pairing.
  - rewrite IH. unfold wire at 1 2. cbn [fst snd]. rewrite filter_cons.
    f_equal.
    + rewrite <- (assoc_L (++)). by destruct (handler kv).
    + destruct (assigned kv); [by rewrite decide_True|by rewrite decide_False].
Qed.

(** The listeners and the properties of the node [createElement] returns
    are those its other props stand for. *)
Lemma createElement_wiring tag props s n s' :
  createElement tag props s = (Some n, s') →
  ∃ e, node_at s' n = Some e ∧
       wiring e = foldl (λ w kv, wire kv w) ([], ∅) (Props.rest props).
Proof.
  intros H. destruct (createElement_dom _ _ _ _ _ H) as [-> _].
  set (n := fresh (dom (nodes (doc s)))) in *.
  unfold createElement in H.
  apply bind_Some in H as (n' & s1 & H1 & H).
  apply document_createElement_Some in H1 as (_ & -> & ->). fold n in H.
  set (Q := λ w s, ∃ e, nodes (doc s) !! n = Some e ∧ wiring e = w).
  match type of H with _ ?s1 = _ => assert (Q ([], ∅) s1) as H0 end.
  { exists (blank (Js.asciiLowerCase tag)). simpl. by rewrite lookup_insert_eq. }
  apply bind_Some in H as ([] & s2 & H2 & H).
  assert (Q ([], ∅) s2) as H2'.
  { refine (keeps_result _ _ _ _ _ _ H0 H2).
    unfold classList_add. repeat keeps_step;
      first [ apply css_keeps_proj | by apply update_node_keeps_proj ]. }
  apply bind_Some in H as ([] & s3 & H3 & H).
  assert (Q ([], ∅) s3) as H3'.
  { refine (keeps_result _ _ _ _ _ _ H2' H3).
    unfold set_className. repeat keeps_step; by apply update_node_keeps_proj. }
  apply bind_Some in H as ([] & s4 & H4 & H).
  assert (Q ([], ∅) s4) as H4'.
  { refine (keeps_result _ _ _ _ _ _ H3' H4).
    unfold assign_style. repeat keeps_step; by apply update_node_keeps_proj. }
  apply bind_Some in H as ([] & s5 & H5 & H).
  assert (Q ([], ∅) s5) as H5'.
  { refine (keeps_result _ _ _ _ _ _ H4' H5).
    unfold assign_dataset. repeat keeps_step; by apply update_node_keeps_proj. }
  apply bind_Some in H as ([] & s6 & H6 & H).
  pose proof (ensures_result _ _ _ _ _ _ _
                (forEach_apply_rest_wires n (Props.rest props) ([], ∅))
                H5' H6) as H6'.
  apply bind_Some in H as ([] & s7 & H7 & H). injection H as <-.
  refine (keeps_result _ _ _ _ _ _ H6' H7).
  by apply children_keep_proj.
Qed.

(** X14.  When the other props are event handlers (functions under keys
    that start with [on], whatever follows: [onClick], and [once] or
    [only] as well), no function being given twice for one event, the
    node [createElement] returns listens with each of them, in their
    order, to the event named by the rest of the key in lower case, and
    nothing is assigned to it. *)
Theorem createElement_wires_the_handlers
    (tag : string) (props : Props.t) (s : runtime) (n : nid) (s' : runtime) :
  only_handlers (Props.rest props) →
  NoDup (omap handler (Props.rest props)) →
  createElement tag props s = (Some n, s') →
  ∃ e,
    node_at s' n = Some e ∧
    listeners e = omap handler (Props.rest props) ∧
    length (listeners e) = length (Props.rest props) ∧
    properties e = ∅.
Proof.
  intros Hrest _ H.
  destruct (createElement_wiring _ _ _ _ _ H) as (e & He & Hw).
  rewrite foldl_wire in Hw. injection Hw as Hl Hpr.
  exists e. split; [done|]. split; [done|].
  rewrite Hl, Hpr. clear -Hrest.
  induction Hrest as [|[key value] rest Hkv _ [IH1 IH2]]; [done|].
  destruct value; try done. cbn [fst snd] in Hkv.
  assert (handler (key, VFun f) = Some (eventName key, f)) as Hh
    by (unfold handler; cbn [fst snd]; by rewrite Hkv).
  assert (assigned (key, VFun f) = false) as Ha
    by (unfold assigned; cbn [fst snd]; by rewrite Hkv).
  rewrite filter_cons_False by by rewrite Ha.
  split; [|done]. cbn [omap list_omap]. rewrite Hh.
  cbn [length]. f_equal. exact IH1.
Qed.

Lemma createElement_wires_the_handlers_witness :
  ∃ e,
    node_at (createElement "div" wired initial).2 2%positive = Some e ∧
    listeners e = [("click", Host 0); ("ce", Host 1); ("mouseover", Host 0)] ∧
    length (listeners e) = 3%nat ∧
    properties e = ∅.
Proof.
  apply (createElement_wires_the_handlers "div" wired initial 2%positive
           (createElement "div" wired initial).2).
  - repeat (apply Forall_cons; split; [reflexivity|]). apply Forall_nil_2.
  - vm_compute. repeat (apply NoDup_cons; split; [set_solver|]).
    apply NoDup_nil_2.
  - reflexivity.
Defined.

(** ** The class attribute *)

Lemma css_result_frame d s s1 :
  store s1 = store s → engine s1 = engine s → surface s1 = surface s →
  (css d s1).1 = (css d s).1 ∧ engine (css d s1).2 = engine (css d s).2.
Proof.
  intros Hst Hen Hsu.
  rewrite !css_eq, (processedStyles_store d s s1 Hst), Hen.
  destruct (processedStyles d s) as [m|].
  - destruct (styleCache (engine s) !! _).
    + split; [done|]. unfold started, cssRules. simpl. by rewrite Hen.
    + assert (accepts s1 (cssString m) = accepts s (cssString m)) as ->
        by (unfold accepts; by rewrite Hen, Hsu).
      destruct (accepts s (cssString m)); (split; [done|]);
        unfold minted, rejected, cssRules; simpl; by rewrite Hen.
  - split; [done|]. unfold started, cssRules. simpl. by rewrite Hen.
Qed.

Lemma apply_rest_keeps_proj {A} (proj : element → A) n a y kv :
  (∀ g e, proj (with_children g e) = proj e) →
  (∀ p e, proj (with_parent p e) = proj e) →
  (∀ e name f,
     proj (Element (localName e) (className e) (inlineStyle e) (dataset e)
             (listeners e ++ [(name, f)])%list (properties e) (childNodes e)
             (parentNode e)) = proj e) →
  (∀ e k v,
     proj (Element (localName e) (className e) (inlineStyle e) (dataset e)
             (listeners e) (<[k := v]> (properties e)) (childNodes e)
             (parentNode e)) = proj e) →
  keeps (λ s, ∃ e, nodes (doc s) !! n = Some e ∧ proj e = a)
    (apply_rest y kv).
Proof.
  intros Hc Hp Hl Hs. destruct kv as [key value].
  unfold apply_rest, addEventListener, set_property.
  repeat keeps_step;
    first [ by apply call_keeps_proj
          | apply update_node_keeps_proj; intros; by auto ].
Qed.

(** The class attribute of the node [createElement] returns. *)
Lemma createElement_className tag props s n s' :
  createElement tag props s = (Some n, s') →
  ∃ e, node_at s' n = Some e ∧
       className e
       = match Props.className props with
         | Truthy (ClassArray l) => Js.join " " (l ≫= nonempty)
         | Truthy (ClassString c) =>
             if bool_decide (c = "") then generatedClass props s else c
         | _ => generatedClass props s
         end.
Proof.
  intros H. destruct (createElement_dom _ _ _ _ _ H) as [-> _].
  set (n := fresh (dom (nodes (doc s)))) in *.
  unfold createElement in H.
  apply bind_Some in H as (n' & s1 & H1 & H).
  apply document_createElement_Some in H1 as (_ & -> & ->). fold n in H.
  set (Q := λ c s, ∃ e, nodes (doc s) !! n = Some e ∧ className e = c).
  apply bind_Some in H as ([] & s2 & H2 & H).
  assert (Q (generatedClass props s) s2) as H2'.
  { unfold generatedClass. destruct (Props.cssStyles props) as [| |d].
    - injection H2 as <-. exists (blank (Js.asciiLowerCase tag)). simpl.
      by rewrite lookup_insert_eq.
    - injection H2 as <-. exists (blank (Js.asciiLowerCase tag)). simpl.
      by rewrite lookup_insert_eq.
    - apply bind_Some in H2 as (c & s1' & Hcss & H2).
      match type of Hcss with css d ?s0 = _ =>
        destruct (css_result_frame d s s0) as [E _]; [done|done|done|];
        pose proof (css_doc d s0) as Hd
      end.
      rewrite Hcss in E, Hd. cbn [fst snd] in E, Hd. rewrite <- E.
      cbn [default].
      injection H2 as <-. exists (with_className c (blank (Js.asciiLowerCase tag))).
      cbn [classList_add update_node set_nodes modify with_doc doc nodes snd].
      rewrite Hd. cbn [doc nodes with_doc].
      by rewrite lookup_alter_eq, lookup_insert_eq. }
  apply bind_Some in H as ([] & s3 & H3 & H).
  set (final := match Props.className props with
                | Truthy (ClassArray l) => Js.join " " (l ≫= nonempty)
                | Truthy (ClassString c) =>
                    if bool_decide (c = "") then generatedClass props s else c
                | _ => generatedClass props s
                end).
  assert (Q final s3) as H3'.
  { unfold final. destruct (Props.className props) as [| |[c|l]].
    - by injection H3 as <-.
    - by injection H3 as <-.
    - destruct (bool_decide (c = "")); [by injection H3 as <-|].
      refine (ensures_result _ _ (λ _, Q c) (λ _, True) _ _ _ _ H2' H3).
      by apply (update_node_sets className).
    - refine (ensures_result _ _ (λ _, Q (Js.join " " (l ≫= nonempty)))
                (λ _, True) _ _ _ _ H2' H3).
      by apply (update_node_sets className). }
  apply bind_Some in H as ([] & s4 & H4 & H).
  assert (Q final s4) as H4'.
  { refine (keeps_result _ _ _ _ _ _ H3' H4).
    unfold assign_style. repeat keeps_step; by apply update_node_keeps_proj. }
  apply bind_Some in H as ([] & s5 & H5 & H).
  assert (Q final s5) as H5'.
  { refine (keeps_result _ _ _ _ _ _ H4' H5).
    unfold assign_dataset. repeat keeps_step; by apply update_node_keeps_proj. }
  apply bind_Some in H as ([] & s6 & H6 & H).
  assert (Q final s6) as H6'.
  { refine (keeps_result _ _ _ _ _ _ H5' H6).
    apply keeps_forEach. intros kv. by apply apply_rest_keeps_proj. }
  apply bind_Some in H as ([] & s7 & H7 & H). injection H as <-.
  refine (keeps_result _ _ _ _ _ _ H6' H7).
  by apply children_keep_proj.
Qed.

(** X15.  The other props being event handlers, the class attribute of
    the node [createElement] returns is the literal [className] when
    there is one (a non-empty string as it is, an array as its non-empty
    entries joined by spaces, even when it has none), and the class [css]
    returns for [cssStyles] only when there is no literal [className]. *)
Theorem createElement_class_attribute
    (tag : string) (props : Props.t) (s : runtime) (n : nid) (s' : runtime) :
  only_handlers (Props.rest props) →
  createElement tag props s = (Some n, s') →
  ∃ e,
    node_at s' n = Some e ∧
    className e
    = match Props.className props with
      | Truthy (ClassArray l) => Js.join " " (l ≫= nonempty)
      | Truthy (ClassString c) =>
          if bool_decide (c = "") then generatedClass props s else c
      | _ => generatedClass props s
      end.
Proof. intros _ H. exact (createElement_className _ _ _ _ _ H). Qed.

Lemma createElement_class_attribute_witness :
  (∃ e, node_at (createElement "div" labelled initial).2 2%positive = Some e ∧
        className e = "a b") ∧
  (∃ e, node_at (createElement "div" styledHandler initial).2 2%positive
        = Some e ∧
        className e = "zen-style-0").
Proof.
  split.
  - apply (createElement_class_attribute "div" labelled initial 2%positive
             (createElement "div" labelled initial).2).
    + apply Forall_cons. split; [reflexivity|]. apply Forall_nil_2.
    + reflexivity.
  - apply (createElement_class_attribute "div" styledHandler initial 2%positive
             (createElement "div" styledHandler initial).2).
    + apply Forall_cons. split; [reflexivity|]. apply Forall_nil_2.
    + reflexivity.
Defined.

(** ** The style engine *)

(** X16.  The other props being event handlers, [createElement] does to
    the style engine (stylesheet, cache and counter) what its one call of
    [css] for [cssStyles] does, whether it returns or throws later; it
    does nothing to it when the props have no [cssStyles], and nothing
    when the surface does not take the name of the element, which is
    made first. *)
Theorem createElement_engine (tag : string) (props : Props.t) (s : runtime) :
  only_handlers (Props.rest props) →
  engine (createElement tag props s).2
  = if validName (surface s) tag then
      match Props.cssStyles props with
      | Truthy d => engine (css d s).2
      | _ => engine s
      end
    else engine s.
Proof.
  intros _.
  unfold createElement. unfold mbind at 1, M_bind at 1.
  destruct (document_createElement tag s) as [[n|] s1] eqn:H1.
  2: { unfold document_createElement in H1.
       destruct (validName (surface s) tag); [done|]. by injection H1 as <-. }
  apply document_createElement_Some in H1 as (-> & _ & ->).
  set (s1 := with_doc _ s).
  set (e0 := match Props.cssStyles props with
             | Truthy d => engine (css d s).2
             | _ => engine s
             end).
  unfold mbind at 1, M_bind at 1.
  match goal with |- engine (match ?m s1 with _ => _ end).2 = _ =>
    assert (engine (m s1).2 = e0) as Hcss
  end.
  { unfold e0. destruct (Props.cssStyles props) as [| |d]; [done|done|].
    destruct (css_result_frame d s s1) as [_ E]; [done|done|done|].
    unfold mbind, M_bind. destruct (css d s1) as [[c|] s2]; [|done].
    simpl in E. by rewrite <- E. }
  match goal with |- engine (match ?m s1 with _ => _ end).2 = _ =>
    destruct (m s1) as [[[]|] s2]; [|done]
  end.
  simpl in Hcss.
  match goal with |- engine (?m s2).2 = _ =>
    apply (keeps_state (λ s', (λ e, e = e0) (engine s')) m s2); [|done]
  end.
  unfold set_className, assign_style.
  repeat keeps_step;
    first [ apply (update_node_keeps (λ e, e = e0))
          | apply (apply_rest_keeps (λ e, e = e0))
          | apply (set_textContent_keeps (λ e, e = e0))
          | apply (appendChild_keeps (λ e, e = e0))
          | apply (append_entry_keeps (λ e, e = e0)) ].
Qed.

Lemma createElement_engine_witness :
  engine (createElement "div" styledHandler initial).2
  = engine (css colorRed initial).2 ∧
  engine (createElement "my tag" styledHandler initial).2 = engine initial.
Proof.
  split.
  - apply (createElement_engine "div" styledHandler initial).
    apply Forall_cons. split; [reflexivity|]. apply Forall_nil_2.
  - apply (createElement_engine "my tag" styledHandler initial).
    apply Forall_cons. split; [reflexivity|]. apply Forall_nil_2.
Defined.

(** ** The children *)

Lemma update_node_keeps_children n L y f :
  (∀ e, childNodes e = L → childNodes (f e) = L) →
  keeps (λ s, ∃ e, nodes (doc s) !! n = Some e ∧ childNodes e = L)
    (update_node y f).
Proof.
  intros Hf. apply keeps_modify. intros s (e & He & Hn). simpl.
  destruct (decide (y = n)) as [->|Hne].
  - exists (f e). rewrite lookup_alter_eq, He. split; [done|]. by apply Hf.
  - exists e. by rewrite lookup_alter_ne.
Qed.

Lemma filter_other_children (c : nid) (L : list child) :
  CElem c ∉ L → filter (λ x, x ≠ CElem c) L = L.
Proof.
  intros Hc. induction L as [|x L IH]; [done|].
  apply not_elem_of_cons in Hc as [Hx Hc].
  rewrite filter_cons_True by done. by rewrite IH.
Qed.

Lemma appendChild_children n L c :
  (∀ x, c = CElem x → c ∉ L) →
  ensures (λ s, ∃ e, nodes (doc s) !! n = Some e ∧ childNodes e = L)
    (appendChild n c)
    (λ _ s, ∃ e, nodes (doc s) !! n = Some e ∧ childNodes e = (L ++ [c])%list)
    (λ _, True).
Proof.
  intros Hc. unfold appendChild. destruct c as [t|c].
  - apply (update_node_sets childNodes). by intros e <-.
  - specialize (Hc c eq_refl).
    apply ensures_bind_keeps; [apply keeps_get_state|]. intros s0.
    apply ensures_bind_keeps.
    { destruct (parent_of s0 c) as [q|]; [|apply keeps_ret].
      unfold removeChild. repeat keeps_step;
        apply update_node_keeps_children; intros e <-; simpl; [|done].
      by apply filter_other_children. }
    intros []. eapply ensures_bind.
    { apply (update_node_sets childNodes n L (L ++ [CElem c])%list).
      by intros e <-. }
    intros [].
    eapply ensures_weaken;
      [apply (update_node_keeps_children n (L ++ [CElem c])%list)|..];
      try done.
Qed.

Lemma append_entry_children n L v :
  (∀ c, v = VNode c → CElem c ∉ L) →
  ensures (λ s, ∃ e, nodes (doc s) !! n = Some e ∧ childNodes e = L)
    (append_entry n v)
    (λ _ s, ∃ e, nodes (doc s) !! n = Some e
                 ∧ childNodes e = (L ++ option_list (as_child v))%list)
    (λ _, True).
Proof.
  intros Hv. unfold append_entry.
  destruct v as [| |b|r|t|f|c|items]; cbn [truthy as_child option_list].
  - apply ensures_ret. intros s Hs. by rewrite app_nil_r.
  - apply ensures_ret. intros s Hs. by rewrite app_nil_r.
  - destruct b; [by apply ensures_throw|].
    apply ensures_ret. intros s Hs. by rewrite app_nil_r.
  - destruct (negb _); [by apply ensures_throw|].
    apply ensures_ret. intros s Hs. by rewrite app_nil_r.
  - destruct (bool_decide (t = "")); cbn [negb option_list].
    + apply ensures_ret. intros s Hs. by rewrite app_nil_r.
    + by apply appendChild_children.
  - by apply ensures_throw.
  - apply appendChild_children. intros x [= <-]. by apply Hv.
  - by apply ensures_throw.
Qed.

Lemma node_entries_cons v items :
  node_entries (v :: items)
  = (match v with VNode c => [c] | _ => [] end ++ node_entries items)%list.
Proof. by destruct v. Qed.

Lemma elem_of_as_child c items :
  CElem c ∈ omap as_child items → c ∈ node_entries items.
Proof.
  induction items as [|v items IH]; [by intros ?%elem_of_nil|].
  rewrite node_entries_cons. cbn [omap list_omap].
  destruct v as [| |b|r|t|f|x|l]; cbn [as_child app]; try done.
  - destruct (bool_decide (t = "")); [done|].
    intros [?|?]%elem_of_cons; [done|auto].
  - intros [[= ->]|?]%elem_of_cons; set_solver.
Qed.

Lemma as_child_cons v items :
  omap as_child (v :: items)
  = (option_list (as_child v) ++ omap as_child items)%list.
Proof. cbn [omap list_omap]. by destruct (as_child v). Qed.

Lemma forEach_append_entry_children n items : ∀ L,
  NoDup (node_entries items) →
  (∀ c, c ∈ node_entries items → CElem c ∉ L) →
  ensures (λ s, ∃ e, nodes (doc s) !! n = Some e ∧ childNodes e = L)
    (forEach (append_entry n) items)
    (λ _ s, ∃ e, nodes (doc s) !! n = Some e
                 ∧ childNodes e = (L ++ omap as_child items)%list)
    (λ _, True).
Proof.
  induction items as [|v items IH]; intros L Hnd HL.
  - apply ensures_ret. intros s Hs. by rewrite app_nil_r.
  - rewrite node_entries_cons in Hnd, HL. cbn [forEach].
    eapply ensures_bind.
    { apply append_entry_children. intros c ->. apply HL. set_solver. }
    intros []. rewrite as_child_cons, (assoc_L (++)).
    apply IH.
    + destruct v; simpl in Hnd; try done. by apply NoDup_cons in Hnd as [_ ?].
    + intros c Hc Hin. apply elem_of_app in Hin as [Hin|Hin].
      * apply (HL c); [set_solver|done].
      * destruct v as [| |b|r|t|f|x|l]; simpl in Hin;
          try by apply elem_of_nil in Hin.
        -- destruct (bool_decide (t = "")); simpl in Hin; set_solver.
        -- apply list_elem_of_singleton in Hin as [= ->].
           simpl in Hnd. apply NoDup_cons in Hnd as [Hx _]. done.
Qed.

Lemma set_textContent_children n text :
  ensures (λ s, ∃ e, nodes (doc s) !! n = Some e ∧ childNodes e = [])
    (set_textContent n text)
    (λ _ s, ∃ e, nodes (doc s) !! n = Some e
                 ∧ childNodes e = if bool_decide (text = "") then []
                                  else [CText text])
    (λ _, True).
Proof.
  intros s (e & He & Hc). unfold set_textContent, mbind, M_bind, get_state.
  unfold node_at. rewrite He. cbn [fmap option_fmap option_map default].
  rewrite Hc. cbn [forEach mret M_ret].
  refine (update_node_sets childNodes n []
            (if bool_decide (text = "") then [] else [CText text])
            _ _ s _); [done|].
  by exists e.
Qed.

(** The children of the node [createElement] returns. *)
Lemma createElement_children_of tag props s n s' :
  Forall (λ kv, keeps (λ s, ∃ e, nodes (doc s) !! n = Some e
                                 ∧ childNodes e = []) (apply_rest n kv))
    (Props.rest props) →
  (∀ items, Props.children props = VArr items → NoDup (node_entries items)) →
  createElement tag props s = (Some n, s') →
  ∃ e, node_at s' n = Some e ∧
       childNodes e = children_of (Props.children props).
Proof.
  intros Hrest Hnd H.
  assert (props = set_children (Props.children props) props) as E
    by by destruct props.
  rewrite E, createElement_children in H.
  apply bind_Some in H as (n' & s6 & Hb & H).
  apply bind_Some in H as ([] & s7 & H7 & H). injection H as -> <-.
  destruct (createElement_no_child tag props VUndefined s n s6 eq_refl
              Hrest Hb) as (e6 & He6 & Hc6).
  set (P L := λ s, ∃ e, nodes (doc s) !! n = Some e ∧ childNodes e = L).
  assert (P [] s6) as H6 by by exists e6.
  destruct (Props.children props) as [| |b|r|text|f|c|items];
    cbn [truthy children_of] in *.
  - by injection H7 as <-.
  - by injection H7 as <-.
  - destruct b; [done|]. by injection H7 as <-.
  - destruct (negb _); [done|]. by injection H7 as <-.
  - destruct (bool_decide (text = "")) eqn:Ht; cbn [negb] in H7.
    + by injection H7 as <-.
    + pose proof (ensures_result _ _ _ _ _ _ _
                    (set_textContent_children n text) H6 H7) as H'.
      by rewrite Ht in H'.
  - done.
  - refine (ensures_result _ _ (λ _, P [CElem c]) (λ _, True) _ _ _ _ H6 H7).
    apply (appendChild_children n [] (CElem c)).
    intros x _. apply not_elem_of_nil.
  - refine (ensures_result _ _ (λ _, P (omap as_child items)) (λ _, True)
              _ _ _ _ H6 H7).
    apply (forEach_append_entry_children n items []); [by apply Hnd|].
    intros c _. apply not_elem_of_nil.
Qed.

Lemma createElement_childNodes tag props s n s' :
  Forall (λ kv, tame kv.2) (Props.rest props) →
  (∀ items, Props.children props = VArr items → NoDup (node_entries items)) →
  createElement tag props s = (Some n, s') →
  ∃ e, node_at s' n = Some e ∧
       childNodes e = children_of (Props.children props).
Proof.
  intros Hrest. apply createElement_children_of.
  eapply Forall_impl; [exact Hrest|].
  intros kv Hkv. by apply apply_rest_keeps_childless.
Qed.

(** X17.  The other props being event handlers, the children of the
    node [createElement] returns are: for a string, one text node; for a
    node, that node; for an array, its truthy entries in their order, the
    strings as text nodes (no node being listed twice); for a falsy
    value, none. *)
Theorem createElement_children_are_the_entries
    (tag : string) (props : Props.t) (s : runtime) (n : nid) (s' : runtime) :
  only_handlers (Props.rest props) →
  (∀ items, Props.children props = VArr items → NoDup (node_entries items)) →
  createElement tag props s = (Some n, s') →
  ∃ e,
    node_at s' n = Some e ∧
    childNodes e = children_of (Props.children props).
Proof.
  intros Hrest. apply createElement_children_of.
  eapply Forall_impl; [exact Hrest|].
  intros kv Hkv. by apply apply_handler_keeps_childless.
Qed.

Lemma createElement_children_are_the_entries_witness :
  ∃ e,
    node_at (createElement "ul" listed initial).2 2%positive = Some e ∧
    childNodes e = [CText "x"; CElem body; CText "y"].
Proof.
  apply (createElement_children_are_the_entries "ul" listed initial 2%positive
           (createElement "ul" listed initial).2).
  - apply Forall_cons. split; [reflexivity|]. apply Forall_nil_2.
  - intros items [= <-]. apply NoDup_singleton.
  - reflexivity.
Defined.

(** ** What the builder does to the other nodes *)

Section other_frame.
Context (x : nid) (o : option element).
Let P : runtime → Prop := λ s, nodes (doc s) !! x = o.

Lemma update_node_keeps_other y f : y ≠ x → keeps P (update_node y f).
Proof.
  intros Hne. apply keeps_modify. intros s Hs. unfold P. simpl.
  by rewrite lookup_alter_ne.
Qed.

Lemma css_keeps_other d : keeps P (css d).
Proof.
  intros s Hs. pose proof (css_doc d s) as E.
  destruct (css d s) as [[c|] s1]; simpl in E; unfold P; by rewrite E.
Qed.

Lemma apply_rest_keeps_other D y kv :
  y ≠ x → host_value D kv.2 → keeps P (apply_rest y kv).
Proof.
  destruct kv as [key value]. simpl. intros Hne Hv.
  unfold apply_rest, addEventListener, set_property.
  destruct Hv; simpl; repeat keeps_step;
    first [ by apply update_node_keeps_other | by apply keeps_modify ].
Qed.
End other_frame.

(** Up to its last step, the builder changes no node but the one it
    makes. *)
Lemma build_leaves_the_others D tag props s n s' x :
  Forall (λ kv, host_value D kv.2) (Props.rest props) →
  build tag props s = (Some n, s') →
  x ≠ n →
  nodes (doc s') !! x = nodes (doc s) !! x.
Proof.
  intros Hrest H Hx. unfold build in H.
  destruct (createElement_dom _ _ _ _ _ H) as [-> _].
  set (n := fresh (dom (nodes (doc s)))) in *.
  unfold createElement in H.
  cbn [set_children Props.children Props.cssStyles Props.className
       Props.style Props.dataset Props.rest truthy] in H.
  apply bind_Some in H as (n' & s1 & H1 & H).
  apply document_createElement_Some in H1 as (_ & -> & ->). fold n in H.
  match type of H with ?m ?s1 = _ =>
    assert (keeps (λ s', nodes (doc s') !! x = nodes (doc s) !! x) m) as Hk
  end.
  { unfold classList_add, set_className, assign_style, assign_dataset.
    repeat (apply keeps_bind; [|intros ?]).
    5: { apply keeps_forEach_Forall. eapply Forall_impl; [exact Hrest|].
         intros kv Hkv.
         exact (apply_rest_keeps_other x _ D n kv (not_eq_sym Hx) Hkv). }
    all: repeat keeps_step;
      first [ apply update_node_keeps_other; congruence
            | apply css_keeps_other ]. }
  refine (keeps_result _ _ _ _ _ Hk _ H).
  simpl. by rewrite lookup_insert_ne.
Qed.

Lemma appendChild_moves n c q s :
  parent_of s c = Some q →
  nodes (doc (appendChild n (CElem c) s).2)
  = alter (with_parent (Some n)) c
      (alter (with_children (λ l, l ++ [CElem c])%list) n
         (alter (with_parent None) c
            (alter (with_children (filter (λ x, x ≠ CElem c))) q
               (nodes (doc s))))).
Proof.
  intros Hq. unfold appendChild, mbind, M_bind, get_state. by rewrite Hq.
Qed.

(** X18.  The other props being event handlers of the host, a node
    passed as [children] that has a parent already is moved: it becomes
    the only child of the node [createElement] returns, its old parent
    loses it, and no other node of the document changes. *)
Theorem createElement_moves_a_child
    (tag : string) (props : Props.t) (c q : nid) (ec eq : element)
    (s : runtime) (n : nid) (s' : runtime) :
  only_handlers (Props.rest props) →
  Forall (λ kv, host_value (dom (nodes (doc s))) kv.2) (Props.rest props) →
  Props.children props = VNode c →
  node_at s c = Some ec →
  parentNode ec = Some q →
  node_at s q = Some eq →
  c ≠ q →
  createElement tag props s = (Some n, s') →
  childNodes <$> node_at s' n = Some [CElem c] ∧
  parent_of s' c = Some n ∧
  childNodes <$> node_at s' q
  = Some (filter (λ x, x ≠ CElem c) (childNodes eq)) ∧
  ∀ x, x ≠ n → x ≠ c → x ≠ q → node_at s' x = node_at s x.
Proof.
  intros _ Hrest Hch Hc Hpar Hq Hcq H.
  destruct (createElement_dom _ _ _ _ _ H) as [Hfresh _].
  assert (c ≠ n) as Hcn.
  { intros ->. apply (is_fresh (dom (nodes (doc s)))). rewrite <- Hfresh.
    apply elem_of_dom. by exists ec. }
  assert (q ≠ n) as Hqn.
  { intros ->. apply (is_fresh (dom (nodes (doc s)))). rewrite <- Hfresh.
    apply elem_of_dom. by exists eq. }
  destruct (createElement_childNodes tag props s n s') as (e & He & Hce);
    [|by intros items; rewrite Hch|done|].
  { eapply Forall_impl; [exact Hrest|]. intros kv. apply host_value_tame. }
  split; [rewrite He; simpl; by rewrite Hce, Hch|].
  assert (props = set_children (VNode c) props) as E
    by (rewrite <- Hch; by destruct props).
  rewrite E, createElement_children in H.
  apply bind_Some in H as (n' & s6 & Hb & H).
  apply bind_Some in H as ([] & s7 & H7 & H). injection H as -> <-.
  cbn [truthy] in H7.
  pose proof (λ x, build_leaves_the_others _ tag props s n s6 x Hrest Hb)
    as Hothers.
  assert (parent_of s6 c = Some q) as Hpc.
  { unfold parent_of, node_at. rewrite Hothers by done.
    unfold node_at in Hc. by rewrite Hc. }
  pose proof (appendChild_moves n c q s6 Hpc) as Hn7.
  rewrite H7 in Hn7. cbn [snd] in Hn7.
  split; [|split].
  - unfold parent_of, node_at. rewrite Hn7, lookup_alter_eq.
    rewrite lookup_alter_ne, lookup_alter_eq by done.
    rewrite lookup_alter_ne, Hothers by done.
    unfold node_at in Hc. by rewrite Hc.
  - unfold node_at. rewrite Hn7.
    rewrite !lookup_alter_ne, lookup_alter_eq, Hothers by done.
    unfold node_at in Hq. by rewrite Hq.
  - intros x Hxn Hxc Hxq. unfold node_at. rewrite Hn7.
    rewrite !lookup_alter_ne by done. by apply Hothers.
Qed.

Lemma createElement_moves_a_child_witness :
  childNodes <$> node_at (createElement "section" adopting nested).2 4%positive
  = Some [CElem 2%positive] ∧
  parent_of (createElement "section" adopting nested).2 2%positive
  = Some 4%positive ∧
  childNodes <$> node_at (createElement "section" adopting nested).2 3%positive
  = Some [] ∧
  ∀ x, x ≠ 4%positive → x ≠ 2%positive → x ≠ 3%positive →
       node_at (createElement "section" adopting nested).2 x = node_at nested x.
Proof.
  apply (createElement_moves_a_child "section" adopting 2%positive 3%positive
           (Element "span" "" ∅ ∅ [] ∅ [] (Some 3%positive))
           (Element "div" "" ∅ ∅ [] ∅ [CElem 2%positive] None) nested
           4%positive (createElement "section" adopting nested).2).
  - apply Forall_cons. split; [reflexivity|]. apply Forall_nil_2.
  - apply Forall_cons. split; [apply host_fun|]. apply Forall_nil_2.
  - reflexivity.
  - vm_compute. reflexivity.
  - reflexivity.
  - vm_compute. reflexivity.
  - done.
  - vm_compute. reflexivity.
Defined.

(** ** Who is whose parent *)

Section parent_frame.
Context (x : nid) (p : option nid).
Let P : runtime → Prop := λ s, parent_of s x = p.

Lemma update_node_keeps_parent y f :
  (∀ e, parentNode (f e) = parentNode e) → keeps P (update_node y f).
Proof.
  intros Hf. apply keeps_modify. intros s Hs. unfold P, parent_of, node_at.
  simpl. destruct (decide (y = x)) as [->|Hne].
  - rewrite lookup_alter_eq. unfold P, parent_of, node_at in Hs.
    destruct (nodes (doc s) !! x) as [e|]; [|done]. simpl in *.
    by rewrite Hf.
  - by rewrite lookup_alter_ne.
Qed.

Lemma update_other_keeps_parent y f : y ≠ x → keeps P (update_node y f).
Proof.
  intros Hne. apply keeps_modify. intros s Hs. unfold P, parent_of, node_at.
  simpl. by rewrite lookup_alter_ne.
Qed.

Lemma doc_keeps_parent {A} (m : M A) :
  (∀ s, nodes (doc (m s).2) = nodes (doc s)) → keeps P m.
Proof.
  intros H s Hs. specialize (H s). unfold P, parent_of, node_at.
  destruct (m s) as [[a|] s1]; simpl in *; by rewrite H.
Qed.

Lemma css_keeps_parent d : keeps P (css d).
Proof. apply doc_keeps_parent. intros s. by rewrite css_doc. Qed.

Lemma removeChild_keeps_parent q c : c ≠ x → keeps P (removeChild q c).
Proof.
  intros Hc. unfold removeChild. repeat keeps_step.
  - by apply update_node_keeps_parent.
  - by apply update_other_keeps_parent.
Qed.

Lemma appendChild_keeps_parent q c :
  c ≠ CElem x → keeps P (appendChild q c).
Proof.
  intros Hc. unfold appendChild. destruct c as [t|c].
  - by apply update_node_keeps_parent.
  - assert (c ≠ x) by congruence.
    repeat keeps_step;
      first [ by apply removeChild_keeps_parent
            | by apply update_node_keeps_parent
            | by apply update_other_keeps_parent ].
Qed.

Lemma animate_keeps_parent e k o : keeps P (animate e k o).
Proof. unfold animate. repeat keeps_step; by apply doc_keeps_parent. Qed.

Lemma apply_rest_keeps_parent y kv :
  tame kv.2 → keeps P (apply_rest y kv).
Proof.
  destruct kv as [key value]. simpl. intros Hv.
  unfold apply_rest, addEventListener, set_property.
  destruct value as [| |b|r|t|f|c|items]; simpl;
    try (by apply update_node_keeps_parent).
  repeat keeps_step; try (by apply update_node_keeps_parent).
  apply doc_keeps_parent. intros s.
  by destruct (keeps_state _ _ s (call_quiet_only_logged s f (WithNode y) Hv)
                 (only_logged_refl s)) as (_ & _ & E & _).
Qed.

Lemma append_entry_keeps_parent y v :
  v ≠ VNode x → keeps P (append_entry y v).
Proof.
  intros Hv. unfold append_entry.
  repeat keeps_step; apply appendChild_keeps_parent; congruence.
Qed.
End parent_frame.

(** [createElement] leaves the parent of a node it is not given as a
    child. *)
Lemma createElement_keeps_parent x p tag props :
  Forall (λ kv, tame kv.2) (Props.rest props) →
  children_avoid {[x]} (Props.children props) →
  keeps (λ s, parent_of s x = Some p) (createElement tag props).
Proof.
  intros Hrest Hch s Hs.
  assert (x ∈ dom (nodes (doc s))) as Hx.
  { unfold parent_of, node_at in Hs. apply elem_of_dom.
    by destruct (nodes (doc s) !! x). }
  assert (props = set_children (Props.children props) props) as E
    by by destruct props.
  rewrite E, createElement_children. unfold mbind at 1, M_bind at 1.
  destruct (build tag props s) as [[n|] s6] eqn:Hb.
  2:{ (* the builder threw *)
      unfold build in Hb.
      assert (keeps (λ s, parent_of s x = Some p)
                (createElement tag (set_children VUndefined props))) as Hk.
      { clear Hb. intros s0 Hs0.
        assert (x ∈ dom (nodes (doc s0))) as Hx0.
        { unfold parent_of, node_at in Hs0. apply elem_of_dom.
          by destruct (nodes (doc s0) !! x). }
        unfold createElement.
        cbn [set_children Props.children Props.cssStyles Props.className
             Props.style Props.dataset Props.rest truthy].
        unfold mbind at 1, M_bind at 1.
        destruct (document_createElement tag s0) as [[n0|] s1] eqn:H1.
        2: { unfold document_createElement in H1.
             destruct (validName (surface s0) tag); [done|].
             by injection H1 as <-. }
        apply document_createElement_Some in H1 as (_ & -> & ->).
        set (n0 := fresh (dom (nodes (doc s0)))).
        assert (n0 ≠ x) as Hne by by apply fresh_ne.
        match goal with |- match ?m ?s1 with _ => _ end =>
          cut (keeps (λ s, parent_of s x = Some p) m)
        end.
        { intros Hk. apply Hk. unfold parent_of, node_at. simpl.
          by rewrite lookup_insert_ne. }
        unfold classList_add, set_className, assign_style, assign_dataset.
        repeat (apply keeps_bind; [|intros ?]).
        7: apply keeps_ret.
        6: apply keeps_ret.
        5: { apply keeps_forEach_Forall. eapply Forall_impl; [exact Hrest|].
             intros kv Hkv. by apply apply_rest_keeps_parent. }
        all: repeat keeps_step;
          first [ by apply update_node_keeps_parent
                | apply css_keeps_parent ]. }
      pose proof (keeps_state _ _ _ Hk Hs) as H. by rewrite Hb in H. }
  (* the builder returned *)
  pose proof Hb as Hb'. unfold build in Hb'.
  destruct (createElement_dom _ _ _ _ _ Hb') as [Hn _]. subst n.
  set (n := fresh (dom (nodes (doc s)))) in *.
  assert (n ≠ x) as Hne by by apply fresh_ne.
  assert (parent_of s6 x = Some p ∧
          ∃ e, node_at s6 n = Some e ∧ childNodes e = []) as [H6 Hn6].
  { split; [|by apply (createElement_childless tag props VUndefined s n s6)].
    unfold createElement in Hb'.
    cbn [set_children Props.children Props.cssStyles Props.className
         Props.style Props.dataset Props.rest truthy] in Hb'.
    apply bind_Some in Hb' as (n' & s1 & H1 & Hb').
    apply document_createElement_Some in H1 as (_ & -> & ->). fold n in Hb'.
    match type of Hb' with ?m ?s1 = _ =>
      assert (keeps (λ s, parent_of s x = Some p) m) as Hk
    end.
    { unfold classList_add, set_className, assign_style, assign_dataset.
      repeat (apply keeps_bind; [|intros ?]).
      7: apply keeps_ret.
      6: apply keeps_ret.
      5: { apply keeps_forEach_Forall. eapply Forall_impl; [exact Hrest|].
           intros kv Hkv. by apply apply_rest_keeps_parent. }
      all: repeat keeps_step;
        first [ by apply update_node_keeps_parent
              | apply css_keeps_parent ]. }
    refine (keeps_result _ _ _ _ _ Hk _ Hb').
    unfold parent_of, node_at.
    cbn [with_doc doc nodes snd]. fold n.
    by rewrite lookup_insert_ne. }
  match goal with |- match (?m ≫= _) s6 with _ => _ end =>
    assert (match m s6 with (_, s7) => parent_of s7 x = Some p end) as Hm
  end.
  { destruct (Props.children props) as [| |b|r|text|f|c|items];
      cbn [truthy children_avoid] in *; try done.
    - by destruct b.
    - by destruct (negb _).
    - destruct (negb _); [|done].
      destruct Hn6 as (e & He & Hc).
      unfold set_textContent, mbind, M_bind, get_state. rewrite He.
      cbn [fmap option_fmap option_map default id]. rewrite Hc.
      cbn [forEach mret M_ret].
      unfold update_node, set_nodes, modify. cbv beta iota.
      unfold parent_of, node_at. cbn [with_doc doc nodes].
      rewrite lookup_alter_ne by done. exact H6.
    - pose proof (keeps_state (λ s, parent_of s x = Some p)
                    (appendChild n (CElem c)) s6) as H.
      destruct (appendChild n (CElem c) s6) as [r s7]. apply H; [|done].
      apply appendChild_keeps_parent. intros [= ->]. set_solver.
    - pose proof (keeps_state (λ s, parent_of s x = Some p)
                    (forEach (append_entry n) items) s6) as H.
      destruct (forEach (append_entry n) items s6) as [r s7].
      apply H; [|done].
      apply keeps_forEach_Forall. eapply Forall_impl; [exact Hch|].
      intros v Hv. apply append_entry_keeps_parent.
      intros ->. simpl in Hv. set_solver. }
  match type of Hm with match ?m s6 with _ => _ end =>
    unfold mbind, M_bind; destruct (m s6) as [[u|] s7]; exact Hm
  end.
Qed.

(** [createElement] makes itself the parent of a node it is given as a
    child. *)
Lemma append_entry_adopts n x v :
  keeps (λ s, parent_of s x = Some n) (append_entry n v).
Proof.
  assert (v = VNode x ∨ v ≠ VNode x) as [->|Hv].
  { destruct v as [| |b|r|t|f|c|items]; try by right.
    destruct (decide (c = x)) as [->|Hc]; [by left|right; congruence]. }
  2: by apply append_entry_keeps_parent.
  intros s Hs. unfold append_entry. cbn [truthy].
  assert (x ∈ dom (nodes (doc s))) as Hx.
  { unfold parent_of, node_at in Hs. apply elem_of_dom.
    by destruct (nodes (doc s) !! x). }
  pose proof (appendChild_parent n x s Hx) as H.
  by destruct (appendChild n (CElem x) s) as [[[]|] s1].
Qed.

Lemma forEach_append_entry_adopts n x items s s' :
  x ∈ dom (nodes (doc s)) →
  VNode x ∈ items →
  forEach (append_entry n) items s = (Some (), s') →
  parent_of s' x = Some n.
Proof.
  revert s. induction items as [|v items IH]; intros s Hx Hin H.
  - by apply elem_of_nil in Hin.
  - cbn [forEach] in H. apply bind_Some in H as ([] & s1 & H1 & H).
    assert (v = VNode x ∨ v ≠ VNode x) as [->|Hv].
    { destruct v as [| |b|r|t|f|c|its]; try by right.
      destruct (decide (c = x)) as [->|Hc]; [by left|right; congruence]. }
    + assert (parent_of s1 x = Some n) as Hp.
      { unfold append_entry in H1. cbn [truthy] in H1.
        pose proof (appendChild_parent n x s Hx) as E. by rewrite H1 in E. }
      refine (keeps_result (λ s, parent_of s x = Some n) _ _ _ _ _ Hp H).
      apply keeps_forEach. intros v. apply append_entry_adopts.
    + apply elem_of_cons in Hin as [?|Hin]; [done|].
      apply (IH s1); [|done|done].
      pose proof (keeps_result _ _ _ _ _
                    (append_entry_keeps_dom (dom (nodes (doc s))) n v)
                    eq_refl H1) as E.
      simpl in E. by rewrite E.
Qed.

Lemma createElement_adopts tag props s n s' x :
  createElement tag props s = (Some n, s') →
  x ∈ dom (nodes (doc s)) →
  Props.children props = VNode x ∨
  (∃ items, Props.children props = VArr items ∧ VNode x ∈ items) →
  parent_of s' x = Some n.
Proof.
  intros H Hx Hch.
  assert (props = set_children (Props.children props) props) as E
    by by destruct props.
  rewrite E, createElement_children in H.
  apply bind_Some in H as (n' & s6 & Hb & H).
  apply bind_Some in H as ([] & s7 & H7 & H). injection H as -> <-.
  assert (x ∈ dom (nodes (doc s6))) as Hx6.
  { unfold build in Hb. destruct (createElement_dom _ _ _ _ _ Hb) as [_ ->].
    set_solver. }
  destruct Hch as [Hc|(items & Hc & Hin)]; rewrite Hc in H7;
    cbn [truthy] in H7.
  - pose proof (appendChild_parent n x s6 Hx6) as E'. by rewrite H7 in E'.
  - by apply (forEach_append_entry_adopts n x items s6).
Qed.

(** ** The modal with a title *)

Section guarded.
Context (B : gset nid) (D : gset nid) (X : list animation).
Let I := guarded_doc B D X.

Lemma update_node_guarded x f :
  (x ∉ B → ∀ e, Forall (λ l, quiet l.2) (listeners e) →
                Forall (λ l, quiet l.2) (listeners (f e))) →
  (∀ e q, parentNode (f e) = Some q → parentNode e = Some q ∨ q ∉ B) →
  keeps I (update_node x f).
Proof.
  intros Hl Hp. apply keeps_modify.
  intros s ((Hbody & Hne & Hq & Hpar) & HD & HX).
  unfold I, guarded_doc, guarded.
  cbn [with_doc doc nodes animations]. rewrite dom_alter_L.
  split; [|done].
  split; [done|]. split; [done|]. split.
  - intros y e Hy Hyb. apply lookup_alter_Some in Hy
      as [(<- & e0 & He0 & ->)|[_ Hy]]; eauto.
  - intros y e q Hy Hyq. apply lookup_alter_Some in Hy
      as [(<- & e0 & He0 & ->)|[_ Hy]]; [|eauto].
    destruct (Hp _ _ Hyq); eauto.
Qed.

Lemma update_node_fields_guarded x f :
  (∀ e, listeners (f e) = listeners e ∧ parentNode (f e) = parentNode e) →
  keeps I (update_node x f).
Proof.
  intros Hf. apply update_node_guarded.
  - intros _ e. by rewrite (proj1 (Hf e)).
  - intros e q. rewrite (proj2 (Hf e)). auto.
Qed.

Lemma update_node_orphan_guarded x :
  keeps I (update_node x (with_parent None)).
Proof. by apply update_node_guarded. Qed.

Lemma update_node_adopted_guarded x p :
  p ∉ B → keeps I (update_node x (with_parent (Some p))).
Proof.
  intros Hp. apply update_node_guarded; [done|].
  simpl. intros e q [= <-]. by right.
Qed.

Lemma css_guarded d : keeps I (css d).
Proof.
  intros s Hs. pose proof (css_doc d s) as E.
  destruct (css d s) as [[c|] s1]; simpl in E;
    unfold I, guarded_doc, guarded; by rewrite E.
Qed.

Lemma log_host_guarded c : keeps I (log_host c).
Proof. by apply keeps_modify. Qed.

Lemma removeChild_guarded p c : keeps I (removeChild p c).
Proof.
  unfold removeChild. repeat keeps_step.
  - by apply update_node_fields_guarded.
  - apply update_node_orphan_guarded.
Qed.

Lemma appendChild_guarded p c : p ∉ B → keeps I (appendChild p c).
Proof.
  intros Hp. unfold appendChild. destruct c as [text|n].
  - by apply update_node_fields_guarded.
  - repeat keeps_step; try apply removeChild_guarded.
    + by apply update_node_fields_guarded.
    + by apply update_node_adopted_guarded.
Qed.

Lemma set_textContent_guarded n text : keeps I (set_textContent n text).
Proof.
  unfold set_textContent.
  repeat keeps_step;
    first [ by apply update_node_fields_guarded
          | apply update_node_orphan_guarded ].
Qed.

Lemma call_quiet_guarded f : ∀ a, quiet f → keeps I (call f a).
Proof.
  revert f. fix IH 1. intros [tag|v|o m|o] a Hf; simpl in *; try done.
  - apply log_host_guarded.
  - destruct a; repeat keeps_step; by apply IH.
Qed.

Lemma apply_rest_guarded n kv : tame kv.2 → keeps I (apply_rest n kv).
Proof.
  destruct kv as [key value]. simpl. intros Hv. unfold apply_rest.
  destruct value; simpl; try by apply update_node_fields_guarded.
  repeat keeps_step.
  - apply update_node_guarded; [|auto].
    intros _ e He. simpl. apply Forall_app. split; [done|].
    by apply Forall_singleton.
  - by apply call_quiet_guarded.
  - by apply update_node_fields_guarded.
Qed.

Lemma append_entry_guarded n v : n ∉ B → keeps I (append_entry n v).
Proof.
  intros Hn. unfold append_entry. repeat keeps_step;
    by apply appendChild_guarded.
Qed.
End guarded.

Lemma document_createElement_guarded B D X tag :
  ensures (guarded_doc B D X) (document_createElement tag)
    (λ n s', n = fresh D ∧ guarded_doc B ({[n]} ∪ D) X s') (λ _, True).
Proof.
  intros s ((Hbody & Hne & Hq & Hpar) & HD & HX).
  unfold document_createElement. destruct (validName _ _); [|done].
  cbn [with_doc doc nodes animations].
  rewrite HD. split; [done|].
  unfold guarded_doc, guarded. cbn [with_doc doc nodes animations].
  rewrite dom_insert_L, HD. split; [|done].
  split; [set_solver|]. split; [done|]. split.
  - intros x e Hx Hxb. apply lookup_insert_Some in Hx as [[<- <-]|[_ Hx]];
      [by apply Forall_nil|eauto].
  - intros x e q Hx. apply lookup_insert_Some in Hx as [[<- <-]|[_ Hx]];
      [done|eauto].
Qed.

Lemma createElement_guarded B D X tag props :
  Forall (λ kv, tame kv.2) (Props.rest props) →
  (appends (Props.children props) = true → fresh D ∉ B) →
  ensures (guarded_doc B D X) (createElement tag props)
    (λ n s', n = fresh D ∧ guarded_doc B ({[n]} ∪ D) X s') (λ _, True).
Proof.
  intros Hrest Hch. unfold createElement.
  eapply ensures_bind; [apply document_createElement_guarded|].
  intros n. apply ensures_pure. intros ->.
  set (n := fresh D) in *. set (D' := {[n]} ∪ D).
  apply ensures_bind_keeps; [|intros _].
  { unfold classList_add. repeat keeps_step;
      first [apply css_guarded | by apply update_node_fields_guarded]. }
  apply ensures_bind_keeps; [|intros _].
  { unfold set_className. repeat keeps_step;
      by apply update_node_fields_guarded. }
  apply ensures_bind_keeps; [|intros _].
  { unfold assign_style. repeat keeps_step;
      by apply update_node_fields_guarded. }
  apply ensures_bind_keeps; [|intros _].
  { unfold assign_dataset. repeat keeps_step;
      by apply update_node_fields_guarded. }
  apply ensures_bind_keeps; [|intros _].
  { apply keeps_forEach_Forall. eapply Forall_impl; [exact Hrest|].
    intros kv Hkv. by apply apply_rest_guarded. }
  apply ensures_bind_keeps; [|intros _; by apply ensures_ret].
  destruct (Props.children props) as [| |c|r|text|f|c|items];
    cbn [truthy appends] in *.
  1-6: repeat keeps_step; apply set_textContent_guarded.
  - apply appendChild_guarded. by apply Hch.
  - apply keeps_forEach. intros v. apply append_entry_guarded. by apply Hch.
Qed.

(** ** What [createElement] does to the fields of the other nodes *)

Lemma update_node_keeps_ne (φ : element → Prop) x y f :
  y ≠ x →
  keeps (λ s, ∃ e, nodes (doc s) !! x = Some e ∧ φ e) (update_node y f).
Proof.
  intros Hne. apply keeps_modify. intros s (e & He & Hφ). simpl.
  exists e. by rewrite lookup_alter_ne.
Qed.

Lemma createElement_keeps_field {A} (proj : element → A) x a tag props :
  (∀ g e, proj (with_children g e) = proj e) →
  (∀ p e, proj (with_parent p e) = proj e) →
  keeps (λ s, ∃ e, nodes (doc s) !! x = Some e ∧ proj e = a)
    (createElement tag props).
Proof.
  intros Hc Hp s (e & He & Ha). unfold createElement.
  unfold mbind at 1, M_bind at 1.
  destruct (document_createElement tag s) as [[n0|] s1] eqn:H1.
  2: { unfold document_createElement in H1.
       destruct (validName (surface s) tag); [done|].
       injection H1 as <-. by exists e. }
  apply document_createElement_Some in H1 as (_ & -> & ->).
  set (n := fresh (dom (nodes (doc s)))).
  assert (n ≠ x) as Hne.
  { apply fresh_ne, elem_of_dom. eauto. }
  match goal with |- match ?m ?s1 with _ => _ end =>
    cut (keeps (λ s, ∃ e, nodes (doc s) !! x = Some e ∧ proj e = a) m)
  end.
  { intros Hk. apply Hk. exists e. simpl. by rewrite lookup_insert_ne. }
  unfold classList_add, set_className, assign_style, assign_dataset.
  repeat (apply keeps_bind; [|intros ?]).
  7: apply keeps_ret.
  6: by apply children_keep_proj.
  5: { apply keeps_forEach. intros [key value].
       unfold apply_rest, addEventListener, set_property.
       repeat keeps_step;
         first [ by apply call_keeps_proj
               | by apply update_node_keeps_ne ]. }
  all: repeat keeps_step;
    first [ by apply update_node_keeps_ne | apply css_keeps_proj ].
Qed.

Lemma sealed_guarded B s : sealed B s → guarded B s.
Proof. intros (H1 & H2 & H3 & H4 & _). by repeat split. Qed.

Lemma in_new (n : nid) (D : gset nid) : n ∈ {[n]} ∪ D.
Proof. set_solver. Qed.

Lemma in_old (x n : nid) (D : gset nid) : x ∈ D → x ∈ {[n]} ∪ D.
Proof. set_solver. Qed.

Lemma avoids_singleton (x c : nid) : c ≠ x → avoids {[x]} (VNode c).
Proof. simpl. set_solver. Qed.

(** What building an open modal with a title leaves behind: the modal
    element [m], its overlay [ov] attached to [body], the header [h], and
    the dismiss button [b] with the listeners it was given. *)
Lemma fresh_not_in_singleton (D : gset nid) (x : nid) :
  x ∈ D → fresh D ∉ ({[x]} : gset nid).
Proof. intros Hx. by apply not_elem_of_singleton, fresh_ne. Qed.

Lemma titled_modal_built (s : runtime) (p : ModalProps.t) r s' :
  plain_document s →
  host_props (dom (nodes (doc s))) p →
  truthy (ModalProps.title p) = true →
  truthy (ModalProps.isOpen p) = true →
  Modal p s = (Some r, s') →
  ∃ m ov b h,
    r = VNode m ∧
    guarded {[b]} s' ∧
    (parent_of s' b = Some h ∧ parent_of s' h = Some m ∧
     parent_of s' m = Some ov ∧ parent_of s' ov = Some body) ∧
    NoDup [b; h; m; ov; body] ∧
    (∃ e, node_at s' b = Some e ∧ localName e = "button" ∧
          listeners e
          = (dismissHandlers (ModalProps.onClose p)
             ++ [("click", Cleanup ov m)])%list) ∧
    (∃ e, node_at s' m = Some e ∧
          properties e !! "cleanup" = Some (VFun (Cleanup ov m))).
Proof.
  intros Hplain (Htitle & Hcontent & Hfooter & HonClose & Hchildren & Hrest)
    Htruthy Hopen HM.
  unfold Modal in HM. rewrite Hopen, Htruthy in HM. cbn [negb] in HM.
  set (D0 := dom (nodes (doc s))) in *.
  set (b := fresh D0).
  set (B := ({[b]} : gset nid)).
  assert (Hbody0 : body ∈ D0) by exact (proj1 Hplain).
  assert (Hb0 : b ∉ D0) by apply fresh_not_elem.
  assert (HB0 : B ## D0) by set_solver.
  assert (Hs0 : guarded_doc B D0 (animations (doc s)) s).
  { split; [by apply sealed_guarded, plain_sealed|done]. }
  set (L0 := dismissHandlers (ModalProps.onClose p)).
  set (PL := λ L s, ∃ e, nodes (doc s) !! b = Some e ∧ listeners e = L).
  assert (HkL : ∀ tag props, keeps (PL L0) (createElement tag props)).
  { intros tag props. by apply (createElement_keeps_field listeners). }
  assert (Hhost : ∀ x v, x ∉ D0 → host_value D0 v → children_avoid {[x]} v).
  { intros x v Hx Hv. apply (host_value_children_avoid D0); [|done].
    set_solver. }
  (* the dismiss button *)
  apply bind_Some in HM as (b' & s1 & H1 & HM).
  pose proof (createElement_creates _ _ _ _ _ H1) as Hbtag.
  pose proof (createElement_wiring _ _ _ _ _ H1) as (eb1 & Heb1 & Hw1).
  eapply ensures_result in H1; [|apply createElement_guarded|exact Hs0].
  2:{ repeat constructor; simpl. by apply (host_value_tame D0). }
  2:{ done. }
  destruct H1 as [-> Hs1]. fold b in HM, Hs1, Hbtag, Heb1.
  set (D1 := {[b]} ∪ D0) in *.
  match type of HM with ?k _ = _ =>
    assert (keeps (λ s, ∃ e, nodes (doc s) !! b = Some e ∧
                             localName e = "button") k) as Hk
      by keeps_tag
  end.
  pose proof (keeps_result _ _ _ _ _ Hk Hbtag HM) as Hbfinal.
  clear Hk Hbtag.
  assert (HL1 : PL L0 s1).
  { exists eb1. split; [exact Heb1|].
    cbn [styled Props.rest] in Hw1. rewrite foldl_wire in Hw1.
    by injection Hw1 as -> _. }
  clear Heb1 Hw1.
  (* the title *)
  apply bind_Some in HM as (t' & s2 & H2 & HM).
  pose proof (keeps_result _ _ _ _ _ (HkL _ _) HL1 H2) as HL2.
  eapply ensures_result in H2; [|apply createElement_guarded|exact Hs1].
  2:{ constructor. }
  2:{ intros _. apply fresh_not_in_singleton, in_new. }
  destruct H2 as [-> Hs2].
  set (t := fresh D1) in *. set (D2 := {[t]} ∪ D1) in *.
  assert (Hb2 : b ∈ D2) by apply in_old, in_new.
  assert (Hbody2 : body ∈ D2) by by do 2 apply in_old.
  (* the header *)
  apply bind_Some in HM as (hd & s3' & H3 & HM).
  apply bind_Some in H3 as (h & s3 & H3 & Hret). injection Hret as <- <-.
  pose proof (keeps_result _ _ _ _ _ (HkL _ _) HL2 H3) as HL3.
  assert (Hpb3 : parent_of s3 b = Some h).
  { apply (createElement_adopts _ _ _ _ _ b H3).
    - destruct Hs2 as (_ & -> & _). exact Hb2.
    - right. eexists. split; [reflexivity|].
      apply list_elem_of_further, list_elem_of_here. }
  eapply ensures_result in H3; [|apply createElement_guarded|exact Hs2].
  2:{ constructor. }
  2:{ intros _. by apply fresh_not_in_singleton. }
  destruct H3 as [-> Hs3].
  set (h := fresh D2) in *. set (D3 := {[h]} ∪ D2) in *.
  assert (Hhb : h ≠ b) by by apply fresh_ne.
  assert (Hhbody : h ≠ body) by by apply fresh_ne.
  assert (Hb0' : b ≠ body) by (intros E; apply Hb0; by rewrite E).
  assert (Hh0 : h ∉ D0).
  { intros Hin. apply (fresh_not_elem D2). by do 2 apply in_old. }
  assert (Hh3 : h ∈ D3) by apply in_new.
  (* the content *)
  apply bind_Some in HM as (c & s4 & H4 & HM).
  pose proof (keeps_result _ _ _ _ _ (HkL _ _) HL3 H4) as HL4.
  assert (Hpb4 : parent_of s4 b = Some h).
  { refine (keeps_result (λ s, parent_of s b = Some h) _ _ _ _ _ Hpb3 H4).
    apply createElement_keeps_parent; [constructor|]. cbn [styled Props.children].
    apply Hhost; [done|].
    unfold or_else. by destruct (truthy (ModalProps.content p)). }
  eapply ensures_result in H4; [|apply createElement_guarded|exact Hs3].
  2:{ constructor. }
  2:{ intros _. by apply fresh_not_in_singleton, in_old. }
  destruct H4 as [-> Hs4].
  set (c := fresh D3) in *. set (D4 := {[c]} ∪ D3) in *.
  assert (Hcb : c ≠ b) by (apply fresh_ne; by apply in_old).
  assert (Hch : c ≠ h) by by apply fresh_ne.
  (* the footer *)
  apply bind_Some in HM as (ft & s5 & H5 & HM).
  assert (∃ D5, guarded_doc B D5 (animations (doc s)) s5 ∧ D4 ⊆ D5 ∧
                PL L0 s5 ∧ parent_of s5 b = Some h ∧
                avoids {[b]} ft ∧ avoids {[h]} ft)
    as (D5 & Hs5 & HB5 & HL5 & Hpb5 & Hftb & Hfth).
  { destruct (truthy (ModalProps.footer p)).
    - apply bind_Some in H5 as (f & s5' & H5 & Hret).
      injection Hret as <- <-. rename s5' into s5.
      pose proof (keeps_result _ _ _ _ _ (HkL _ _) HL4 H5) as HL5.
      assert (Hpb5 : parent_of s5 b = Some h).
      { refine (keeps_result (λ s, parent_of s b = Some h) _ _ _ _ _ Hpb4 H5).
        apply createElement_keeps_parent; [constructor|].
        cbn [styled Props.children]. by apply Hhost. }
      eapply ensures_result in H5; [|apply createElement_guarded|exact Hs4].
      2:{ constructor. }
      2:{ intros _. by apply fresh_not_in_singleton, in_old, in_old. }
      destruct H5 as [-> Hs5]. eexists. split; [exact Hs5|].
      split; [intros x Hx; by apply in_old|].
      split; [done|]. split; [done|]. split.
      + apply avoids_singleton, fresh_ne. by do 2 apply in_old.
      + apply avoids_singleton, fresh_ne. by apply in_old.
    - injection H5 as <- <-. exists D4. split; [done|].
      split; [done|]. by repeat split. }
  clear H5.
  assert (Hb5 : b ∈ D5) by (apply HB5; by do 2 apply in_old).
  assert (Hh5 : h ∈ D5) by (apply HB5; by apply in_old).
  assert (Hbody5 : body ∈ D5) by (apply HB5; by do 2 apply in_old).
  (* the modal element *)
  apply bind_Some in HM as (m & s6 & H6 & HM).
  pose proof (keeps_result _ _ _ _ _ (HkL _ _) HL5 H6) as HL6.
  assert (Hrest' : Forall (λ kv, tame kv.2) (Props.rest (ModalProps.rest p))).
  { eapply Forall_impl; [exact Hrest|]. intros kv. apply host_value_tame. }
  assert (Hpb6 : parent_of s6 b = Some h).
  { refine (keeps_result (λ s, parent_of s b = Some h) _ _ _ _ _ Hpb5 H6).
    apply createElement_keeps_parent; [done|]. cbn [Props.children children_avoid].
    apply Forall_forall. intros v [_ Hv]%list_elem_of_filter.
    apply elem_of_cons in Hv as [->|Hv]; [by apply avoids_singleton|].
    apply elem_of_cons in Hv as [->|Hv]; [by apply avoids_singleton|].
    by apply list_elem_of_singleton in Hv as ->. }
  assert (Hph6 : parent_of s6 h = Some m).
  { apply (createElement_adopts _ _ _ _ _ h H6).
    - destruct Hs5 as (_ & -> & _). exact Hh5.
    - right. eexists. split; [reflexivity|].
      apply list_elem_of_filter. split; [done|]. apply list_elem_of_here. }
  eapply ensures_result in H6; [|apply createElement_guarded|exact Hs5].
  2:{ done. }
  2:{ intros _. by apply fresh_not_in_singleton. }
  destruct H6 as [-> Hs6].
  set (m := fresh D5) in *. set (D6 := {[m]} ∪ D5) in *.
  assert (Hmb : m ≠ b) by by apply fresh_ne.
  assert (Hmh : m ≠ h) by by apply fresh_ne.
  assert (Hmbody : m ≠ body) by by apply fresh_ne.
  assert (Hm : m ∉ B) by by apply not_elem_of_singleton.
  (* the overlay *)
  apply bind_Some in HM as (ov & s7 & H7 & HM).
  pose proof (keeps_result _ _ _ _ _ (HkL _ _) HL6 H7) as HL7.
  assert (Htame7 : Forall (λ kv : string * jsval, tame kv.2)
                     [("onClick", VFun (HandleOverlayClick (ModalProps.onClose p)))]).
  { repeat constructor. simpl. destruct HonClose; simpl; done. }
  assert (Hpb7 : parent_of s7 b = Some h).
  { refine (keeps_result (λ s, parent_of s b = Some h) _ _ _ _ _ Hpb6 H7).
    apply createElement_keeps_parent; [done|]. by apply avoids_singleton. }
  assert (Hph7 : parent_of s7 h = Some m).
  { refine (keeps_result (λ s, parent_of s h = Some m) _ _ _ _ _ Hph6 H7).
    apply createElement_keeps_parent; [done|]. by apply avoids_singleton. }
  assert (Hpm7 : parent_of s7 m = Some ov).
  { apply (createElement_adopts _ _ _ _ _ m H7); [|by left].
    destruct Hs6 as (_ & -> & _). apply in_new. }
  eapply ensures_result in H7; [|apply createElement_guarded|exact Hs6].
  2:{ done. }
  2:{ intros _. by apply fresh_not_in_singleton, in_old. }
  destruct H7 as [-> Hs7].
  set (ov := fresh D6) in *. set (D7 := {[ov]} ∪ D6) in *.
  assert (Hovb : ov ≠ b) by (apply fresh_ne; by apply in_old).
  assert (Hovh : ov ≠ h) by (apply fresh_ne; by apply in_old).
  assert (Hovm : ov ≠ m) by (apply fresh_ne; apply in_new).
  assert (Hovbody : ov ≠ body) by (apply fresh_ne; by apply in_old).
  assert (Hov7 : ov ∈ dom (nodes (doc s7))).
  { destruct Hs7 as (_ & -> & _). apply in_new. }
  (* attached to the body *)
  apply bind_Some in HM as ([] & s8 & H8 & HM).
  assert (HL8 : PL L0 s8).
  { refine (keeps_result _ _ _ _ _ _ HL7 H8).
    by apply (appendChild_keeps_proj listeners). }
  assert (Hs8 : guarded_doc B D7 (animations (doc s)) s8).
  { refine (keeps_result _ _ _ _ _ _ Hs7 H8).
    apply appendChild_guarded. exact (proj1 (proj2 (proj1 Hs7))). }
  assert (Hp8 : parent_of s8 ov = Some body).
  { pose proof (appendChild_parent body ov s7 Hov7) as H.
    by rewrite H8 in H. }
  assert (Hpb8 : parent_of s8 b = Some h).
  { refine (keeps_result (λ s, parent_of s b = Some h) _ _ _ _ _ Hpb7 H8).
    apply appendChild_keeps_parent. congruence. }
  assert (Hph8 : parent_of s8 h = Some m).
  { refine (keeps_result (λ s, parent_of s h = Some m) _ _ _ _ _ Hph7 H8).
    apply appendChild_keeps_parent. congruence. }
  assert (Hpm8 : parent_of s8 m = Some ov).
  { refine (keeps_result (λ s, parent_of s m = Some ov) _ _ _ _ _ Hpm7 H8).
    apply appendChild_keeps_parent. congruence. }
  (* the entrance animations *)
  apply bind_Some in HM as (a1 & s9 & H9 & HM).
  apply bind_Some in HM as (a2 & s10 & H10 & HM).
  assert (Hn10 : nodes (doc s10) = nodes (doc s8)).
  { injection H9 as _ <-. by injection H10 as _ <-. }
  (* the cleanup property and the dismiss listener *)
  apply bind_Some in HM as ([] & s11 & H11 & HM).
  apply bind_Some in HM as ([] & s12 & H12 & HM).
  injection HM as <- <-. injection H11 as <-. injection H12 as <-.
  destruct Hs8 as (Hg8 & Hdom8 & _).
  assert (Hm10 : m ∈ dom (nodes (doc s10))).
  { rewrite Hn10, Hdom8. apply in_old, in_new. }
  apply elem_of_dom in Hm10 as [em Hem].
  destruct HL8 as (eb & Heb & HebL). rewrite <- Hn10 in Heb.
  assert (Hg10 : guarded_doc B D7 (animations (doc s10)) s10).
  { split; [|by rewrite Hn10]. unfold guarded. by rewrite Hn10. }
  assert (HbB : b ∈ B) by by apply elem_of_singleton.
  assert (Hfinal : ∀ x q, parent_of s8 x = Some q →
            parent_of
              (addEventListener b "click" (Cleanup ov m)
                 (set_property m "cleanup" (VFun (Cleanup ov m)) s10).2).2 x
            = Some q).
  { intros x q Hq.
    assert (parent_of s10 x = Some q) as Hq10.
    { unfold parent_of, node_at. by rewrite Hn10. }
    apply (keeps_state (λ s, parent_of s x = Some q)
             (addEventListener b "click" (Cleanup ov m))).
    { by apply update_node_keeps_parent. }
    apply (keeps_state (λ s, parent_of s x = Some q)
             (set_property m "cleanup" (VFun (Cleanup ov m)))); [|done].
    by apply update_node_keeps_parent. }
  clear Hs0 Hs1 Hs2 Hs3 Hs4 Hs5 Hs6 Hs7 HL1 HL2 HL3 HL4 HL5 HL6 HL7.
  exists m, ov, b, h. split; [done|].
  split; [|split; [|split; [|split]]].
  - assert (Hk1 : keeps (guarded_doc B D7 (animations (doc s10)))
                   (set_property m "cleanup" (VFun (Cleanup ov m)))).
    { apply update_node_fields_guarded. intros e. by split. }
    assert (Hk2 : keeps (guarded_doc B D7 (animations (doc s10)))
                   (addEventListener b "click" (Cleanup ov m))).
    { apply update_node_guarded.
      - intros Hb. by destruct Hb.
      - intros e q Hq. by left. }
    apply (keeps_state _ _ _ Hk2), (keeps_state _ _ _ Hk1), Hg10.
  - repeat split; by apply Hfinal.
  - repeat (apply NoDup_cons; split); [| | | | |apply NoDup_nil_2];
      rewrite ?not_elem_of_cons; repeat split;
      try apply not_elem_of_nil; congruence.
  - destruct Hbfinal as (e & He & Htag). exists e. split; [exact He|].
    split; [exact Htag|].
    cbn [update_node set_nodes modify with_doc snd doc nodes addEventListener
         set_property] in He.
    rewrite lookup_alter_eq, lookup_alter_ne, Heb in He by done.
    injection He as <-. simpl. by rewrite HebL.
  - eexists. split.
    + unfold node_at. cbn [update_node set_nodes modify with_doc
        snd doc nodes addEventListener set_property].
      rewrite lookup_alter_ne, lookup_alter_eq, Hem by done. reflexivity.
    + simpl. apply lookup_insert_eq.
Qed.

(** ** A click on the dismiss button *)

Lemma path_guarded B s : guarded B s →
  ∀ fuel t, t ∉ B → Forall (λ x, x ∉ B) (path fuel s t).
Proof.
  intros (_ & _ & _ & Hpar). induction fuel as [|fuel IH]; intros t Ht.
  - constructor.
  - simpl. constructor; [done|].
    unfold parent_of, node_at.
    destruct (nodes (doc s) !! t) as [e|] eqn:He; simpl; [|constructor].
    destruct (parentNode e) as [q|] eqn:Hq; [|constructor].
    apply IH. by apply (Hpar _ _ _ He).
Qed.

Lemma deliver_click_guarded B s0 t x :
  guarded B s0 → x ∉ B → keeps (only_logged s0) (deliver_click t x).
Proof.
  intros (_ & _ & Hq & _) Hx s Hs. pose proof Hs as (_ & _ & En & _).
  unfold deliver_click, mbind, M_bind. simpl.
  unfold node_at. rewrite En.
  destruct (nodes (doc s0) !! x) as [e|] eqn:He; simpl; [|done].
  specialize (Hq x e He Hx).
  apply (keeps_forEach_Forall (only_logged s0)); [|done].
  eapply Forall_impl; [exact Hq|]. intros l Hl. simpl in Hl.
  repeat keeps_step. by apply call_quiet_only_logged.
Qed.

(** What the library records of the host's callbacks is never taken
    back. *)
Section log_frame.
Context (c : host_call).
Let P : runtime → Prop := λ s, c ∈ hostLog (doc s).

Lemma doc_keeps_log {A} (m : M A) :
  (∀ s, hostLog (doc (m s).2) = hostLog (doc s)) → keeps P m.
Proof.
  intros H s Hs. specialize (H s). unfold P.
  destruct (m s) as [[a|] s1]; simpl in *; by rewrite H.
Qed.

Lemma log_host_keeps_log c' : keeps P (log_host c').
Proof.
  apply keeps_modify. intros s Hs. unfold P. simpl. set_solver.
Qed.

Ltac prim := first [ by apply doc_keeps_log | apply log_host_keeps_log ].
Ltac go := repeat first [ keeps_step | prim ].

Lemma removeChild_keeps_log p x : keeps P (removeChild p x).
Proof. unfold removeChild. go. Qed.

Lemma animate_keeps_log e k o : keeps P (animate e k o).
Proof. unfold animate. go. Qed.

Lemma cleanup_keeps_log o m : keeps P (cleanup o m).
Proof. unfold cleanup. go; try apply animate_keeps_log. Qed.

Lemma on_finish_keeps_log o : keeps P (on_finish o).
Proof. unfold on_finish. go; apply removeChild_keeps_log. Qed.

Lemma call_keeps_log f : ∀ a, keeps P (call f a).
Proof.
  revert f. fix IH 1. intros [tag|v|o m|o] a; simpl.
  - prim.
  - destruct a; go; apply IH.
  - apply cleanup_keeps_log.
  - apply on_finish_keeps_log.
Qed.

Lemma deliver_click_keeps_log t x : keeps P (deliver_click t x).
Proof. unfold deliver_click. go; apply call_keeps_log. Qed.
End log_frame.

Lemma dismissHandlers_eq onClose :
  dismissHandlers onClose
  = match onClose with VFun f => [("click", f)] | _ => [] end.
Proof. by destruct onClose. Qed.

(** The dispatch of a click at the dismiss button itself: [onClose], when
    it is a callback of the host, and then [cleanup]. *)
Lemma deliver_click_button D s ov m b e onClose :
  host_value D onClose →
  node_at s b = Some e →
  listeners e = (dismissHandlers onClose ++ [("click", Cleanup ov m)])%list →
  attached s ov = true →
  only_logged (closing ov m s) (deliver_click b b s).2 ∧
  (∀ tag, onClose = VFun (Host tag) →
          Called tag (WithEvent b b) ∈ hostLog (doc (deliver_click b b s).2)).
Proof.
  intros Hv He HL Hat.
  set (F := λ l : string * fn,
         if bool_decide (l.1 = "click")
         then attempt (call l.2 (WithEvent b b)) else mret ()).
  assert (deliver_click b b s
          = forEach F (dismissHandlers onClose ++ [("click", Cleanup ov m)])%list
              s) as ->.
  { unfold deliver_click, mbind, M_bind, get_state. rewrite He.
    cbn [fmap option_fmap option_map default id]. by rewrite HL. }
  rewrite dismissHandlers_eq.
  assert (∀ s1, attached s1 ov = true →
            F ("click", Cleanup ov m) s1 = (Some (), closing ov m s1)) as Hlast.
  { intros s1 H1. unfold F. cbn [fst snd].
    change (bool_decide ("click" = "click")) with true. cbv iota.
    unfold attempt. cbn [call]. by rewrite cleanup_eq, H1. }
  assert (∀ tag s1,
            F ("click", Host tag) s1
            = (Some (), (log_host (Called tag (WithEvent b b)) s1).2))
    as Hfirst.
  { intros tag s1. unfold F. cbn [fst snd].
    change (bool_decide ("click" = "click")) with true. cbv iota.
    reflexivity. }
  destruct Hv as [| |bb|rr|tt|tag|n Hn|l Hl]; cbn [app forEach];
    unfold mbind, M_bind;
    try (rewrite Hlast by done; split; [done|by intros ?]).
  rewrite Hfirst.
  set (s1 := (log_host (Called tag (WithEvent b b)) s).2).
  assert (attached s1 ov = true) as H1 by exact Hat.
  rewrite (Hlast s1 H1). split; [done|].
  intros tag' [= <-]. unfold closing, s1. simpl. set_solver.
Qed.

Lemma size_at_least (m : gmap nid element) (l : list nid) :
  NoDup l → Forall (λ x, x ∈ dom m) l → (length l ≤ size m)%nat.
Proof.
  intros Hnd Hl. rewrite <- size_dom, <- (size_list_to_set (C:=gset nid)) by done.
  apply subseteq_size. intros x Hx. apply elem_of_list_to_set in Hx.
  rewrite Forall_forall in Hl. by apply Hl.
Qed.

Lemma parent_in_dom s x q : parent_of s x = Some q → x ∈ dom (nodes (doc s)).
Proof.
  unfold parent_of, node_at. intros H. apply elem_of_dom.
  by destruct (nodes (doc s) !! x).
Qed.

(** A node four levels below [body] is in the document. *)
Lemma chain_connected s b h m ov :
  parent_of s b = Some h → parent_of s h = Some m →
  parent_of s m = Some ov → parent_of s ov = Some body →
  parent_of s body = None →
  body ∈ dom (nodes (doc s)) →
  NoDup [b; h; m; ov; body] →
  connected s b.
Proof.
  intros Hb Hh Hm Hov Hbody Hin Hnd. unfold connected, event_path.
  pose proof (size_at_least (nodes (doc s)) [b; h; m; ov; body] Hnd) as Hsize.
  simpl in Hsize.
  destruct (size (nodes (doc s))) as [|[|[|[|[|k]]]]].
  1-5: exfalso; cut (5 ≤ 4)%nat; [lia|]; etrans; [apply Hsize|lia];
       repeat (apply Forall_cons; split); eauto using parent_in_dom.
  simpl. by rewrite Hb, Hh, Hm, Hov, Hbody.
Qed.

Lemma guarded_closing B ov m s : guarded B s → guarded B (closing ov m s).
Proof. done. Qed.

(** X20.  An open modal built with a title, in a document without library
    closures and from props of the host, is closed by its dismiss button:
    the button is a [button] element, in the document when [body] is its
    root, under the overlay, which is in [body]; a click on it calls
    [onClose], when that is a callback of the host, and starts the exit
    (the state is the one [cleanup] leaves, up to what the host's
    callbacks recorded); the returned node's [cleanup] does the same. *)
Theorem titled_modal_closes_by_its_button
    (s : runtime) (p : ModalProps.t) (r : jsval) (s' : runtime) :
  plain_document s →
  host_props (dom (nodes (doc s))) p →
  truthy (ModalProps.title p) = true →
  truthy (ModalProps.isOpen p) = true →
  Modal p s = (Some r, s') →
  ∃ m ov b,
    r = VNode m ∧
    (∃ e, node_at s' b = Some e ∧ localName e = "button" ∧
          ("click", Cleanup ov m) ∈ listeners e) ∧
    attached s' ov = true ∧
    (parent_of s' body = None → connected s' b) ∧
    only_logged (closing ov m s') (click b s').2 ∧
    (∀ tag, ModalProps.onClose p = VFun (Host tag) →
            Called tag (WithEvent b b) ∈ hostLog (doc (click b s').2)) ∧
    call_property m "cleanup" s' = (Some (), closing ov m s').
Proof.
  intros Hplain Hprops Htitle Hopen HM.
  destruct (titled_modal_built s p r s' Hplain Hprops Htitle Hopen HM)
    as (m & ov & b & h & -> & Hg & (Hpb & Hph & Hpm & Hov) & Hnd
        & (eb & Heb & Htag & HL) & (em & Hem & Hcleanup)).
  destruct Hprops as (_ & _ & _ & HonClose & _).
  assert (Hat : attached s' ov = true).
  { unfold attached. rewrite Hov. by apply bool_decide_eq_true_2. }
  exists m, ov, b. split; [done|]. split; [|split; [done|split]].
  { exists eb. split; [done|]. split; [done|]. rewrite HL. set_solver. }
  { intros Hroot. apply (chain_connected s' b h m ov); try done.
    exact (proj1 Hg). }
  destruct (deliver_click_button _ s' ov m b eb _ HonClose Heb HL Hat)
    as [Hfirst Hlog].
  assert (∃ rest, event_path s' b = b :: rest ∧ Forall (λ x, x ∉ ({[b]} : gset nid)) rest)
    as (rest & Hpath & Hrest).
  { unfold event_path. destruct (size (nodes (doc s'))) as [|k] eqn:Hk.
    - apply map_size_empty_inv in Hk. unfold node_at in Heb.
      by rewrite Hk, lookup_empty in Heb.
    - eexists. split; [reflexivity|].
      unfold parent_of. rewrite Heb. simpl.
      destruct (parentNode eb) as [q|] eqn:Hq; [|constructor].
      apply (path_guarded _ _ Hg).
      destruct Hg as (_ & _ & _ & Hpar). by apply (Hpar b eb q). }
  assert (Hclick : (click b s').2
                   = match (deliver_click b b s').1 with
                     | Some _ => (forEach (deliver_click b) rest
                                    (deliver_click b b s').2).2
                     | None => (deliver_click b b s').2
                     end).
  { unfold click, mbind at 1, M_bind at 1, get_state. rewrite Hpath.
    cbn [forEach]. unfold mbind, M_bind.
    by destruct (deliver_click b b s') as [[[]|] s1]. }
  assert (Hk : keeps (only_logged (closing ov m s'))
                 (forEach (deliver_click b) rest)).
  { apply keeps_forEach_Forall. eapply Forall_impl; [exact Hrest|].
    intros x Hx. apply (deliver_click_guarded {[b]}); [|done].
    by apply guarded_closing. }
  split; [|split].
  - rewrite Hclick. destruct (deliver_click b b s').1; [|done].
    by apply (keeps_state _ _ _ Hk).
  - intros tag Htag'. specialize (Hlog tag Htag'). rewrite Hclick.
    destruct (deliver_click b b s').1; [|done].
    apply (keeps_state (λ s, Called tag (WithEvent b b) ∈ hostLog (doc s)));
      [|done].
    apply keeps_forEach. intros x. apply deliver_click_keeps_log.
  - unfold call_property, mbind, M_bind, get_state. rewrite Hem. simpl.
    rewrite Hcleanup. cbn [call]. by rewrite cleanup_eq, Hat.
Qed.

Lemma titled_modal_closes_by_its_button_witness :
  let s' := (Modal (titledModal (VFun (Host 0))) initial).2 in
  ∃ m ov b,
    VNode 6%positive = VNode m ∧
    (∃ e, node_at s' b = Some e ∧ localName e = "button" ∧
          ("click", Cleanup ov m) ∈ listeners e) ∧
    attached s' ov = true ∧
    (parent_of s' body = None → connected s' b) ∧
    only_logged (closing ov m s') (click b s').2 ∧
    (∀ tag, ModalProps.onClose (titledModal (VFun (Host 0))) = VFun (Host tag) →
            Called tag (WithEvent b b) ∈ hostLog (doc (click b s').2)) ∧
    call_property m "cleanup" s' = (Some (), closing ov m s').
Proof.
  apply (titled_modal_closes_by_its_button initial
           (titledModal (VFun (Host 0)))).
  - apply initial_plain.
  - repeat split; constructor.
  - reflexivity.
  - reflexivity.
  - vm_compute. reflexivity.
Defined.

(** ** Style objects *)

Lemma set_key_keys k v o :
  (set_key k v o).*1 = if bool_decide (k ∈ o.*1) then o.*1 else (o.*1 ++ [k])%list.
Proof.
  induction o as [|[k' v'] o IH]; [done|]. cbn [set_key fst].
  destruct (decide (k' = k)) as [->|Hne].
  - rewrite bool_decide_eq_true_2 by done. cbn [fmap list_fmap fst].
    rewrite bool_decide_eq_true_2; [done|]. set_solver.
  - rewrite bool_decide_eq_false_2 by done. cbn [fmap list_fmap fst].
    rewrite IH. destruct (decide (k ∈ o.*1)).
    + rewrite !bool_decide_eq_true_2; [done|set_solver|done].
    + rewrite !bool_decide_eq_false_2; [done|set_solver|done].
Qed.

Lemma set_key_NoDup k v o : NoDup o.*1 → NoDup (set_key k v o).*1.
Proof.
  intros Hnd. rewrite set_key_keys. case_bool_decide; [done|].
  apply NoDup_app. split; [done|]. split; [set_solver|].
  apply NoDup_singleton.
Qed.

Lemma set_key_in k v o : (k, v) ∈ set_key k v o.
Proof.
  induction o as [|kv o IH]; cbn [set_key]; [apply list_elem_of_singleton; done|].
  case_bool_decide; apply elem_of_cons; [by left|by right].
Qed.

Lemma set_key_other k v o k' v' :
  k' ≠ k → (k', v') ∈ o → (k', v') ∈ set_key k v o.
Proof.
  intros Hne. induction o as [|kv o IH]; intros Hin.
  - by apply elem_of_nil in Hin.
  - cbn [set_key]. apply elem_of_cons in Hin as [<-|Hin].
    + rewrite bool_decide_eq_false_2 by done. apply elem_of_cons. by left.
    + case_bool_decide; apply elem_of_cons; right; auto.
Qed.

Lemma spread_style_NoDup b : ∀ a, NoDup a.*1 → NoDup (spread_style a b).*1.
Proof.
  induction b as [|[k v] b IH]; intros a Ha; [done|].
  apply IH. by apply set_key_NoDup.
Qed.

Lemma spread_style_keys b : ∀ a k,
  k ∈ (spread_style a b).*1 ↔ k ∈ a.*1 ∨ k ∈ b.*1.
Proof.
  induction b as [|[k0 v0] b IH]; intros a k.
  - cbn. rewrite elem_of_nil. tauto.
  - change (spread_style a ((k0, v0) :: b))
      with (spread_style (set_key k0 v0 a) b).
    rewrite IH, set_key_keys. cbn [fmap list_fmap fst].
    rewrite elem_of_cons. case_bool_decide as Hk0.
    + split; [tauto|]. intros [?|[->|?]]; tauto.
    + rewrite elem_of_app, list_elem_of_singleton. tauto.
Qed.

Lemma spread_style_keeps b : ∀ a k v,
  k ∉ b.*1 → (k, v) ∈ a → (k, v) ∈ spread_style a b.
Proof.
  induction b as [|[k0 v0] b IH]; intros a k v Hk Hin; [done|].
  cbn [fmap list_fmap fst] in Hk. apply not_elem_of_cons in Hk as [Hne Hk].
  apply (IH (set_key k0 v0 a)); [done|]. by apply set_key_other.
Qed.

Lemma spread_style_wins b : ∀ a k v,
  NoDup b.*1 → (k, v) ∈ b → (k, v) ∈ spread_style a b.
Proof.
  induction b as [|[k0 v0] b IH]; intros a k v Hnd Hin.
  - by apply elem_of_nil in Hin.
  - cbn [fmap list_fmap fst] in Hnd. apply NoDup_cons in Hnd as [Hk0 Hnd].
    change (spread_style a ((k0, v0) :: b))
      with (spread_style (set_key k0 v0 a) b).
    apply elem_of_cons in Hin as [[= -> ->]|Hin]; [|by apply IH].
    apply spread_style_keeps; [done|apply set_key_in].
Qed.

Lemma rendered_keys o m : rendered o = Some m → m.*1 = o.*1.
Proof.
  revert m. induction o as [|[k v] o IH]; intros m H.
  - by injection H as <-.
  - unfold rendered in H. cbn [mapM] in H.
    destruct (render_entry (k, v)) as [r|] eqn:Hr; [|done]. simpl in H.
    fold (rendered o) in H. destruct (rendered o) as [m'|]; [|done].
    injection H as <-. cbn [fmap list_fmap]. f_equal; [|by apply IH].
    unfold render_entry in Hr. simpl in Hr.
    destruct v as [t|es]; [|by injection Hr as <-].
    destruct (raw t); [|done]. by injection Hr as <-.
Qed.

Lemma rendered_plain o m k x :
  rendered o = Some m → (k, Plain (TStr x)) ∈ o → (k, Leaf x) ∈ m.
Proof.
  revert m. induction o as [|kv o IH]; intros m H Hin.
  - by apply elem_of_nil in Hin.
  - unfold rendered in H. cbn [mapM] in H.
    destruct (render_entry kv) as [r|] eqn:Hr; [|done]. simpl in H.
    fold (rendered o) in H. destruct (rendered o) as [m'|]; [|done].
    injection H as <-.
    apply elem_of_cons in Hin as [<-|Hin]; [|apply elem_of_cons; right; auto].
    injection Hr as <-. apply elem_of_cons. by left.
Qed.

(** ** The styles of a button *)

Ltac in_list :=
  rewrite ?elem_of_cons;
  first [ by left | right; in_list ].

Ltac not_in_list :=
  try match goal with |- ?x ∈ ?l → False => change (x ∉ l) end;
  rewrite ?not_elem_of_cons; repeat split;
  first [ apply not_elem_of_nil | discriminate | congruence ].

Ltac keys_case :=
  repeat case_bool_decide; subst; try done; exfalso;
  repeat match goal with
         | H : _ ∈ _ :: _ |- _ => apply elem_of_cons in H as [?|H]; [done|]
         | H : _ ∈ [] |- _ => by apply elem_of_nil in H
         | H : ¬ (_ ∈ _) |- _ => apply H; in_list
         end.

Ltac goal_cases :=
  repeat match goal with
         | |- context [bool_decide ?P] => destruct (bool_decide P)
         end.

Lemma buttonSize_keys xs sm md lg size :
  (buttonSize xs sm md lg size).*1
  = if bool_decide (size ∈ ["small"; "medium"; "large"])
    then ["padding"; "fontSize"] else [].
Proof.
  unfold buttonSize. keys_case.
Qed.

Lemma buttonType_keys light dark primary secondary success danger type :
  (buttonType light dark primary secondary success danger type).*1
  = if bool_decide
         (type ∈ ["default"; "primary"; "secondary"; "success"; "danger"])
    then ["backgroundColor"; "color"; "&:hover"] else [].
Proof.
  unfold buttonType. keys_case.
Qed.

Lemma buttonBase_NoDup radius fontFamily transition :
  NoDup (buttonBase radius fontFamily transition).*1.
Proof.
  unfold buttonBase. cbn [fmap list_fmap fst].
  repeat (apply NoDup_cons; split; [not_in_list|]). apply NoDup_nil_2.
Qed.

(** The parts of the style object of a button. *)
Lemma buttonStyleObject_parts type size outline full disabled theme o :
  buttonStyleObject type size outline full disabled theme = Some o →
  ∃ base sizes types outlines widths disableds,
    o = spread_style
          (spread_style
             (spread_style (spread_style (spread_style base sizes) types)
                outlines) widths) disableds ∧
    NoDup base.*1 ∧
    ("cursor", Plain (TStr "pointer")) ∈ base ∧
    base.*1 = ["display"; "alignItems"; "justifyContent"; "gap"; "border";
               "borderRadius"; "fontFamily"; "fontWeight"; "cursor";
               "transition"] ∧
    sizes.*1 = (if bool_decide (size ∈ ["small"; "medium"; "large"])
                then ["padding"; "fontSize"] else []) ∧
    types.*1 = (if bool_decide
                     (type ∈ ["default"; "primary"; "secondary"; "success";
                              "danger"])
                then ["backgroundColor"; "color"; "&:hover"] else []) ∧
    (if outline
     then ∃ c, outlines = buttonOutline c
     else outlines = []) ∧
    widths = (if full then [("width", Plain (TStr "100%"))] else []) ∧
    (if disabled
     then ∃ c, disableds = buttonDisabled c
     else disableds = []).
Proof.
  unfold buttonStyleObject. intros H.
  repeat match type of H with
         | (?x ≫= _) = Some _ =>
             let E := fresh "E" in
             destruct x eqn:E; [cbn [mbind option_bind] in H|done]
         end.
  injection H as <-.
  eexists _, _, _, _, _, _. split; [reflexivity|].
  split; [apply buttonBase_NoDup|].
  split; [unfold buttonBase; in_list|].
  split; [done|].
  split; [apply buttonSize_keys|].
  split; [apply buttonType_keys|].
  split.
  { destruct outline; [|by injection E12 as <-].
    destruct (theme "colors" type) as [c|]; [|done].
    injection E12 as <-. by exists c. }
  split; [done|].
  destruct disabled; [|by injection E13 as <-].
  destruct (theme "colors" type) as [c|]; [|done].
  injection E13 as <-. by exists c.
Qed.

(** X21.  The rule text of a button, whenever its style function returns:
    no key twice; the cursor is [not-allowed] for a disabled button and
    [pointer] otherwise, whatever the type and the size; there is a width
    exactly for a [full] button; a size other than [small], [medium] and
    [large] gives neither padding nor font size; an outline button has a
    transparent background; and a button that is not an outline button,
    of a type other than [default], [primary], [secondary], [success] and
    [danger] ([warning] and [info], which the theme has colours for,
    included), has no background and no colour. *)
Theorem button_styles
    (type size : string) (outline full disabled : bool) (s : runtime)
    (m : mapping) :
  processedStyles (getTypeStyles type size outline full disabled) s = Some m →
  NoDup m.*1 ∧
  ("cursor", Leaf (if disabled then "not-allowed" else "pointer")) ∈ m ∧
  ("width" ∈ m.*1 ↔ full = true) ∧
  (size ∉ ["small"; "medium"; "large"] →
     "padding" ∉ m.*1 ∧ "fontSize" ∉ m.*1) ∧
  (outline = true → ("backgroundColor", Leaf "transparent") ∈ m) ∧
  (outline = false →
   type ∉ ["default"; "primary"; "secondary"; "success"; "danger"] →
     "backgroundColor" ∉ m.*1 ∧ "color" ∉ m.*1).
Proof.
  cbn [processedStyles getTypeStyles].
  generalize (reader (store s)). intros theme H.
  destruct (buttonStyleObject type size outline full disabled theme)
    as [o|] eqn:Ho; [cbn [mbind option_bind] in H|done].
  apply buttonStyleObject_parts in Ho
    as (base & sizes & types & outlines & widths & disableds & -> & Hnd & Hcur
        & Hbase & Hsizes & Htypes & Hout & -> & Hdis).
  pose proof (rendered_keys _ _ H) as Hkeys. rewrite Hkeys.
  assert (∀ k, k ∈ (spread_style
          (spread_style
             (spread_style (spread_style (spread_style base sizes) types)
                outlines) (if full then [("width", Plain (TStr "100%"))] else []))
             disableds).*1
            ↔ k ∈ base.*1 ∨ k ∈ sizes.*1 ∨ k ∈ types.*1 ∨ k ∈ outlines.*1
              ∨ k ∈ (if full then ["width"] else []) ∨ k ∈ disableds.*1) as Hk.
  { intros k. rewrite !spread_style_keys. destruct full; cbn; tauto. }
  split; [by repeat apply spread_style_NoDup|].
  split.
  { eapply rendered_plain; [exact H|]. destruct disabled.
    - destruct Hdis as [c ->]. apply spread_style_wins.
      + unfold buttonDisabled. cbn [fmap list_fmap fst].
        repeat (apply NoDup_cons; split; [not_in_list|]). apply NoDup_nil_2.
      + unfold buttonDisabled. in_list.
    - subst disableds. cbn [spread_style foldl].
      repeat apply spread_style_keeps; try done.
      + destruct full; cbn [fmap list_fmap fst]; not_in_list.
      + destruct outline; [destruct Hout as [c ->]|subst outlines];
          cbn [fmap list_fmap fst buttonOutline]; not_in_list.
      + rewrite Htypes. goal_cases; not_in_list.
      + rewrite Hsizes. goal_cases; not_in_list. }
  split.
  { rewrite Hk, Hbase, Hsizes, Htypes. split.
    - intros [Hin|[Hin|[Hin|[Hin|[Hin|Hin]]]]].
      + exfalso. revert Hin. not_in_list.
      + exfalso. revert Hin. goal_cases; not_in_list.
      + exfalso. revert Hin. goal_cases; not_in_list.
      + exfalso. revert Hin.
        destruct outline; [destruct Hout as [c ->]|subst outlines];
          cbn [fmap list_fmap fst buttonOutline]; not_in_list.
      + destruct full; [done|]. by apply elem_of_nil in Hin.
      + exfalso. revert Hin.
        destruct disabled; [destruct Hdis as [c ->]|subst disableds];
          cbn [fmap list_fmap fst buttonDisabled]; not_in_list.
    - intros ->. do 4 right. left. in_list. }
  split.
  { intros Hsize. rewrite !Hk, Hbase, Hsizes, Htypes.
    rewrite bool_decide_eq_false_2 by done.
    split; intros [Hin|[Hin|[Hin|[Hin|[Hin|Hin]]]]]; revert Hin;
      try not_in_list; try (goal_cases; not_in_list);
      first [ destruct full; not_in_list
            | destruct outline; [destruct Hout as [c ->]|subst outlines];
              cbn [fmap list_fmap fst buttonOutline]; not_in_list
            | destruct disabled; [destruct Hdis as [c ->]|subst disableds];
              cbn [fmap list_fmap fst buttonDisabled]; not_in_list ]. }
  split.
  { intros ->. destruct Hout as [c ->].
    eapply rendered_plain; [exact H|].
    apply spread_style_keeps.
    { destruct disabled; [destruct Hdis as [c' ->]|subst disableds];
        cbn [fmap list_fmap fst buttonDisabled]; not_in_list. }
    apply spread_style_keeps; [destruct full; cbn; not_in_list|].
    apply spread_style_wins.
    - unfold buttonOutline. cbn [fmap list_fmap fst].
      repeat (apply NoDup_cons; split; [not_in_list|]). apply NoDup_nil_2.
    - unfold buttonOutline. in_list. }
  intros -> Htype. subst outlines. rewrite !Hk, Hbase, Hsizes, Htypes.
  rewrite (bool_decide_eq_false_2 (type ∈ _)) by done.
  split; intros [Hin|[Hin|[Hin|[Hin|[Hin|Hin]]]]]; revert Hin;
    try not_in_list; try (goal_cases; not_in_list);
    first [ destruct full; not_in_list
          | destruct disabled; [destruct Hdis as [c ->]|subst disableds];
            cbn [fmap list_fmap fst buttonDisabled]; not_in_list ].
Qed.

Lemma button_styles_witness :
  ∃ m, processedStyles (getTypeStyles "warning" "huge" false true false)
         initial = Some m ∧
       NoDup m.*1 ∧
       ("cursor", Leaf "pointer") ∈ m ∧
       ("width" ∈ m.*1 ↔ true = true) ∧
       ("huge" ∉ ["small"; "medium"; "large"] →
          "padding" ∉ m.*1 ∧ "fontSize" ∉ m.*1) ∧
       (false = true → ("backgroundColor", Leaf "transparent") ∈ m) ∧
       (false = false →
        "warning" ∉ ["default"; "primary"; "secondary"; "success"; "danger"] →
          "backgroundColor" ∉ m.*1 ∧ "color" ∉ m.*1).
Proof.
  destruct (processedStyles (getTypeStyles "warning" "huge" false true false)
              initial) as [m|] eqn:E; [|by vm_compute in E].
  exists m. split; [done|].
  exact (button_styles "warning" "huge" false true false initial m E).
Defined.

(** ** The element of a button *)

(** X22.  [Button], called with props of the host whose other props are
    event handlers, or with none: the node it returns is a new [button]
    element without a parent; a function given as [onClick] listens to
    its clicks; and its children are the icon and the label, in this
    order, the falsy ones left out — unless the props have [children],
    which then replace both. *)
Theorem Button_builds_a_button
    (props : option ButtonProps.t) (p : ButtonProps.t) (s : runtime)
    (n : nid) (s' : runtime) :
  p = default ButtonProps.empty props →
  only_handlers (Props.rest (ButtonProps.rest p)) →
  host_element_props (buttonElementProps p) s →
  (∀ items, Props.children (buttonElementProps p) = VArr items →
            NoDup (node_entries items)) →
  Button props s = (Some n, s') →
  ∃ e,
    n ∉ dom (nodes (doc s)) ∧
    node_at s' n = Some e ∧
    localName e = "button" ∧
    parentNode e = None ∧
    (∀ f, ButtonProps.onClick p = VFun f → ("click", f) ∈ listeners e) ∧
    childNodes e
      = children_of
          (default (VArr [or_default VNull (ButtonProps.icon p);
                          ButtonProps.label p])
             (ButtonProps.children p)).
Proof.
  intros Hp _ Hhost Hnd H.
  unfold Button, createComponent, renderButton in H. rewrite <- Hp in H.
  clear Hp props. destruct Hhost as (_ & Hrest & Hch & _).
  destruct (createElement_dom _ _ _ _ _ H) as [Hfresh Hdom].
  destruct (createElement_creates _ _ _ _ _ H) as (e & He & Htag).
  destruct (createElement_detached _ _ _ _ _ Hrest Hch H) as (e1 & He1 & Hpar).
  destruct (createElement_wiring _ _ _ _ _ H) as (e2 & He2 & Hw).
  destruct (createElement_childNodes _ _ _ _ _
              (Forall_impl _ _ _ Hrest (λ kv, host_value_tame _ kv.2)) Hnd H)
    as (e3 & He3 & Hc).
  unfold node_at in *. rewrite He in He1, He2, He3.
  injection He1 as <-. injection He2 as <-. injection He3 as <-.
  rewrite foldl_wire in Hw. injection Hw as Hl Hpr.
  exists e. split; [rewrite Hfresh; apply is_fresh|].
  do 3 (split; [done|]). split; [|exact Hc].
  intros f Hf. rewrite Hl. cbn [app]. apply list_elem_of_omap.
  exists ("onClick", VFun f). split; [|done].
  cbn [buttonElementProps Props.rest]. rewrite Hf.
  rewrite elem_of_app. right.
  apply elem_of_cons; right. apply elem_of_cons. by left.
Qed.

Lemma Button_builds_a_button_witness :
  ∃ e,
    2%positive ∉ dom (nodes (doc initial)) ∧
    node_at (Button (Some clickButton) initial).2 2%positive = Some e ∧
    localName e = "button" ∧
    parentNode e = None ∧
    (∀ f, VFun (Host 0) = VFun f → ("click", f) ∈ listeners e) ∧
    childNodes e = [CText "Test"].
Proof.
  apply (Button_builds_a_button (Some clickButton) clickButton initial
           2%positive (Button (Some clickButton) initial).2).
  - reflexivity.
  - apply Forall_cons. split; [reflexivity|]. apply Forall_nil_2.
  - split; [vm_compute; by eexists|]. split; [|split].
    + repeat (apply Forall_cons; split;
              [first [apply host_bool|apply host_undefined|apply host_fun]|]).
      apply Forall_nil_2.
    + apply host_arr.
      apply Forall_cons. split; [apply host_null|].
      apply Forall_cons. split; [apply host_str|]. apply Forall_nil_2.
    + repeat (apply Forall_cons; split; [done|]). apply Forall_nil_2.
  - intros items [= <-]. apply NoDup_nil_2.
  - vm_compute. reflexivity.
Defined.

(** ** What keeps the themes *)

Section store_frame.
Context (st : theme_store).
Let P : runtime → Prop := λ s, store s = st.

Lemma update_node_keeps_store y f : keeps P (update_node y f).
Proof. apply keeps_modify. by intros s Hs. Qed.

Lemma same_keeps_store {A} (m : M A) :
  (∀ s, store (m s).2 = store s) → keeps P m.
Proof.
  intros H s Hs. specialize (H s). unfold P.
  destruct (m s) as [[a|] s1]; simpl in *; by rewrite H.
Qed.

Lemma css_keeps_store d : keeps P (css d).
Proof. apply same_keeps_store. intros s. apply css_store. Qed.

Ltac prim :=
  first [ apply update_node_keeps_store | apply css_keeps_store
        | by apply same_keeps_store ].

Ltac go := repeat first [ keeps_step | prim ].

Lemma removeChild_keeps_store p c : keeps P (removeChild p c).
Proof. unfold removeChild. go. Qed.

Lemma appendChild_keeps_store p c : keeps P (appendChild p c).
Proof. unfold appendChild. go; apply removeChild_keeps_store. Qed.

Lemma set_textContent_keeps_store n t : keeps P (set_textContent n t).
Proof. unfold set_textContent. go. Qed.

Lemma animate_keeps_store e k o : keeps P (animate e k o).
Proof. unfold animate. go. Qed.

Lemma cleanup_keeps_store o m : keeps P (cleanup o m).
Proof. unfold cleanup. go; try apply animate_keeps_store. Qed.

Lemma on_finish_keeps_store o : keeps P (on_finish o).
Proof. unfold on_finish. go; apply removeChild_keeps_store. Qed.

Lemma call_keeps_store f : ∀ a, keeps P (call f a).
Proof.
  revert f. fix IH 1. intros [tag|v|o m|o] a; simpl.
  - prim.
  - destruct a; go; apply IH.
  - apply cleanup_keeps_store.
  - apply on_finish_keeps_store.
Qed.

Lemma apply_rest_keeps_store n kv : keeps P (apply_rest n kv).
Proof.
  unfold apply_rest, addEventListener, set_property. destruct kv.
  go; apply call_keeps_store.
Qed.

Lemma append_entry_keeps_store n c : keeps P (append_entry n c).
Proof. unfold append_entry. go; apply appendChild_keeps_store. Qed.

Lemma createElement_keeps_store tag props : keeps P (createElement tag props).
Proof.
  unfold createElement, classList_add, set_className, assign_style.
  repeat keeps_step;
    first [ apply update_node_keeps_store | apply css_keeps_store
          | apply set_textContent_keeps_store | apply appendChild_keeps_store
          | apply apply_rest_keeps_store | apply append_entry_keeps_store
          | by apply same_keeps_store
          | by (apply same_keeps_store; intros s0;
                unfold document_createElement;
                destruct (validName (surface s0) _)) ].
Qed.
End store_frame.

(** [createElement] leaves the themes as they are. *)
Lemma createElement_store tag props s :
  store (createElement tag props s).2 = store s.
Proof.
  pose proof (createElement_keeps_store (store s) tag props s eq_refl) as H.
  by destruct (createElement tag props s) as [[n|] s'].
Qed.

(** ** Props the host can pass, later *)

Lemma host_value_mono (D D' : gset nid) :
  D ⊆ D' → ∀ v, host_value D v → host_value D' v.
Proof.
  intros HD. fix IH 2. intros v [ | |b|r|t|tag|n Hn|l Hl]; try by constructor.
  - apply host_node. by apply HD.
  - apply host_arr. revert l Hl. fix IHl 2.
    intros l [|x l' Hx Hl']; constructor; [by apply IH|by apply IHl].
Qed.

Lemma host_element_props_mono props s s' :
  store s' = store s →
  dom (nodes (doc s)) ⊆ dom (nodes (doc s')) →
  host_element_props props s → host_element_props props s'.
Proof.
  intros Hst HD (Hres & Hrest & Hch & Hren).
  split; [|split; [|split; [|done]]].
  - unfold resolves in *. destruct (Props.cssStyles props) as [| |d]; try done.
    unfold processedStyles in *. by rewrite Hst.
  - eapply Forall_impl; [exact Hrest|]. intros kv. by apply host_value_mono.
  - by apply (host_value_mono _ _ HD).
Qed.

(** ** One element of a component *)

(** What a component that builds several elements needs to know of each. *)
Lemma createElement_part tag props s n s' :
  host_element_props props s →
  createElement tag props s = (Some n, s') →
  ∃ e,
    n = fresh (dom (nodes (doc s))) ∧
    dom (nodes (doc s')) = {[n]} ∪ dom (nodes (doc s)) ∧
    store s' = store s ∧
    node_at s' n = Some e ∧
    localName e = Js.asciiLowerCase tag ∧
    parentNode e = None ∧
    wiring e = foldl (λ w kv, wire kv w) ([], ∅) (Props.rest props) ∧
    ((∀ items, Props.children props = VArr items → NoDup (node_entries items)) →
     childNodes e = children_of (Props.children props)).
Proof.
  intros Hp H.
  pose proof (createElement_store tag props s) as Hst.
  rewrite H in Hst. simpl in Hst. destruct Hp as (_ & Hrest & Hch & _).
  destruct (createElement_dom _ _ _ _ _ H) as [Hfresh Hdom].
  destruct (createElement_creates _ _ _ _ _ H) as (e & He & Htag).
  destruct (createElement_detached _ _ _ _ _ Hrest Hch H) as (e1 & He1 & Hpar).
  destruct (createElement_wiring _ _ _ _ _ H) as (e2 & He2 & Hw).
  unfold node_at in *. rewrite He in He1, He2.
  injection He1 as <-. injection He2 as <-.
  exists e. do 7 (split; [done|]).
  intros Hnd.
  destruct (createElement_childNodes _ _ _ _ _
              (Forall_impl _ _ _ Hrest (λ kv, host_value_tame _ kv.2)) Hnd H)
    as (e3 & He3 & Hc).
  unfold node_at in He3. rewrite He in He3. by injection He3 as <-.
Qed.

Lemma element_if_keeps (P : runtime → Prop) cond tag props :
  keeps P (createElement tag props) → keeps P (element_if cond tag props).
Proof.
  intros H. unfold element_if. destruct cond; [|apply keeps_ret].
  apply keeps_bind; [exact H|]. intros n. apply keeps_ret.
Qed.

(** An optional element of a component: the nodes it adds ([l], one or
    none) and the entry it leaves in the [children] array. *)
Lemma element_if_part (cond : bool) tag props s v s' :
  (cond = true → host_element_props props s) →
  element_if cond tag props s = (Some v, s') →
  ∃ l,
    store s' = store s ∧
    dom (nodes (doc s')) = list_to_set l ∪ dom (nodes (doc s)) ∧
    NoDup l ∧
    length l = (if cond then 1 else 0)%nat ∧
    filter (λ v, truthy v = true) [v] = VNode <$> l ∧
    ∀ x, x ∈ l →
      x ∉ dom (nodes (doc s)) ∧
      ∃ e, nodes (doc s') !! x = Some e ∧ localName e = Js.asciiLowerCase tag.
Proof.
  intros Hp H. unfold element_if in H. destruct cond.
  - apply bind_Some in H as (n & s1 & E & H). injection H as <- <-.
    destruct (createElement_part tag props s n s1 (Hp eq_refl) E)
      as (e & Hn & Hd & Hst & He & Htag & _).
    exists [n]. split; [done|]. split.
    { rewrite Hd. cbn [list_to_set]. by rewrite (right_id_L ∅ (∪)). }
    split; [apply NoDup_singleton|]. split; [done|]. split; [done|].
    intros x ->%list_elem_of_singleton. split; [|by exists e].
    rewrite Hn. apply is_fresh.
  - injection H as <- <-. exists []. split; [done|]. split.
    { cbn [list_to_set]. by rewrite (left_id_L ∅ (∪)). }
    split; [apply NoDup_nil_2|]. split; [done|]. split; [done|].
    intros x Hx. by apply elem_of_nil in Hx.
Qed.

Lemma filter_truthy_nodes (l : list nid) :
  filter (λ v, truthy v = true) (VNode <$> l) = VNode <$> l.
Proof.
  induction l as [|x l IH]; [done|]. cbn [fmap list_fmap].
  rewrite filter_cons_True by done. f_equal. exact IH.
Qed.

Lemma node_entries_nodes (l : list nid) : node_entries (VNode <$> l) = l.
Proof. induction l as [|x l IH]; [done|]. cbn. f_equal. exact IH. Qed.

Lemma children_of_nodes (l : list nid) :
  children_of (VArr (VNode <$> l)) = CElem <$> l.
Proof.
  cbn [children_of]. induction l as [|x l IH]; [done|]. cbn. f_equal. exact IH.
Qed.

Lemma host_value_nodes (D : gset nid) (l : list nid) :
  (∀ x, x ∈ l → x ∈ D) → host_value D (VArr (VNode <$> l)).
Proof.
  intros H. apply host_arr. apply Forall_fmap, Forall_forall.
  intros x Hx. apply host_node. by apply H.
Qed.

Lemma renderable_nodes (l : list nid) : renderable (VArr (VNode <$> l)).
Proof. cbn [renderable]. apply Forall_fmap, Forall_forall. by intros x _ _. Qed.

(** The [children] array of a component with an optional first and last
    part. *)
Lemma three_parts (a b : jsval) (c : nid) (hs fs : list nid) :
  filter (λ v, truthy v = true) [a] = VNode <$> hs →
  filter (λ v, truthy v = true) [b] = VNode <$> fs →
  filter (λ v, truthy v = true) [a; VNode c; b] = VNode <$> (hs ++ c :: fs)%list.
Proof.
  intros Ha Hb.
  change [a; VNode c; b] with ([a] ++ VNode c :: [b])%list.
  rewrite filter_app, (filter_cons_True _ (VNode c)) by done.
  by rewrite Ha, Hb, fmap_app.
Qed.

(** ** A component of three parts *)

(** What [Card] and [Input] do: an optional first element, a second
    element, an optional third, and an element that takes these as its
    children. *)
Lemma component_of_three
    (c1 : bool) (tag1 : string) (props1 : Props.t)
    (tag2 : string) (props2 : Props.t)
    (c3 : bool) (tag3 : string) (props3 : Props.t)
    (tag : string) (base : Props.t) (s : runtime) (n : nid) (s' : runtime) :
  (c1 = true → host_element_props props1 s) →
  host_element_props props2 s →
  (c3 = true → host_element_props props3 s) →
  resolves base s →
  Forall (λ kv, host_value (dom (nodes (doc s))) kv.2) (Props.rest base) →
  (a ← element_if c1 tag1 props1;
   b ← createElement tag2 props2;
   d ← element_if c3 tag3 props3;
   createElement tag
     (set_children
        (VArr (filter (λ v, truthy v = true) [a; VNode b; d])) base)) s
  = (Some n, s') →
  ∃ e hs c fs,
    node_at s' n = Some e ∧ localName e = Js.asciiLowerCase tag ∧
    parentNode e = None ∧
    childNodes e = CElem <$> (hs ++ c :: fs)%list ∧
    length hs = (if c1 then 1 else 0)%nat ∧
    length fs = (if c3 then 1 else 0)%nat ∧
    NoDup (n :: hs ++ c :: fs)%list ∧
    dom (nodes (doc s'))
    = list_to_set (n :: hs ++ c :: fs)%list ∪ dom (nodes (doc s)) ∧
    (∀ x, x ∈ (n :: hs ++ c :: fs)%list → x ∉ dom (nodes (doc s))) ∧
    (∀ x, x ∈ (hs ++ c :: fs)%list → parent_of s' x = Some n) ∧
    (∀ x, x ∈ hs → ∃ ex, node_at s' x = Some ex
                         ∧ localName ex = Js.asciiLowerCase tag1) ∧
    (∃ ec, node_at s' c = Some ec ∧ localName ec = Js.asciiLowerCase tag2 ∧
           wiring ec = foldl (λ w kv, wire kv w) ([], ∅) (Props.rest props2)) ∧
    (∀ x, x ∈ fs → ∃ ex, node_at s' x = Some ex
                         ∧ localName ex = Js.asciiLowerCase tag3).
Proof.
  intros H1 H2 H3 Hres Hrest H.
  apply bind_Some in H as (a & s1 & E1 & H).
  apply bind_Some in H as (c & s2 & E2 & H).
  apply bind_Some in H as (b & s3 & E3 & E4).
  set (D0 := dom (nodes (doc s))) in *.
  destruct (element_if_part c1 tag1 props1 s a s1 H1 E1)
    as (hs & St1 & Dm1 & Nd1 & Len1 & Fil1 & Hhs).
  fold D0 in Dm1, Hhs.
  assert (D0 ⊆ dom (nodes (doc s1))) as Sub1 by (rewrite Dm1; set_solver).
  assert (host_element_props props2 s1) as H2'
    by by apply (host_element_props_mono props2 s).
  destruct (createElement_part tag2 props2 s1 c s2 H2' E2)
    as (ec & Hc & Dm2 & St2 & Hec & Htc & _ & Hwc & _).
  assert (c ∉ dom (nodes (doc s1))) as Hc1 by (rewrite Hc; apply is_fresh).
  clear Hc.
  assert (dom (nodes (doc s1)) ⊆ dom (nodes (doc s2))) as Sub2
    by (rewrite Dm2; set_solver).
  assert (c3 = true → host_element_props props3 s2) as H3'.
  { intros Hc3. apply (host_element_props_mono props3 s); [congruence| |auto].
    by etrans. }
  destruct (element_if_part c3 tag3 props3 s2 b s3 H3' E3)
    as (fs & St3 & Dm3 & Nd3 & Len3 & Fil3 & Hfs).
  assert (dom (nodes (doc s2)) ⊆ dom (nodes (doc s3))) as Sub3
    by (rewrite Dm3; set_solver).
  pose proof (three_parts a b c hs fs Fil1 Fil3) as Hitems.
  assert (∀ x, x ∈ (hs ++ c :: fs)%list → x ∈ dom (nodes (doc s3))) as Hin3.
  { intros x Hx. apply elem_of_app in Hx as [Hx|Hx].
    - apply Sub3, Sub2. rewrite Dm1. apply elem_of_union_l.
      by apply elem_of_list_to_set.
    - apply elem_of_cons in Hx as [->|Hx].
      + apply Sub3. rewrite Dm2. by apply elem_of_union_l, elem_of_singleton.
      + rewrite Dm3. by apply elem_of_union_l, elem_of_list_to_set. }
  assert (NoDup (hs ++ c :: fs)%list) as Nd.
  { apply NoDup_app. split; [done|]. split.
    - intros x Hx Hx'. apply elem_of_cons in Hx' as [->|Hx'].
      + apply Hc1. rewrite Dm1. by apply elem_of_union_l, elem_of_list_to_set.
      + destruct (Hfs x Hx') as [Hnew _]. apply Hnew, Sub2.
        rewrite Dm1. by apply elem_of_union_l, elem_of_list_to_set.
    - apply NoDup_cons. split; [|done]. intros Hx.
      destruct (Hfs c Hx) as [Hnew _]. apply Hnew. rewrite Dm2.
      by apply elem_of_union_l, elem_of_singleton. }
  assert (host_element_props
            (set_children
               (VArr (filter (λ v, truthy v = true) [a; VNode c; b])) base) s3)
    as H4.
  { rewrite Hitems. split; [|split; [|split]].
    - unfold resolves in *. destruct base as [? ? ? ? css ?]. cbn in *.
      destruct css as [| |d]; try done.
      unfold processedStyles in *. by rewrite St3, St2, St1.
    - destruct base; cbn in *. eapply Forall_impl; [exact Hrest|].
      intros kv. apply host_value_mono. by do 2 (etrans; [|done]).
    - destruct base; cbn. by apply host_value_nodes.
    - destruct base; cbn [set_children Props.children]. apply renderable_nodes. }
  destruct (createElement_part tag _ s3 n s' H4 E4)
    as (e & Hn & Dm4 & St4 & He & Htag & Hpar & _ & Hch).
  assert (n ∉ dom (nodes (doc s3))) as Hn3 by (rewrite Hn; apply is_fresh).
  clear Hn.
  exists e, hs, c, fs.
  do 3 (split; [done|]).
  split.
  { rewrite Hch.
    - destruct base. cbn [set_children Props.children].
      rewrite Hitems. apply children_of_nodes.
    - destruct base. cbn [set_children Props.children]. rewrite Hitems.
      intros items [= <-]. by rewrite node_entries_nodes. }
  do 2 (split; [done|]).
  split.
  { apply NoDup_cons. split; [|done]. intros Hx. by apply Hn3, Hin3. }
  split.
  { rewrite Dm4, Dm3, Dm2, Dm1. cbn [list_to_set].
    rewrite list_to_set_app_L. cbn [list_to_set]. set_solver. }
  split.
  { intros x Hx Hx0. apply elem_of_cons in Hx as [->|Hx].
    { by apply Hn3, Sub3, Sub2, Sub1. }
    apply elem_of_app in Hx as [Hx|Hx]; [by destruct (Hhs x Hx)|].
    apply elem_of_cons in Hx as [->|Hx]; [by apply Hc1, Sub1|].
    destruct (Hfs x Hx) as [Hnew _]. by apply Hnew, Sub2, Sub1. }
  split.
  { intros x Hx. apply (createElement_adopts _ _ _ _ _ x E4); [by apply Hin3|].
    right. eexists. split.
    - destruct base. cbn [set_children Props.children]. by rewrite Hitems.
    - apply list_elem_of_fmap. by exists x. }
  split.
  { intros x Hx. destruct (Hhs x Hx) as [_ Hx1].
    refine (keeps_result _ _ _ _ _
              (createElement_keeps_field localName x (Js.asciiLowerCase tag1) _ _ _ _) _ E4);
      [done..|].
    refine (keeps_result _ _ _ _ _
              (element_if_keeps _ _ _ _
                 (createElement_keeps_field localName x (Js.asciiLowerCase tag1) _ _ _ _)) _ E3);
      [done..|].
    refine (keeps_result _ _ _ _ _
              (createElement_keeps_field localName x (Js.asciiLowerCase tag1) _ _ _ _) Hx1 E2);
      done. }
  split.
  { assert (∃ ec, nodes (doc s2) !! c = Some ec ∧
                  (localName ec, wiring ec)
                  = (Js.asciiLowerCase tag2,
                     foldl (λ w kv, wire kv w) ([], ∅) (Props.rest props2)))
      as Hc2 by (exists ec; by rewrite Htc, Hwc).
    assert (∃ ec, nodes (doc s') !! c = Some ec ∧
                  (localName ec, wiring ec)
                  = (Js.asciiLowerCase tag2,
                     foldl (λ w kv, wire kv w) ([], ∅) (Props.rest props2)))
      as (ec' & Hec' & [= Ht Hw]).
    { refine (keeps_result _ _ _ _ _
                (createElement_keeps_field (λ e, (localName e, wiring e)) c _
                   _ _ _ _) _ E4); [done..|].
      refine (keeps_result _ _ _ _ _
                (element_if_keeps _ _ _ _
                   (createElement_keeps_field (λ e, (localName e, wiring e)) c
                      _ _ _ _ _)) Hc2 E3); done. }
    exists ec'. by rewrite Hw. }
  intros x Hx. destruct (Hfs x Hx) as [_ Hx3].
  refine (keeps_result _ _ _ _ _
            (createElement_keeps_field localName x (Js.asciiLowerCase tag3) _ _ _ _) Hx3 E4);
    done.
Qed.

(** ** The card *)



(** ** The input *)

(** X24.  [Input], called with props of the host whose other props are
    event handlers: the node it returns is a new [div] without a parent
    whose children are new elements, in this order: a [label], only when
    the label is truthy; the [input]; a [div] for the feedback, only when
    the error or the success is truthy.  A function given as [onChange]
    listens to the [change] events of the [input] element. *)
Theorem Input_has_label_input_feedback
    (props : option InputProps.t) (p : InputProps.t) (s : runtime)
    (n : nid) (s' : runtime) :
  p = default InputProps.empty props →
  only_handlers (Props.rest (InputProps.rest p)) →
  host_input_props p s →
  Input props s = (Some n, s') →
  ∃ e ls i fs ei,
    node_at s' n = Some e ∧ localName e = "div" ∧ parentNode e = None ∧
    childNodes e = CElem <$> (ls ++ i :: fs)%list ∧
    length ls = (if truthy (InputProps.label p) then 1 else 0)%nat ∧
    length fs
    = (if truthy (or_else (InputProps.error p) (InputProps.success p))
       then 1 else 0)%nat ∧
    NoDup (n :: ls ++ i :: fs)%list ∧
    (∀ x, x ∈ (n :: ls ++ i :: fs)%list → x ∉ dom (nodes (doc s))) ∧
    (∀ x, x ∈ ls → ∃ ex, node_at s' x = Some ex ∧ localName ex = "label") ∧
    (∀ x, x ∈ fs → ∃ ex, node_at s' x = Some ex ∧ localName ex = "div") ∧
    node_at s' i = Some ei ∧ localName ei = "input" ∧
    (∀ f, InputProps.onChange p = VFun f → ("change", f) ∈ listeners ei).
Proof.
  intros Hp _ (Hl & Hi & Hf & Hres) H.
  unfold Input, createComponent, renderInput in H. rewrite <- Hp in H.
  clear Hp props.
  destruct (component_of_three
              (truthy (InputProps.label p)) "label" (inputLabelProps p)
              "input" (inputElementProps p)
              (truthy (or_else (InputProps.error p) (InputProps.success p)))
              "div" (inputFeedbackProps p)
              "div" (inputWrapperProps VNull VNull VNull) s n s'
              Hl Hi Hf Hres (Forall_nil_2 _) H)
    as (e & ls & i & fs & He & Htag & Hpar & Hch & Ll & Lf & Nd
        & Dm & Hnew & Hpars & Hls & (ei & Hei & Hti & Hw) & Hfs).
  exists e, ls, i, fs, ei.
  do 12 (split; [done|]).
  rewrite foldl_wire in Hw. injection Hw as Hlis Hpr.
  cbn [inputElementProps Props.rest] in Hlis.
  intros f Hf'. rewrite Hlis. cbn [app]. apply list_elem_of_omap.
  exists ("onChange", VFun f). split; [|done]. rewrite Hf'.
  rewrite elem_of_app. right. do 4 (apply elem_of_cons; right).
  apply elem_of_cons. by left.
Qed.

Lemma Input_has_label_input_feedback_witness :
  ∃ e ls i fs ei,
    node_at (Input (Some testInput) initial).2 4%positive = Some e ∧
    localName e = "div" ∧ parentNode e = None ∧
    childNodes e = CElem <$> (ls ++ i :: fs)%list ∧
    length ls = 1%nat ∧
    length fs = 0%nat ∧
    NoDup (4%positive :: ls ++ i :: fs)%list ∧
    (∀ x, x ∈ (4%positive :: ls ++ i :: fs)%list →
          x ∉ dom (nodes (doc initial))) ∧
    (∀ x, x ∈ ls → ∃ ex, node_at (Input (Some testInput) initial).2 x = Some ex
                         ∧ localName ex = "label") ∧
    (∀ x, x ∈ fs → ∃ ex, node_at (Input (Some testInput) initial).2 x = Some ex
                         ∧ localName ex = "div") ∧
    node_at (Input (Some testInput) initial).2 i = Some ei ∧
    localName ei = "input" ∧
    (∀ f, VFun (Host 0) = VFun f → ("change", f) ∈ listeners ei).
Proof.
  apply (Input_has_label_input_feedback (Some testInput) testInput initial
           4%positive (Input (Some testInput) initial).2).
  - reflexivity.
  - apply Forall_cons. split; [reflexivity|]. apply Forall_nil_2.
  - split; [|split; [|split]].
    + intros _. split; [vm_compute; by eexists|].
      split; [apply Forall_nil_2|]. split; [apply host_str|done].
    + split; [vm_compute; by eexists|]. split; [|split; [apply host_undefined|done]].
      repeat (apply Forall_cons; split;
              [first [apply host_str|apply host_undefined|apply host_bool
                     |apply host_fun]|]).
      apply Forall_nil_2.
    + intros [=].
    + vm_compute. by eexists.
  - vm_compute. reflexivity.
Defined.

(** [createElement] throws for [children] it cannot append. *)
Lemma createElement_throws_on tag props s :
  truthy (Props.children props) = true →
  match Props.children props with
  | VArr _ | VStr _ | VNode _ => False
  | _ => True
  end →
  (createElement tag props s).1 = None.
Proof.
  intros Hv Hk.
  assert (props = set_children (Props.children props) props) as E
    by by destruct props.
  rewrite E, createElement_children. unfold mbind, M_bind.
  destruct (build tag props s) as [[n|] s1]; [|done].
  rewrite Hv. by destruct (Props.children props).
Qed.

(** X25.  [Input] throws when its error, or without an error its success,
    is truthy and neither a string, a node nor an array ([true], a
    number): the value is what [Input] shows as the feedback. *)
Theorem Input_rejects_a_flag
    (props : option InputProps.t) (p : InputProps.t) (s : runtime) :
  p = default InputProps.empty props →
  truthy (or_else (InputProps.error p) (InputProps.success p)) = true →
  match or_else (InputProps.error p) (InputProps.success p) with
  | VArr _ | VStr _ | VNode _ => False
  | _ => True
  end →
  (Input props s).1 = None.
Proof.
  intros Hp Hv Hk.
  unfold Input, createComponent, renderInput. rewrite <- Hp. clear Hp props.
  rewrite Hv. unfold mbind at 1, M_bind at 1.
  destruct (element_if _ _ _ s) as [[l|] s1]; [|done].
  unfold mbind at 1, M_bind at 1.
  destruct (createElement "input" _ s1) as [[i|] s2]; [|done].
  unfold mbind at 1, M_bind at 1. unfold element_if at 1.
  unfold mbind at 1, M_bind at 1.
  rewrite (surjective_pairing (createElement "div" (inputFeedbackProps p) s2)).
  rewrite createElement_throws_on; [done|..];
    cbn [inputFeedbackProps styled Props.children]; unfold feedbackText;
    unfold or_else at 1; by rewrite Hv.
Qed.

Lemma Input_rejects_a_flag_witness :
  (Input (Some flaggedInput) initial).1 = None.
Proof.
  apply (Input_rejects_a_flag (Some flaggedInput) flaggedInput initial);
    [reflexivity|reflexivity|exact I].
Defined.

Lemma rendered_nested o m k es :
  rendered o = Some m → (k, Nested es) ∈ o →
  (k, Block ((λ e, (e.1, token_text e.2)) <$> es)) ∈ m.
Proof.
  revert m. induction o as [|kv o IH]; intros m H Hin.
  - by apply elem_of_nil in Hin.
  - unfold rendered in H. cbn [mapM] in H.
    destruct (render_entry kv) as [r|] eqn:Hr; [|done]. simpl in H.
    fold (rendered o) in H. destruct (rendered o) as [m'|]; [|done].
    injection H as <-.
    apply elem_of_cons in Hin as [<-|Hin]; [|apply elem_of_cons; right; auto].
    injection Hr as <-. apply elem_of_cons. by left.
Qed.

Ltac style_wins :=
  apply spread_style_wins;
  [ cbn [fmap list_fmap fst];
    repeat (apply NoDup_cons; split; [not_in_list|]); apply NoDup_nil_2
  | in_list ].

(** X26.  The rule text of an input, whenever its style function returns:
    no key twice; for an error, and without an error for a success, the
    focus rule is the box shadow of that state alone (the focus rule of
    the base styles, its outline and border colour, is replaced, not
    merged), the error winning over the success; there is a border colour
    exactly with an error or a success, and an opacity exactly for a
    disabled input, whose cursor is [not-allowed]. *)
Theorem input_styles
    (error success disabled : bool) (s : runtime) (m : mapping) :
  processedStyles (getInputStyles error success disabled) s = Some m →
  NoDup m.*1 ∧
  (error = true →
   ("&:focus", Block [("boxShadow", "0 0 0 0.2rem rgba(220, 53, 69, 0.25)")])
   ∈ m) ∧
  (error = false → success = true →
   ("&:focus", Block [("boxShadow", "0 0 0 0.2rem rgba(40, 167, 69, 0.25)")])
   ∈ m) ∧
  ("borderColor" ∈ m.*1 ↔ error = true ∨ success = true) ∧
  ("opacity" ∈ m.*1 ↔ disabled = true) ∧
  (disabled = true → ("cursor", Leaf "not-allowed") ∈ m).
Proof.
  cbn [processedStyles getInputStyles]. unfold inputStyleObject.
  generalize (reader (store s)). intros theme H.
  destruct error, success, disabled;
    repeat match type of H with
           | context [theme ?a ?b ≫= _] =>
               destruct (theme a b) as [?|];
               cbn [mbind option_bind] in H; [|done]
           end;
    match type of H with
    | rendered (spread_style ?b ?st) = _ =>
        let st' := eval vm_compute in st in change st with st' in H
    end;
    pose proof (rendered_keys _ _ H) as Hkeys; rewrite Hkeys; clear Hkeys;
    (split; [apply spread_style_NoDup; unfold inputBase;
             cbn [fmap list_fmap fst];
             repeat (apply NoDup_cons; split; [not_in_list|]);
             apply NoDup_nil_2|]);
    (split; [try done; intros _;
             apply (rendered_nested _ _ _
                      [("boxShadow",
                        TStr "0 0 0 0.2rem rgba(220, 53, 69, 0.25)")] H);
             style_wins|]);
    (split; [try done; intros _ _;
             apply (rendered_nested _ _ _
                      [("boxShadow",
                        TStr "0 0 0 0.2rem rgba(40, 167, 69, 0.25)")] H);
             style_wins|]);
    rewrite !spread_style_keys; unfold inputBase; cbn [fmap list_fmap fst];
    (split; [split; [first [ by (intros _; auto)
                           | intros [Hin|Hin]; exfalso; revert Hin;
                             not_in_list ]
                    |first [ by intros [[=]|[=]]
                           | intros _; right; in_list ]]|]);
    (split; [split; [first [ done
                           | intros [Hin|Hin]; exfalso; revert Hin;
                             not_in_list ]
                    |first [ done | intros _; right; in_list ]]|]);
    try done; intros _; apply (rendered_plain _ _ _ _ H); style_wins.
Qed.

Lemma input_styles_witness :
  ∃ m, processedStyles (getInputStyles true true false) initial = Some m ∧
       NoDup m.*1 ∧
       (true = true →
        ("&:focus",
         Block [("boxShadow", "0 0 0 0.2rem rgba(220, 53, 69, 0.25)")]) ∈ m) ∧
       (true = false → true = true →
        ("&:focus",
         Block [("boxShadow", "0 0 0 0.2rem rgba(40, 167, 69, 0.25)")]) ∈ m) ∧
       ("borderColor" ∈ m.*1 ↔ true = true ∨ true = true) ∧
       ("opacity" ∈ m.*1 ↔ false = true) ∧
       (false = true → ("cursor", Leaf "not-allowed") ∈ m).
Proof.
  destruct (processedStyles (getInputStyles true true false) initial)
    as [m|] eqn:E; [|by vm_compute in E].
  exists m. split; [done|].
  exact (input_styles true true false initial m E).
Defined.
